(** * proxy-relay.py: a local relay that adds Proxy-Authorization

    A shallow embedding of [proxy-relay.py] and the properties of its
    configuration parser, its header rewriter, its CONNECT negotiation,
    its byte pump and its socket teardown.

    Python values are modelled as follows.
    - [str] is a list of Unicode code points, [bytes] a list of octets,
      both carried by [N].
    - An exception is a value of [exn]; a pure function that may raise
      returns [res].
    - Socket code runs in the monad [M] over a [world] that holds the
      scripted answers of the environment, the state of the two sockets and
      the trace of calls made so far. *)

From Stdlib Require Import String Ascii ZArith Arith Bool Lia List.
Import ListNotations.
(** ** Python sequences and built-ins *)

Module Py.
Local Open Scope N_scope.

Definition str := list N.
Definition bytes := list N.

(** An ASCII literal of the source. *)
Definition lit (s : string) : list N :=
  map N_of_ascii (list_ascii_of_string s).

Definition CRLF : list N := [13; 10].
Definition CRLF2 : list N := [13; 10; 13; 10].

Inductive exn :=
| ValueError
| IndexError
| OverflowError
| UnicodeDecodeError
| UnicodeEncodeError
| UnboundLocalError
| TimeoutError
| OSError (errno : Z).

Inductive res (A : Type) :=
| Ok (a : A)
| Raise (e : exn).
Arguments Ok {A} a.
Arguments Raise {A} e.

Definition res_bind {A B} (r : res A) (f : A -> res B) : res B :=
  match r with
  | Ok a => f a
  | Raise e => Raise e
  end.

Notation "x <-- r ; k" := (res_bind r (fun x => k))
  (at level 61, r at next level, right associativity).
Notation "' p <-- r ; k" := (res_bind r (fun x => let 'p := x in k))
  (at level 61, p pattern, r at next level, right associativity).

Definition nonempty {A} (l : list A) : bool :=
  match l with [] => false | _ :: _ => true end.

Definition is_empty {A} (l : list A) : bool := negb (nonempty l).

(** [s.startswith(p)] *)
Fixpoint startswith (s p : list N) {struct p} : bool :=
  match p with
  | [] => true
  | x :: p' =>
      match s with
      | [] => false
      | y :: s' => (y =? x) && startswith s' p'
      end
  end.

(** The text before and after the first occurrence of [sep], as
    [s.partition(sep)] and [s.index(sep)] find it. *)
Fixpoint cut (sep s : list N) : option (list N * list N) :=
  if startswith s sep then Some ([], skipn (length sep) s)
  else match s with
       | [] => None
       | c :: s' =>
           match cut sep s' with
           | Some (a, b) => Some (c :: a, b)
           | None => None
           end
       end.

(** The text before and after the last occurrence of [sep]. *)
Fixpoint rcut (sep s : list N) : option (list N * list N) :=
  match s with
  | [] => if startswith s sep then Some ([], []) else None
  | c :: s' =>
      match rcut sep s' with
      | Some (a, b) => Some (c :: a, b)
      | None =>
          if startswith s sep then Some ([], skipn (length sep) s) else None
      end
  end.

(** [sub in s] *)
Definition contains (sub s : list N) : bool :=
  match cut sub s with Some _ => true | None => false end.

(** [s.split(sep, n)]: at most [n] cuts, from the left. *)
Fixpoint split_n (n : nat) (sep s : list N) : list (list N) :=
  match n with
  | O => [s]
  | S n' =>
      match cut sep s with
      | None => [s]
      | Some (a, b) => a :: split_n n' sep b
      end
  end.

(** [s.split(sep)]: a sequence of length [n] has at most [n] occurrences of
    a non-empty separator. *)
Definition split (sep s : list N) : list (list N) :=
  split_n (length s) sep s.

(** [s.rsplit(sep, 1)] *)
Definition rsplit1 (sep s : list N) : list (list N) :=
  match rcut sep s with
  | Some (a, b) => [a; b]
  | None => [s]
  end.

(** [s.replace(old, new)]: every occurrence, scanning from the left. *)
Fixpoint replace_n (n : nat) (old new s : list N) : list N :=
  match n with
  | O => s
  | S n' =>
      match cut old s with
      | None => s
      | Some (a, b) => a ++ new ++ replace_n n' old new b
      end
  end.

Definition replace (old new s : list N) : list N :=
  replace_n (length s) old new s.

(** [a, b = xs] *)
Definition unpack2 {A} (xs : list A) : res (A * A) :=
  match xs with
  | [a; b] => Ok (a, b)
  | _ => Raise ValueError
  end.

(** *** Case mapping

    [str.lower] and [str.upper] are given on the code points whose image
    contains an ASCII character: the ASCII letters and the few code points
    of the Unicode tables listed below.  Any other code point is left as it
    is; its real image consists of non-ASCII code points, and this program
    only ever compares the mapped text with an ASCII literal through
    [startswith]. *)

Definition lower_cp (c : N) : list N :=
  if (65 <=? c) && (c <=? 90) then [c + 32]
  else if c =? 0x130 then [0x69; 0x307]
  else if c =? 0x212A then [0x6B]
  else [c].

Definition lower (s : str) : str := flat_map lower_cp s.

Definition upper_special : list (N * list N) :=
  [ (0xDF, [0x53; 0x53]); (0x131, [0x49]); (0x149, [0x2BC; 0x4E]);
    (0x17F, [0x53]); (0x1F0, [0x4A; 0x30C]); (0x1E96, [0x48; 0x331]);
    (0x1E97, [0x54; 0x308]); (0x1E98, [0x57; 0x30A]);
    (0x1E99, [0x59; 0x30A]); (0x1E9A, [0x41; 0x2BE]);
    (0xFB00, [0x46; 0x46]); (0xFB01, [0x46; 0x49]); (0xFB02, [0x46; 0x4C]);
    (0xFB03, [0x46; 0x46; 0x49]); (0xFB04, [0x46; 0x46; 0x4C]);
    (0xFB05, [0x53; 0x54]); (0xFB06, [0x53; 0x54]) ].

Fixpoint assoc {B} (k : N) (l : list (N * B)) : option B :=
  match l with
  | [] => None
  | (k', v) :: l' => if k =? k' then Some v else assoc k l'
  end.

Definition upper_cp (c : N) : list N :=
  if (97 <=? c) && (c <=? 122) then [c - 32]
  else match assoc c upper_special with
       | Some u => u
       | None => [c]
       end.

Definition upper (s : str) : str := flat_map upper_cp s.

(** *** UTF-8

    [utf8_scan] follows the decoder of the interpreter: one item per
    decoded code point, and one [None] per maximal undecodable run (an
    invalid start byte, a sequence cut short by a byte that is not a valid
    continuation, or a sequence cut short by the end of the data). *)

Definition is_cont (b : N) : bool := (0x80 <=? b) && (b <=? 0xBF).

Fixpoint utf8_scan (bs : bytes) : list (option N) :=
  match bs with
  | [] => []
  | ch :: s1 =>
    if ch <? 0x80 then Some ch :: utf8_scan s1
    else if ch <? 0xC2 then None :: utf8_scan s1
    else if ch <? 0xE0 then
      match s1 with
      | [] => [None]
      | ch2 :: s2 =>
        if is_cont ch2
        then Some ((ch - 0xC0) * 64 + (ch2 - 0x80)) :: utf8_scan s2
        else None :: utf8_scan s1
      end
    else if ch <? 0xF0 then
      match s1 with
      | [] => [None]
      | ch2 :: s2 =>
        if negb (is_cont ch2)
           || (if ch2 <? 0xA0 then ch =? 0xE0 else ch =? 0xED)
        then None :: utf8_scan s1
        else
          match s2 with
          | [] => [None]
          | ch3 :: s3 =>
            if is_cont ch3
            then Some ((ch - 0xE0) * 4096 + (ch2 - 0x80) * 64 + (ch3 - 0x80))
                   :: utf8_scan s3
            else None :: utf8_scan s2
          end
      end
    else if ch <? 0xF5 then
      match s1 with
      | [] => [None]
      | ch2 :: s2 =>
        if negb (is_cont ch2)
           || (if ch2 <? 0x90 then ch =? 0xF0 else ch =? 0xF4)
        then None :: utf8_scan s1
        else
          match s2 with
          | [] => [None]
          | ch3 :: s3 =>
            if negb (is_cont ch3) then None :: utf8_scan s2
            else
              match s3 with
              | [] => [None]
              | ch4 :: s4 =>
                if is_cont ch4
                then Some ((ch - 0xF0) * 262144 + (ch2 - 0x80) * 4096
                           + (ch3 - 0x80) * 64 + (ch4 - 0x80))
                       :: utf8_scan s4
                else None :: utf8_scan s3
              end
          end
      end
    else None :: utf8_scan s1
  end.

Definition REPLACEMENT : N := 0xFFFD.

(** [bs.decode("utf-8", errors="replace")] *)
Definition decode_replace (bs : bytes) : str :=
  map (fun o => match o with Some c => c | None => REPLACEMENT end)
      (utf8_scan bs).

Fixpoint all_some {A} (l : list (option A)) : option (list A) :=
  match l with
  | [] => Some []
  | Some a :: l' =>
      match all_some l' with Some r => Some (a :: r) | None => None end
  | None :: _ => None
  end.

(** [bs.decode()] *)
Definition decode (bs : bytes) : res str :=
  match all_some (utf8_scan bs) with
  | Some s => Ok s
  | None => Raise UnicodeDecodeError
  end.

Definition encode_cp (c : N) : option bytes :=
  if c <? 0x80 then Some [c]
  else if c <? 0x800 then Some [0xC0 + c / 64; 0x80 + c mod 64]
  else if c <? 0x10000 then
    if (0xD800 <=? c) && (c <=? 0xDFFF) then None
    else Some [0xE0 + c / 4096; 0x80 + (c / 64) mod 64; 0x80 + c mod 64]
  else if c <? 0x110000 then
    Some [0xF0 + c / 262144; 0x80 + (c / 4096) mod 64;
          0x80 + (c / 64) mod 64; 0x80 + c mod 64]
  else None.

(** [s.encode()]: surrogates cannot be encoded. *)
Fixpoint encode (s : str) : res bytes :=
  match s with
  | [] => Ok []
  | c :: s' =>
      match encode_cp c with
      | None => Raise UnicodeEncodeError
      | Some bs => r <-- encode s' ; Ok (bs ++ r)
      end
  end.

(** *** [int(s)]

    Code points above 127 are first mapped to ASCII: Unicode white space to
    a space, a Unicode decimal digit to its ASCII digit, anything else to
    [?].  The ASCII text is then: white space, an optional sign, decimal
    digits with single underscores between them, white space.  A literal
    of more than [INT_MAX_STR_DIGITS] digits is refused; its underscores
    and its sign are not counted. *)

Definition unicode_spaces : list N :=
  [0x85; 0xA0; 0x1680; 0x2000; 0x2001; 0x2002; 0x2003; 0x2004; 0x2005;
   0x2006; 0x2007; 0x2008; 0x2009; 0x200A; 0x2028; 0x2029; 0x202F; 0x205F;
   0x3000].

(** The code points of the digit zero of each decimal script (Unicode 14);
    the nine other digits follow each of them. *)
Definition unicode_zeros : list N :=
  [0x660; 0x6F0; 0x7C0; 0x966; 0x9E6; 0xA66; 0xAE6; 0xB66; 0xBE6; 0xC66;
   0xCE6; 0xD66; 0xDE6; 0xE50; 0xED0; 0xF20; 0x1040; 0x1090; 0x17E0;
   0x1810; 0x1946; 0x19D0; 0x1A80; 0x1A90; 0x1B50; 0x1BB0; 0x1C40; 0x1C50;
   0xA620; 0xA8D0; 0xA900; 0xA9D0; 0xA9F0; 0xAA50; 0xABF0; 0xFF10;
   0x104A0; 0x10D30; 0x11066; 0x110F0; 0x11136; 0x111D0; 0x112F0;
   0x11450; 0x114D0; 0x11650; 0x116C0; 0x11730; 0x118E0; 0x11950;
   0x11C50; 0x11D50; 0x11DA0; 0x16A60; 0x16AC0; 0x16B50; 0x1D7CE;
   0x1D7D8; 0x1D7E2; 0x1D7EC; 0x1D7F6; 0x1E140; 0x1E2F0; 0x1E950;
   0x1FBF0].

Definition unicode_decimal (c : N) : option N :=
  match find (fun z => (z <=? c) && (c <? z + 10)) unicode_zeros with
  | Some z => Some (c - z)
  | None => None
  end.

Definition to_ascii_cp (c : N) : N :=
  if c <=? 127 then c
  else if existsb (N.eqb c) unicode_spaces then 32
  else match unicode_decimal c with
       | Some d => 48 + d
       | None => 63
       end.

Definition is_space (c : N) : bool :=
  ((9 <=? c) && (c <=? 13)) || (c =? 32).

Definition is_digit (c : N) : bool := (48 <=? c) && (c <=? 57).

Fixpoint lstrip (s : list N) : list N :=
  match s with
  | c :: s' => if is_space c then lstrip s' else s
  | [] => []
  end.

(** The digits of the literal, scanned from the left.  [acc] is the value
    read so far and [prev_us] tells that the previous character was an
    underscore; the text that follows the literal is returned. *)
Fixpoint scan_digits (acc : Z) (prev_us : bool) (s : list N)
  : option (Z * list N) :=
  match s with
  | c :: s' =>
      if is_digit c
      then scan_digits (acc * 10 + Z.of_N (c - 48))%Z false s'
      else if c =? 95 then
        if prev_us then None else scan_digits acc true s'
      else if prev_us then None else Some (acc, s)
  | [] => if prev_us then None else Some (acc, [])
  end.

(** [sys.get_int_max_str_digits()]: the default of the interpreter, which
    the program does not change. *)
Definition INT_MAX_STR_DIGITS : N := 4300.

(** The number of digits of the literal at the head of [s]. *)
Fixpoint count_digits (s : list N) : N :=
  match s with
  | c :: s' =>
      if is_digit c then 1 + count_digits s'
      else if c =? 95 then count_digits s'
      else 0
  | [] => 0
  end.

Definition parse_unsigned (s : list N) : res Z :=
  match s with
  | c :: _ =>
      if is_digit c then
        match scan_digits 0%Z false s with
        | Some (v, tail) =>
            if INT_MAX_STR_DIGITS <? count_digits s then Raise ValueError
            else if is_empty (lstrip tail) then Ok v
            else Raise ValueError
        | None => Raise ValueError
        end
      else Raise ValueError
  | [] => Raise ValueError
  end.

Definition int (s : str) : res Z :=
  match lstrip (map to_ascii_cp s) with
  | c :: s' =>
      if c =? 43 then parse_unsigned s'
      else if c =? 45 then v <-- parse_unsigned s' ; Ok (- v)%Z
      else parse_unsigned (c :: s')
  | [] => Raise ValueError
  end.

(** *** [base64.b64encode] *)

Definition b64_alphabet : list N :=
  lit "ABCDEFGHIJKLMNOPQRSTUVWXYZabcdefghijklmnopqrstuvwxyz0123456789+/".

Definition b64_char (n : N) : N := nth (N.to_nat (n mod 64)) b64_alphabet 0.

Fixpoint b64encode (bs : bytes) : bytes :=
  match bs with
  | [] => []
  | [a] => [b64_char (a / 4); b64_char ((a mod 4) * 16); 61; 61]
  | [a; b] =>
      [b64_char (a / 4); b64_char ((a mod 4) * 16 + b / 16);
       b64_char ((b mod 16) * 4); 61]
  | a :: b :: c :: rest =>
      b64_char (a / 4) :: b64_char ((a mod 4) * 16 + b / 16)
        :: b64_char ((b mod 16) * 4 + c / 64) :: b64_char (c mod 64)
        :: b64encode rest
  end.

(** The text of an optional value inside an f-string. *)
Definition fmt (o : option str) : str :=
  match o with
  | Some s => s
  | None => lit "None"
  end.

(** The truth value of an optional string: [None] and [""] are false. *)
Definition truthy (o : option str) : bool :=
  match o with
  | Some s => nonempty s
  | None => false
  end.

(** [a or b] *)
Definition py_or (a b : option str) : option str :=
  if truthy a then a else b.

End Py.


(** ** The program *)

Module Relay.
Import Py.
Local Open Scope Z_scope.

(** *** Configuration: [parse_proxy_url] and [make_auth_header] *)

Definition parse_proxy_url (url : str)
  : res (str * Z * option str * option str) :=
  let url := replace (lit "http://") [] url in
  '(user, password, hostport) <--
    (if contains (lit "@") url then
       '(creds, hostport) <-- unpack2 (rsplit1 (lit "@") url) ;
       '(user, password) <-- unpack2 (split_n 1 (lit ":") creds) ;
       Ok (Some user, Some password, hostport)
     else Ok (None, None, url)) ;
  '(host, port) <-- unpack2 (split (lit ":") hostport) ;
  port <-- int port ;
  Ok (host, port, user, password).

Definition make_auth_header (user password : option str) : res str :=
  let creds := fmt user ++ lit ":" ++ fmt password in
  raw <-- encode creds ;
  b64 <-- decode (b64encode raw) ;
  Ok (lit "Proxy-Authorization: Basic " ++ b64 ++ CRLF).

(** *** Sockets, threads and the error stream *)

Inductive sock := Client | Upstream.

(** What one [recv] call gives back: data ([b""] when the peer has closed)
    or an exception. *)
Inductive rx :=
| RxData (data : bytes)
| RxErr (e : exn).

(** What one [sendall] call does: it completes, raises, or never makes
    progress. *)
Inductive tx :=
| TxOk
| TxErr (e : exn)
| TxStall.

(** [threading.Thread(target=relay, args=(src, dst), daemon=True)] *)
Inductive thread := Pump (src dst : sock).

Inductive stderr_line :=
| MsgNoProxy                          (* ERROR: HTTPS_PROXY or HTTP_PROXY not set *)
| MsgConnectFailed (resp_line : str)  (* [proxy-relay] Upstream CONNECT failed: ... *)
| MsgError (e : exn)                  (* [proxy-relay] Error: ... *)
| MsgTraceback (e : exn).             (* the report of an uncaught exception *)

Inductive event :=
| EvRecv (s : sock) (bufsize : Z) (r : rx)
| EvSendall (s : sock) (data : bytes) (r : tx)
| EvSocket (r : option exn)
| EvSettimeout (s : sock) (seconds : Z)
| EvConnect (host : str) (port : Z) (r : option exn)
| EvShutdownWr (s : sock) (r : option exn)
| EvClose (s : sock)
| EvStart (t : thread)
| EvJoin (t : thread) (timeout : Z) (finished : bool)
| EvStderr (l : stderr_line).

(** The local variable [upstream] of [handle_client]. *)
Inductive upstream_state := Unbound | Opened | Closed.

(** The answers of the environment (the first seven fields), the state of
    the two sockets, and the calls made so far.  A script lists the results
    of the successive calls; once [client_rx] or [upstream_rx] is used up
    nothing more ever arrives on that socket, and a used-up [client_tx] or
    [upstream_tx] means that further writes complete. *)
Record world := mkWorld {
  client_rx : list rx;
  upstream_rx : list rx;
  client_tx : list tx;
  upstream_tx : list tx;
  socket_result : option exn;
  connect_result : option exn;
  shutdown_result : sock -> option exn;
  join_result : thread -> bool;
  client_closed : bool;
  upstream_var : upstream_state;
  trace : list event
}.

Definition rx_script (s : sock) (w : world) : list rx :=
  match s with Client => client_rx w | Upstream => upstream_rx w end.

Definition tx_script (s : sock) (w : world) : list tx :=
  match s with Client => client_tx w | Upstream => upstream_tx w end.

Definition set_rx (s : sock) (l : list rx) (w : world) : world :=
  match s with
  | Client =>
      mkWorld l (upstream_rx w) (client_tx w) (upstream_tx w)
        (socket_result w) (connect_result w) (shutdown_result w)
        (join_result w) (client_closed w) (upstream_var w) (trace w)
  | Upstream =>
      mkWorld (client_rx w) l (client_tx w) (upstream_tx w)
        (socket_result w) (connect_result w) (shutdown_result w)
        (join_result w) (client_closed w) (upstream_var w) (trace w)
  end.

Definition set_tx (s : sock) (l : list tx) (w : world) : world :=
  match s with
  | Client =>
      mkWorld (client_rx w) (upstream_rx w) l (upstream_tx w)
        (socket_result w) (connect_result w) (shutdown_result w)
        (join_result w) (client_closed w) (upstream_var w) (trace w)
  | Upstream =>
      mkWorld (client_rx w) (upstream_rx w) (client_tx w) l
        (socket_result w) (connect_result w) (shutdown_result w)
        (join_result w) (client_closed w) (upstream_var w) (trace w)
  end.

Definition set_client_closed (b : bool) (w : world) : world :=
  mkWorld (client_rx w) (upstream_rx w) (client_tx w) (upstream_tx w)
    (socket_result w) (connect_result w) (shutdown_result w)
    (join_result w) b (upstream_var w) (trace w).

Definition set_upstream_var (u : upstream_state) (w : world) : world :=
  mkWorld (client_rx w) (upstream_rx w) (client_tx w) (upstream_tx w)
    (socket_result w) (connect_result w) (shutdown_result w)
    (join_result w) (client_closed w) u (trace w).

Definition emit (e : event) (w : world) : world :=
  mkWorld (client_rx w) (upstream_rx w) (client_tx w) (upstream_tx w)
    (socket_result w) (connect_result w) (shutdown_result w)
    (join_result w) (client_closed w) (upstream_var w) (trace w ++ [e]).

(** *** The monad of socket code

    A computation ends normally, by a [return] statement, by an exception,
    or not at all. *)

Inductive outcome (A : Type) :=
| Normal (a : A)
| Returned
| Raised (e : exn)
| Hang.
Arguments Normal {A} a.
Arguments Returned {A}.
Arguments Raised {A} e.
Arguments Hang {A}.

Definition M (A : Type) := world -> outcome A * world.

Definition ret {A} (a : A) : M A := fun w => (Normal a, w).

Definition bind {A B} (m : M A) (f : A -> M B) : M B := fun w =>
  match m w with
  | (Normal a, w') => f a w'
  | (Returned, w') => (Returned, w')
  | (Raised e, w') => (Raised e, w')
  | (Hang, w') => (Hang, w')
  end.

Notation "x <- m ;; k" := (bind m (fun x => k))
  (at level 61, m at next level, right associativity).
Notation "' p <- m ;; k" := (bind m (fun x => let 'p := x in k))
  (at level 61, p pattern, m at next level, right associativity).
Notation "m ;; k" := (bind m (fun _ => k))
  (at level 61, right associativity).

Definition get : M world := fun w => (Normal w, w).
Definition raise {A} (e : exn) : M A := fun w => (Raised e, w).
Definition hang {A} : M A := fun w => (Hang, w).
Definition return_ {A} : M A := fun w => (Returned, w).

Definition lift {A} (r : res A) : M A :=
  match r with
  | Ok a => ret a
  | Raise e => raise e
  end.

(** [try: body except Exception as e: handler e] *)
Definition try_except {A} (body : M A) (handler : exn -> M A) : M A :=
  fun w =>
    match body w with
    | (Raised e, w') => handler e w'
    | r => r
    end.

(** [try: body finally: fin].  The [finally] block runs however the body
    ended, unless the body never ends; what the block itself raises or
    returns takes over. *)
Definition try_finally {A} (body : M A) (fin : M unit) : M A := fun w =>
  match body w with
  | (Hang, w') => (Hang, w')
  | (o, w') =>
      match fin w' with
      | (Normal _, w'') => (o, w'')
      | (Returned, w'') => (Returned, w'')
      | (Raised e, w'') => (Raised e, w'')
      | (Hang, w'') => (Hang, w'')
      end
  end.

(** A function call: a [return] statement ends the function, not the
    caller. *)
Definition call (m : M unit) : M unit := fun w =>
  match m w with
  | (Returned, w') => (Normal tt, w')
  | r => r
  end.

Definition EBADF : Z := 9.

(** Using a socket: the variable must be bound and the socket not closed. *)
Definition usable (s : sock) (w : world) : res unit :=
  match s with
  | Client => if client_closed w then Raise (OSError EBADF) else Ok tt
  | Upstream =>
      match upstream_var w with
      | Unbound => Raise UnboundLocalError
      | Opened => Ok tt
      | Closed => Raise (OSError EBADF)
      end
  end.

(** [s.recv(bufsize)].  With nothing left to arrive, the client socket
    blocks for ever and the upstream socket, which has a timeout, raises. *)
Definition recv (s : sock) (bufsize : Z) : M bytes := fun w =>
  match usable s w with
  | Raise e => (Raised e, w)
  | Ok _ =>
      match rx_script s w with
      | [] =>
          match s with
          | Client => (Hang, w)
          | Upstream =>
              (Raised TimeoutError, emit (EvRecv s bufsize (RxErr TimeoutError)) w)
          end
      | r :: rest =>
          let w' := emit (EvRecv s bufsize r) (set_rx s rest w) in
          match r with
          | RxData d => (Normal d, w')
          | RxErr e => (Raised e, w')
          end
      end
  end.

(** [s.sendall(data)] *)
Definition sendall (s : sock) (data : bytes) : M unit := fun w =>
  match usable s w with
  | Raise e => (Raised e, w)
  | Ok _ =>
      let r := hd TxOk (tx_script s w) in
      let w' := emit (EvSendall s data r) (set_tx s (tl (tx_script s w)) w) in
      match r with
      | TxOk => (Normal tt, w')
      | TxErr e => (Raised e, w')
      | TxStall =>
          match s with
          | Client => (Hang, w')
          | Upstream => (Raised TimeoutError, w')
          end
      end
  end.

(** [upstream = socket.socket(socket.AF_INET, socket.SOCK_STREAM)] *)
Definition socket_new : M unit := fun w =>
  match socket_result w with
  | Some e => (Raised e, emit (EvSocket (Some e)) w)
  | None => (Normal tt, emit (EvSocket None) (set_upstream_var Opened w))
  end.

Definition settimeout (s : sock) (seconds : Z) : M unit := fun w =>
  match usable s w with
  | Raise e => (Raised e, w)
  | Ok _ => (Normal tt, emit (EvSettimeout s seconds) w)
  end.

(** [upstream.connect((host, port))] *)
Definition connect (host : str) (port : Z) : M unit := fun w =>
  match usable Upstream w with
  | Raise e => (Raised e, w)
  | Ok _ =>
      let w' := emit (EvConnect host port (connect_result w)) w in
      match connect_result w with
      | None => (Normal tt, w')
      | Some e => (Raised e, w')
      end
  end.

(** [s.shutdown(socket.SHUT_WR)] *)
Definition shutdown_wr (s : sock) : M unit := fun w =>
  match usable s w with
  | Raise e => (Raised e, w)
  | Ok _ =>
      let w' := emit (EvShutdownWr s (shutdown_result w s)) w in
      match shutdown_result w s with
      | None => (Normal tt, w')
      | Some e => (Raised e, w')
      end
  end.

(** [s.close()]: closing a closed socket does nothing; naming the unbound
    variable [upstream] raises. *)
Definition close (s : sock) : M unit := fun w =>
  match s with
  | Client => (Normal tt, emit (EvClose Client) (set_client_closed true w))
  | Upstream =>
      match upstream_var w with
      | Unbound => (Raised UnboundLocalError, w)
      | _ => (Normal tt, emit (EvClose Upstream) (set_upstream_var Closed w))
      end
  end.

Definition start (t : thread) : M unit := fun w =>
  (Normal tt, emit (EvStart t) w).

(** [t.join(timeout=...)] returns when the thread has finished or when the
    time is over; the caller cannot tell which. *)
Definition join (t : thread) (timeout : Z) : M unit := fun w =>
  (Normal tt, emit (EvJoin t timeout (join_result w t)) w).

Definition stderr_write (l : stderr_line) : M unit := fun w =>
  (Normal tt, emit (EvStderr l) w).

(** *** [relay] *)

(** The [while True] loop.  Every round takes one entry of the script of
    [src], so [fuel] above the length of that script is never used up. *)
Fixpoint pump (fuel : nat) (src dst : sock) : M unit :=
  match fuel with
  | O => hang
  | S fuel' =>
      data <- recv src 65536 ;;
      if is_empty data then ret tt
      else sendall dst data ;; pump fuel' src dst
  end.

Definition relay (src dst : sock) : M unit :=
  try_finally
    (try_except
       (w <- get ;; pump (S (length (rx_script src w))) src dst)
       (fun _ => ret tt))
    (try_except (shutdown_wr dst) (fun _ => ret tt)).

(** *** [handle_client] *)

(** Lines 54-60: read the initial request from the client. *)
Fixpoint read_request (fuel : nat) (data : bytes) : M bytes :=
  if contains CRLF2 data then ret data
  else
    match fuel with
    | O => hang
    | S fuel' =>
        chunk <- recv Client 4096 ;;
        if is_empty chunk then close Client ;; return_
        else read_request fuel' (data ++ chunk)
    end.

(** Lines 86-91: read the upstream response. *)
Fixpoint read_response (fuel : nat) (resp : bytes) : M bytes :=
  if contains CRLF2 resp then ret resp
  else
    match fuel with
    | O => hang
    | S fuel' =>
        chunk <- recv Upstream 4096 ;;
        if is_empty chunk then ret resp
        else read_response fuel' (resp ++ chunk)
    end.

(** [data.index(b"\r\n\r\n")] with the two slices around it. *)
Definition index_cut (data : bytes) : res (bytes * bytes) :=
  match cut CRLF2 data with
  | Some p => Ok p
  | None => Raise ValueError
  end.

(** [lines[0]] and [lines[1:]] *)
Definition first_and_rest (lines : list str) : res (str * list str) :=
  match lines with
  | l :: ls => Ok (l, ls)
  | [] => Raise IndexError
  end.

Definition is_proxy_authorization (l : str) : bool :=
  startswith (lower l) (lit "proxy-authorization:").

(** Lines 74-80: the new header block. *)
Definition rewrite_headers (auth_header request_line : str)
  (rest_lines : list str) : str :=
  let other_headers :=
    filter (fun l => negb (is_proxy_authorization l)) rest_lines in
  let new_headers :=
    fold_left (fun acc h => if nonempty h then acc ++ h ++ CRLF else acc)
      other_headers (request_line ++ CRLF ++ auth_header) in
  new_headers ++ CRLF.

(** Lines 63 and 72-82: the header bytes that are sent to the upstream for
    the header block [head]. *)
Definition header_bytes (auth_header : str) (head : bytes) : res bytes :=
  '(request_line, rest_lines) <--
    first_and_rest (split CRLF (decode_replace head)) ;
  encode (rewrite_headers auth_header request_line rest_lines).

(** Lines 53-82: read the request, connect to the upstream proxy and send
    the rewritten request.  The request line is the result. *)
Definition forward_request (upstream_host : str) (upstream_port : Z)
  (auth_header : str) : M str :=
  w <- get ;;
  data <- read_request (S (length (client_rx w))) [] ;;
  '(head, rest) <- lift (index_cut data) ;;
  let headers := decode_replace head in
  socket_new ;;
  settimeout Upstream 30 ;;
  connect upstream_host upstream_port ;;
  let lines := split CRLF headers in
  '(request_line, rest_lines) <- lift (first_and_rest lines) ;;
  let new_headers := rewrite_headers auth_header request_line rest_lines in
  payload <- lift (encode new_headers) ;;
  sendall Upstream (payload ++ rest) ;;
  ret request_line.

(** Lines 85-107: the CONNECT branch. *)
Definition negotiate_tunnel : M unit :=
  w <- get ;;
  resp <- read_response (S (length (upstream_rx w))) [] ;;
  sendall Client resp ;;
  resp_line <- lift (decode (hd [] (split CRLF resp))) ;;
  if contains (lit " 200 ") resp_line then
    let t1 := Pump Client Upstream in
    let t2 := Pump Upstream Client in
    start t1 ;;
    start t2 ;;
    join t1 300 ;;
    join t2 300
  else stderr_write (MsgConnectFailed resp_line).

(** Lines 109-112: any other method. *)
Definition relay_response : M unit :=
  let t1 := Pump Upstream Client in
  start t1 ;;
  join t1 60.

Definition is_connect (request_line : str) : bool :=
  startswith (upper request_line) (lit "CONNECT").

(** Lines 116-124: the [finally] block. *)
Definition cleanup : M unit :=
  try_except (close Client) (fun _ => ret tt) ;;
  try_except (close Upstream) (fun _ => ret tt).

Definition handle_client (upstream_host : str) (upstream_port : Z)
  (auth_header : str) : M unit :=
  call
    (try_finally
       (try_except
          (request_line <-
             forward_request upstream_host upstream_port auth_header ;;
           if is_connect request_line then negotiate_tunnel
           else relay_response)
          (fun e => stderr_write (MsgError e)))
       cleanup).

(** A session starts with the client socket open, [upstream] unbound and
    nothing done yet. *)
Definition fresh (w : world) : Prop :=
  client_closed w = false /\ upstream_var w = Unbound /\ trace w = [].

(** *** The process: module level and [main] *)

(** [os.environ.get] *)
Definition environ := string -> option str.

(** What the process does: the calls on the listening socket, whether
    they return or raise, and the lines that it writes. *)
Inductive pevent :=
| PStderr (l : stderr_line)
| PSocket
| PSetsockopt
| PBind (host : str) (port : Z)
| PListen (backlog : Z)
| PStdoutListening (port : Z) (upstream_host : str) (upstream_port : Z).

(** The answers of the system to the calls of lines 134-139: for each
    call [None], or the exception that the call raises.  [print] raises
    when the standard output cannot encode the line or cannot be written
    to, and then no line is written. *)
Record system := mkSystem {
  server_socket_error : option exn;
  setsockopt_error : option exn;
  bind_error : option exn;
  listen_error : option exn;
  print_error : option exn
}.

(** How the process goes on: it exits with a status, or it serves
    connections for ever, each one by [handle_client] with these
    arguments. *)
Inductive fate :=
| Exited (status : Z)
| Serving (upstream_host : str) (upstream_port : Z) (auth_header : str).

(** How [main] ends: in the accept loop, by [sys.exit], or by an
    exception. *)
Inductive main_end :=
| AcceptLoop (upstream_host : str) (upstream_port : Z) (auth_header : str)
| SysExit (status : Z)
| Uncaught (e : exn).

Definition LISTEN_PORT (env : environ) : res Z :=
  int (match env "RELAY_PORT"%string with
       | Some v => v
       | None => lit "18080"
       end).

Definition UPSTREAM_PROXY (env : environ) : option str :=
  py_or (py_or (py_or (env "HTTPS_PROXY"%string) (env "HTTP_PROXY"%string))
               (env "https_proxy"%string))
        (env "http_proxy"%string).

(** Lines 134-144: the listening socket, the line on the standard output
    and the accept loop.  A call that raises ends [main]; [bind] refuses a
    port outside 0..65535 before the system is asked. *)
Definition serve (listen_port : Z) (upstream_host : str) (upstream_port : Z)
  (auth_header : str) (sys : system) : list pevent * main_end :=
  let made := [PSocket] in
  match server_socket_error sys with
  | Some e => (made, Uncaught e)
  | None =>
  let set := made ++ [PSetsockopt] in
  match setsockopt_error sys with
  | Some e => (set, Uncaught e)
  | None =>
  let bound := set ++ [PBind (lit "127.0.0.1") listen_port] in
  if (listen_port <? 0) || (65535 <? listen_port)
  then (bound, Uncaught OverflowError)
  else
  match bind_error sys with
  | Some e => (bound, Uncaught e)
  | None =>
  let listening := bound ++ [PListen 50] in
  match listen_error sys with
  | Some e => (listening, Uncaught e)
  | None =>
  match print_error sys with
  | Some e => (listening, Uncaught e)
  | None =>
      (listening
         ++ [PStdoutListening listen_port upstream_host upstream_port],
       AcceptLoop upstream_host upstream_port auth_header)
  end end end end end.

(** [main] *)
Definition main (listen_port : Z) (upstream_proxy : option str)
  (sys : system) : list pevent * main_end :=
  match (if truthy upstream_proxy then upstream_proxy else None) with
  | None => ([PStderr MsgNoProxy], SysExit 1)
  | Some url =>
    match parse_proxy_url url with
    | Raise e => ([], Uncaught e)
    | Ok (upstream_host, upstream_port, user, password) =>
        match (if truthy user then make_auth_header user password
               else Ok []) with
        | Raise e => ([], Uncaught e)
        | Ok auth_header =>
            serve listen_port upstream_host upstream_port auth_header sys
        end
    end
  end.

(** The script from its first line: the module-level assignments, then
    [main()].  An uncaught exception is reported on the error stream and
    the interpreter exits with status 1. *)
Definition run (env : environ) (sys : system) : list pevent * fate :=
  match LISTEN_PORT env with
  | Raise e => ([PStderr (MsgTraceback e)], Exited 1)
  | Ok listen_port =>
      match main listen_port (UPSTREAM_PROXY env) sys with
      | (evs, AcceptLoop h p a) => (evs, Serving h p a)
      | (evs, SysExit n) => (evs, Exited n)
      | (evs, Uncaught e) => (evs ++ [PStderr (MsgTraceback e)], Exited 1)
      end
  end.

End Relay.

(** ** Vocabulary of the specification *)

Module Spec.
Import Py Relay.
Local Open Scope N_scope.

(** The number that a string of decimal digits denotes. *)
Definition decimal_value (digits : str) : Z :=
  fold_left (fun acc c => (acc * 10 + Z.of_N (c - 48))%Z) digits 0%Z.

(** A numeric port: one ASCII decimal digit or more, and no more digits
    than [int] accepts. *)
Definition numeric (port : str) : Prop :=
  port <> [] /\ Forall (fun c => is_digit c = true) port
  /\ N.of_nat (length port) <= INT_MAX_STR_DIGITS.

(** The credential part and the host-port part of an upstream URL: what
    stands before and after the last [@], once [http://] is removed. *)
Definition url_parts (url : str) : option str * str :=
  let u := replace (lit "http://") [] url in
  match rcut (lit "@") u with
  | Some (creds, hostport) => (Some creds, hostport)
  | None => (None, u)
  end.

(** The host-port part holds no parseable integer port: it has no colon,
    or [int] refuses the text after its last colon. *)
Definition no_parseable_port (hostport : str) : Prop :=
  match rcut (lit ":") hostport with
  | None => True
  | Some (_, port) => forall v, int port <> Ok v
  end.

Definition colons (s : str) : nat := count_occ N.eq_dec s 58.

(** No upstream URL is configured: each of the four variables is unset or
    empty. *)
Definition no_upstream_configured (env : environ) : Prop :=
  truthy (env "HTTPS_PROXY"%string) = false
  /\ truthy (env "HTTP_PROXY"%string) = false
  /\ truthy (env "https_proxy"%string) = false
  /\ truthy (env "http_proxy"%string) = false.

(** The process stops on a configuration error: its only calls are writes
    to the error stream, there is one at least, and the exit status is not
    zero. *)
Definition config_failure (r : list pevent * fate) : Prop :=
  (exists status, snd r = Exited status /\ status <> 0%Z)
  /\ (exists l, In (PStderr l) (fst r))
  /\ (forall ev, In ev (fst r) -> exists l, ev = PStderr l).

(** The system that refuses no call. *)
Definition willing : system := mkSystem None None None None None.

(** Kinds of calls, to tell what a trace holds. *)
Definition is_socket (e : event) : bool :=
  match e with EvSocket _ => true | _ => false end.

Definition is_client_send (e : event) : bool :=
  match e with EvSendall Client _ _ => true | _ => false end.

Definition is_start (e : event) : bool :=
  match e with EvStart _ => true | _ => false end.

Definition is_stderr (e : event) : bool :=
  match e with EvStderr _ => true | _ => false end.

Definition on_client_input (e : event) : bool :=
  match e with
  | EvRecv Client _ _ | EvClose Client => true
  | _ => false
  end.

(** The bytes that the reads of the client socket returned. *)
Fixpoint received (evs : list event) : bytes :=
  match evs with
  | EvRecv Client _ (RxData d) :: evs' => d ++ received evs'
  | _ :: evs' => received evs'
  | [] => []
  end.

Definition is_opened (e : event) : bool :=
  match e with EvSocket None => true | _ => false end.

Definition is_close (e : event) : bool :=
  match e with EvClose _ => true | _ => false end.

(** If [upstream] is unbound in [w'] then it was unbound in [w] and no
    upstream socket was opened in between. *)
Definition never_opened (w w' : world) : Prop :=
  upstream_var w' = Unbound ->
  upstream_var w = Unbound
  /\ exists evs, trace w' = trace w ++ evs
                 /\ forallb (fun e => negb (is_opened e)) evs = true.

(** One round of the pump: a read that returned [d], then [d] written in
    full. *)
Definition round (src dst : sock) (d : bytes) : list event :=
  [EvRecv src 65536 (RxData d); EvSendall dst d TxOk].

(** How the loop of the pump ends, given what is left of the script of
    [src] and the answer [t] of the system to the next write on [dst].
    With nothing left to arrive, a read of the client socket blocks for
    ever and a read of the upstream socket times out; an empty read ends
    the loop; an exception of the read or of the write leaves it; a write
    that makes no progress blocks for ever on the client socket and times
    out on the upstream socket. *)
Definition pump_end (src dst : sock) (rest : list rx) (t : tx)
  (o : outcome unit) (ending : list event) : Prop :=
  match rest with
  | [] =>
      match src with
      | Client => o = Hang /\ ending = []
      | Upstream =>
          o = Raised TimeoutError
          /\ ending = [EvRecv src 65536 (RxErr TimeoutError)]
      end
  | RxErr e :: _ => o = Raised e /\ ending = [EvRecv src 65536 (RxErr e)]
  | RxData [] :: _ => o = Normal tt /\ ending = [EvRecv src 65536 (RxData [])]
  | RxData d :: _ =>
      ending = [EvRecv src 65536 (RxData d); EvSendall dst d t]
      /\ match t with
         | TxOk => False
         | TxErr e => o = Raised e
         | TxStall =>
             match dst with
             | Client => o = Hang
             | Upstream => o = Raised TimeoutError
             end
         end
  end.

(** How [relay] ends: when the loop has stopped, by an empty read or by an
    exception, the destination is shut down for writing, with the answer
    [sr] of the system, and [relay] returns; when the loop is blocked for
    ever, so is [relay]. *)
Definition relay_end (src dst : sock) (rest : list rx) (t : tx)
  (sr : option exn) (o : outcome unit) (ending : list event) : Prop :=
  exists o1 stop,
    pump_end src dst rest t o1 stop
    /\ match o1 with
       | Hang => o = Hang /\ ending = stop
       | _ => o = Normal tt /\ ending = stop ++ [EvShutdownWr dst sr]
       end.

(** Any call but [socket()]. *)
Definition quiet (e : event) : bool := negb (is_socket e).

(** A call that is neither a write to the client socket, nor the start of a
    thread, nor a write to the error stream. *)
Definition before_decision (e : event) : bool :=
  negb (is_client_send e || is_start e || is_stderr e).

Definition no_client_send (e : event) : bool := negb (is_client_send e).

(** From [w] to [w'] the session has done nothing but read the client
    socket, and it is blocked for ever in the next read: the client has
    sent [chunks], none of them empty, which hold no end of header, and
    nothing more arrives, not even the end of the stream. *)
Definition starved (w w' : world) : Prop :=
  exists chunks,
    client_rx w = map RxData chunks
    /\ Forall (fun c => c <> []) chunks
    /\ contains CRLF2 (concat chunks) = false
    /\ trace w' = trace w ++ map (fun c => EvRecv Client 4096 (RxData c)) chunks.

(** From [w] to [w'] the last call of the session is a write to the client
    socket that makes no progress, as the system answers to the first
    write to that socket, and the session is blocked for ever in it. *)
Definition stalled (w w' : world) : Prop :=
  hd TxOk (client_tx w) = TxStall
  /\ exists pre resp,
       trace w' = trace w ++ pre ++ [EvSendall Client resp TxStall]
       /\ forallb no_client_send pre = true.

(** The status line has the form [version SP 200 SP reason]. *)
Definition status_200 (line : str) : Prop :=
  exists version reason,
    ~ In 32 version /\ line = version ++ lit " 200 " ++ reason.

(** The status code of a status line: its second word. *)
Definition status_code (line : str) : option str :=
  match split_n 2 (lit " ") line with
  | _ :: code :: _ => Some code
  | _ => None
  end.

(** The status line carries a code in the range 200-299. *)
Definition carries_2xx (line : str) : bool :=
  match status_code line with
  | Some [c1; c2; c3] => (c1 =? 50) && is_digit c2 && is_digit c3
  | _ => false
  end.

Definition response_407_200 : bytes :=
  lit "HTTP/1.1 407 Expected 200 OK" ++ CRLF2.

(** [w] after the calls [evs] have been recorded. *)
Definition emit_all (evs : list event) (w : world) : world :=
  mkWorld (client_rx w) (upstream_rx w) (client_tx w) (upstream_tx w)
    (socket_result w) (connect_result w) (shutdown_result w)
    (join_result w) (client_closed w) (upstream_var w) (trace w ++ evs).

(** A relation on worlds holds across a computation. *)
Definition along (R : world -> world -> Prop) {A} (m : M A) : Prop :=
  forall w, R w (snd (m w)).

(** The calls made from [w] to [w'] all satisfy [P]. *)
Definition emits (P : event -> bool) (w w' : world) : Prop :=
  exists evs, trace w' = trace w ++ evs /\ forallb P evs = true.

(** [I] is kept from [w] to [w']. *)
Definition keeps (I : world -> Prop) (w w' : world) : Prop := I w -> I w'.

(** The answers of the environment that no call consumes, and the sockets
    to which they belong, are the same in [w'] as in [w]. *)
Definition same_answers (w w' : world) : Prop :=
  socket_result w' = socket_result w
  /\ connect_result w' = connect_result w
  /\ shutdown_result w' = shutdown_result w
  /\ join_result w' = join_result w.

(** Worlds on which the properties are tried. *)

(** A new session in which every call succeeds and every thread finishes
    in time; [crx] and [urx] are what the client and the upstream send. *)
Definition session (crx urx : list rx) : world :=
  mkWorld crx urx [] [] None None (fun _ => None) (fun _ => true) false
    Unbound [].

Definition connect_request : bytes :=
  lit "CONNECT example.com:443 HTTP/1.1" ++ CRLF
    ++ lit "Host: example.com" ++ CRLF2.

Definition response_200 : bytes :=
  lit "HTTP/1.1 200 Connection Established" ++ CRLF2.

Definition response_204 : bytes := lit "HTTP/1.1 204 No Content" ++ CRLF2.

Definition response_407 : bytes :=
  lit "HTTP/1.1 407 Proxy Authentication Required" ++ CRLF2.

(** The upstream socket delivers two chunks and then closes. *)
Definition pump_world : world :=
  mkWorld [] [RxData [1; 2]; RxData [3]; RxData []; RxData [4]] [] [] None
    None (fun _ => None) (fun _ => true) false Opened [].

(** *** Header blocks, line by line and byte by byte *)

(** Lines, each followed by CR LF. *)
Definition unlines (ls : list str) : str := flat_map (fun l => l ++ CRLF) ls.

(** The header that [main] hands to the handler: empty, or made by
    [make_auth_header]. *)
Definition configured (auth_header : str) : Prop :=
  auth_header = []
  \/ exists user password, make_auth_header user password = Ok auth_header.

(** [bs.decode()] raises nothing. *)
Definition valid_utf8 (bs : bytes) : Prop := exists t, decode bs = Ok t.

(** A line of bytes that the rewriter takes for a Proxy-Authorization
    line. *)
Definition is_auth_line (l : bytes) : bool :=
  is_proxy_authorization (decode_replace l).

(** The request line and the header lines that are not Proxy-Authorization
    lines, as bytes. *)
Definition retained (head : bytes) : list bytes :=
  match split CRLF head with
  | l0 :: ls => l0 :: filter (fun l => negb (is_auth_line l)) ls
  | [] => []
  end.

(** The retained lines as they are, with the configured header after the
    request line and the closing blank line. *)
Definition original_bytes (auth_bytes head : bytes) : bytes :=
  match retained head with
  | l0 :: ls => l0 ++ CRLF ++ auth_bytes ++ unlines ls ++ CRLF
  | [] => []
  end.

(** A line decoded with replacement and encoded again. *)
Definition reencoded (l : bytes) : bytes :=
  match encode (decode_replace l) with
  | Ok o => o
  | Raise _ => []
  end.

(** The header of [user:pass]. *)
Definition basic_user_pass : str :=
  lit "Proxy-Authorization: Basic dXNlcjpwYXNz" ++ CRLF.

(** A header block with two Proxy-Authorization lines. *)
Definition two_auth_headers : str :=
  lit "GET http://example.com/ HTTP/1.1" ++ CRLF
    ++ lit "Host: example.com" ++ CRLF
    ++ lit "proxy-authorization: Basic b2xkOm9sZA==" ++ CRLF
    ++ lit "Accept: */*" ++ CRLF
    ++ lit "PROXY-AUTHORIZATION: Bearer abc".

(** A header block whose only bytes that are not UTF-8 sit in a
    Proxy-Authorization line. *)
Definition invalid_auth_line : bytes :=
  lit "GET / HTTP/1.1" ++ CRLF ++ lit "Proxy-Authorization: Basic " ++ [255].

(** A header block with a Latin-1 byte in a line that is kept. *)
Definition latin1_header : bytes :=
  lit "GET / HTTP/1.1" ++ CRLF ++ lit "X-Name: caf" ++ [233].

(** *** Configuration variables, blocks of lines and base 64 *)

(** The four variables that may hold the upstream URL, in the order in
    which the module looks at them. *)
Definition proxy_variables : list string :=
  ["HTTPS_PROXY"; "HTTP_PROXY"; "https_proxy"; "http_proxy"]%string.

(** The lines [l0 :: ls] with CR LF between them. *)
Definition join_lines (l0 : bytes) (ls : list bytes) : bytes :=
  l0 ++ flat_map (fun l => CRLF ++ l) ls.

(** The place of [c] in [l], counted from 0. *)
Fixpoint index_of (c : N) (l : list N) : N :=
  match l with
  | [] => 0
  | x :: l' => if x =? c then 0 else 1 + index_of c l'
  end.

(** The value of a character of the base 64 alphabet. *)
Definition b64_index (c : N) : N := index_of c b64_alphabet.

(** The reading of base 64 text (RFC 4648): four characters give three
    bytes, and [=] at the end of the last four stands for a missing byte. *)
Fixpoint b64decode (s : bytes) : bytes :=
  match s with
  | a :: b :: c :: d :: rest =>
      let byte1 := b64_index a * 4 + b64_index b / 16 in
      if c =? 61 then [byte1]
      else
        let byte2 := (b64_index b mod 16) * 16 + b64_index c / 4 in
        if d =? 61 then [byte1; byte2]
        else byte1 :: byte2 :: ((b64_index c mod 4) * 64 + b64_index d)
               :: b64decode rest
  | _ => []
  end.

End Spec.

(** ** Properties *)

Import Py Relay Spec.
Local Open Scope N_scope.

(** *** Sequences *)

Section Sequences.

Lemma startswith_app (p r : list N) : startswith (p ++ r) p = true.
Proof.
  induction p as [|x p IH]; simpl; [reflexivity|].
  now rewrite N.eqb_refl, IH.
Qed.

Lemma startswith_inv (p s : list N) :
  startswith s p = true -> exists r, s = p ++ r.
Proof.
  revert s; induction p as [|x p IH]; intros s H; simpl in *.
  - now exists s.
  - destruct s as [|y s]; [discriminate|].
    apply andb_true_iff in H as [Hxy Hp].
    apply N.eqb_eq in Hxy; subst y.
    destruct (IH _ Hp) as [r ->]. now exists r.
Qed.

Lemma startswith_app_l (p s t : list N) :
  startswith s p = true -> startswith (s ++ t) p = true.
Proof.
  intros H. destruct (startswith_inv _ _ H) as [r ->].
  rewrite <- app_assoc. apply startswith_app.
Qed.

Lemma skipn_length_app (p r : list N) : skipn (length p) (p ++ r) = r.
Proof. induction p; simpl; auto. Qed.

Lemma cut_here (sep r : list N) : cut sep (sep ++ r) = Some ([], r).
Proof.
  destruct sep as [|x sep].
  - destruct r; reflexivity.
  - cbn [cut app]. change (x :: sep ++ r) with ((x :: sep) ++ r).
    rewrite startswith_app. now rewrite skipn_length_app.
Qed.

Lemma cut_step (sep : list N) c s :
  startswith (c :: s) sep = false ->
  cut sep (c :: s) =
    match cut sep s with Some (a, b) => Some (c :: a, b) | None => None end.
Proof. intros H. cbn [cut]. now rewrite H. Qed.

Lemma cut_nil (sep : list N) : sep <> [] -> cut sep [] = None.
Proof. destruct sep; [congruence|reflexivity]. Qed.

Lemma cut_Some (sep s a b : list N) :
  cut sep s = Some (a, b) -> s = a ++ sep ++ b.
Proof.
  revert a b; induction s as [|c s IH]; intros a b H.
  - cbn [cut] in H. destruct (startswith [] sep) eqn:E; [|discriminate].
    destruct sep; [|discriminate]. now inversion H.
  - cbn [cut] in H. destruct (startswith (c :: s) sep) eqn:E.
    + inversion H; subst. destruct (startswith_inv _ _ E) as [r Hr].
      rewrite Hr. now rewrite skipn_length_app.
    + destruct (cut sep s) as [[a' b']|] eqn:E'; [|discriminate].
      inversion H; subst. simpl. f_equal. now apply IH.
Qed.

(** The text before the first occurrence holds no occurrence. *)
Lemma cut_before (sep s a b : list N) :
  sep <> [] -> cut sep s = Some (a, b) -> cut sep a = None.
Proof.
  intros Hsep. revert a b; induction s as [|c s IH]; intros a b H.
  - rewrite cut_nil in H by assumption. discriminate.
  - cbn [cut] in H. destruct (startswith (c :: s) sep) eqn:E.
    + inversion H; subst. now apply cut_nil.
    + destruct (cut sep s) as [[a' b']|] eqn:E'; [|discriminate].
      injection H as <- <-. pose proof (cut_Some _ _ _ _ E') as Hs.
      cbn [cut]. destruct (startswith (c :: a') sep) eqn:E2.
      * exfalso. apply (startswith_app_l _ _ (sep ++ b')) in E2.
        simpl in E2. rewrite <- Hs in E2. congruence.
      * now rewrite (IH _ _ eq_refl).
Qed.

Lemma cut_length (sep s a b : list N) :
  cut sep s = Some (a, b) ->
  length s = (length a + length sep + length b)%nat.
Proof.
  intros H. apply cut_Some in H. subst.
  rewrite !length_app. lia.
Qed.

Lemma split_n_enough (sep : list N) :
  sep <> [] ->
  forall n m s, (length s <= n)%nat -> (length s <= m)%nat ->
    split_n n sep s = split_n m sep s.
Proof.
  intros Hsep. induction n as [|n IH]; intros m s Hn Hm.
  - destruct s; [|simpl in Hn; lia].
    destruct m; cbn [split_n]; [reflexivity|]. now rewrite cut_nil.
  - destruct m as [|m].
    + destruct s; [|simpl in Hm; lia]. cbn [split_n]. now rewrite cut_nil.
    + cbn [split_n]. destruct (cut sep s) as [[a b]|] eqn:E; [|reflexivity].
      apply cut_length in E. f_equal. apply IH.
      * destruct sep; [congruence|]. simpl in E. lia.
      * destruct sep; [congruence|]. simpl in E. lia.
Qed.

Lemma split_cut_Some (sep s a b : list N) :
  sep <> [] -> cut sep s = Some (a, b) ->
  split sep s = a :: split sep b.
Proof.
  intros Hsep E. unfold split.
  pose proof (cut_length _ _ _ _ E) as HL.
  destruct (length s) as [|n] eqn:En.
  - destruct sep; [congruence|]. simpl in HL. lia.
  - cbn [split_n]. rewrite E. f_equal. apply split_n_enough; trivial.
    destruct sep; [congruence|]. simpl in HL. lia.
Qed.

Lemma split_cut_None (sep s : list N) :
  cut sep s = None -> split sep s = [s].
Proof.
  intros E. unfold split. destruct (length s); cbn [split_n]; [reflexivity|].
  now rewrite E.
Qed.

Lemma replace_n_enough (sep new : list N) :
  sep <> [] ->
  forall n m s, (length s <= n)%nat -> (length s <= m)%nat ->
    replace_n n sep new s = replace_n m sep new s.
Proof.
  intros Hsep. induction n as [|n IH]; intros m s Hn Hm.
  - destruct s; [|simpl in Hn; lia].
    destruct m; cbn [replace_n]; [reflexivity|]. now rewrite cut_nil.
  - destruct m as [|m].
    + destruct s; [|simpl in Hm; lia]. cbn [replace_n]. now rewrite cut_nil.
    + cbn [replace_n]. destruct (cut sep s) as [[a b]|] eqn:E; [|reflexivity].
      apply cut_length in E. do 2 f_equal. apply IH.
      * destruct sep; [congruence|]. simpl in E. lia.
      * destruct sep; [congruence|]. simpl in E. lia.
Qed.

Lemma replace_cut_Some (sep new s a b : list N) :
  sep <> [] -> cut sep s = Some (a, b) ->
  replace sep new s = a ++ new ++ replace sep new b.
Proof.
  intros Hsep E. unfold replace.
  pose proof (cut_length _ _ _ _ E) as HL.
  destruct (length s) as [|n] eqn:En.
  - destruct sep; [congruence|]. simpl in HL. lia.
  - cbn [replace_n]. rewrite E. do 2 f_equal. apply replace_n_enough; trivial.
    destruct sep; [congruence|]. simpl in HL. lia.
Qed.

Lemma replace_cut_None (sep new s : list N) :
  cut sep s = None -> replace sep new s = s.
Proof.
  intros E. unfold replace. destruct (length s); cbn [replace_n]; [reflexivity|].
  now rewrite E.
Qed.

Lemma contains_false_cut (sep s : list N) :
  contains sep s = false <-> cut sep s = None.
Proof.
  unfold contains. destruct (cut sep s); split; congruence.
Qed.

End Sequences.

(** *** Separators of one character *)

Section OneCharacter.

Variable c : N.

Lemma cut1_cons x s :
  cut [c] (x :: s) =
    if x =? c then Some ([], s)
    else match cut [c] s with Some (a, b) => Some (x :: a, b) | None => None end.
Proof.
  cbn [cut startswith]. rewrite andb_true_r.
  destruct (x =? c); reflexivity.
Qed.

Lemma cut1_None s : ~ In c s -> cut [c] s = None.
Proof.
  induction s as [|x s IH]; intros H; [reflexivity|].
  rewrite cut1_cons. destruct (N.eqb_spec x c) as [->|Hne].
  - exfalso. apply H. now left.
  - rewrite IH; [reflexivity|]. intros Hin. apply H. now right.
Qed.

Lemma cut1_None_inv s : cut [c] s = None -> ~ In c s.
Proof.
  induction s as [|x s IH]; intros H; [intros []|].
  rewrite cut1_cons in H. destruct (N.eqb_spec x c) as [->|Hne].
  - discriminate.
  - destruct (cut [c] s) as [[a b]|]; [discriminate|].
    intros [Hx|Hin]; [congruence|]. now apply IH.
Qed.

Lemma cut1_app a b : ~ In c a -> cut [c] (a ++ c :: b) = Some (a, b).
Proof.
  induction a as [|x a IH]; intros H.
  - simpl app. rewrite cut1_cons. now rewrite N.eqb_refl.
  - simpl app. rewrite cut1_cons. destruct (N.eqb_spec x c) as [->|Hne].
    + exfalso. apply H. now left.
    + rewrite IH; [reflexivity|]. intros Hin. apply H. now right.
Qed.

Lemma cut1_Some s a b :
  cut [c] s = Some (a, b) -> s = a ++ c :: b /\ ~ In c a.
Proof.
  intros H. split.
  - now apply cut_Some in H.
  - apply cut1_None_inv. eapply cut_before; [|exact H]. discriminate.
Qed.

Lemma contains1_In s : contains [c] s = true <-> In c s.
Proof.
  unfold contains. split.
  - destruct (cut [c] s) as [[a b]|] eqn:E; [|discriminate].
    intros _. apply cut1_Some in E as [-> _]. apply in_or_app. right. now left.
  - intros H. destruct (cut [c] s) eqn:E; [reflexivity|].
    now apply cut1_None_inv in E.
Qed.

Lemma rcut1_cons x s :
  rcut [c] (x :: s) =
    match rcut [c] s with
    | Some (a, b) => Some (x :: a, b)
    | None => if x =? c then Some ([], s) else None
    end.
Proof.
  cbn [rcut startswith]. rewrite andb_true_r. reflexivity.
Qed.

Lemma rcut1_None s : ~ In c s -> rcut [c] s = None.
Proof.
  induction s as [|x s IH]; intros H; [reflexivity|].
  rewrite rcut1_cons, IH.
  - destruct (N.eqb_spec x c) as [->|Hne]; [|reflexivity].
    exfalso. apply H. now left.
  - intros Hin. apply H. now right.
Qed.

Lemma rcut1_app a b : ~ In c b -> rcut [c] (a ++ c :: b) = Some (a, b).
Proof.
  intros H. induction a as [|x a IH].
  - simpl app. rewrite rcut1_cons, (rcut1_None _ H). now rewrite N.eqb_refl.
  - simpl app. rewrite rcut1_cons, IH. reflexivity.
Qed.

Lemma rcut1_Some s a b :
  rcut [c] s = Some (a, b) -> s = a ++ c :: b /\ ~ In c b.
Proof.
  revert a b. induction s as [|x s IH]; intros a b H; [discriminate|].
  rewrite rcut1_cons in H. destruct (rcut [c] s) as [[a' b']|] eqn:E.
  - injection H as <- <-. destruct (IH _ _ eq_refl) as [-> Hb]. now split.
  - destruct (N.eqb_spec x c) as [->|Hne]; [|discriminate].
    injection H as <- <-. split; [reflexivity|].
    destruct (in_dec N.eq_dec c s) as [Hin|Hnin]; [|assumption].
    exfalso. clear IH. induction s as [|y s IHs]; [destruct Hin|].
    rewrite rcut1_cons in E. destruct (rcut [c] s) as [[a' b']|] eqn:E'.
    + discriminate.
    + destruct (N.eqb_spec y c) as [->|Hy]; [discriminate|].
      destruct Hin as [Hin|Hin]; [congruence|]. now apply IHs.
Qed.

Lemma rcut1_None_inv s : rcut [c] s = None -> ~ In c s.
Proof.
  induction s as [|x s IH]; intros H; [intros []|].
  rewrite rcut1_cons in H. destruct (rcut [c] s) as [[a b]|]; [discriminate|].
  destruct (N.eqb_spec x c) as [->|Hne]; [discriminate|].
  intros [Hx|Hin]; [congruence|]. now apply IH.
Qed.

(** A text splits into one part more than it has separators. *)
Lemma split1_length s :
  length (split [c] s) = S (count_occ N.eq_dec s c).
Proof.
  remember (length s) as n eqn:Hn.
  assert (Hle : (length s <= n)%nat) by lia. clear Hn.
  revert s Hle. induction n as [|n IH]; intros s Hle.
  - destruct s; [reflexivity|simpl in Hle; lia].
  - destruct (cut [c] s) as [[a b]|] eqn:E.
    + rewrite (split_cut_Some [c] _ _ _ ltac:(discriminate) E).
      pose proof (cut_length _ _ _ _ E) as HL. simpl in HL.
      apply cut1_Some in E as [-> Ha].
      rewrite count_occ_app. cbn [count_occ length].
      destruct (N.eq_dec c c) as [_|Hcc]; [|congruence].
      rewrite (proj1 (count_occ_not_In N.eq_dec a c) Ha).
      rewrite IH by lia. reflexivity.
    + rewrite (split_cut_None _ _ E). apply cut1_None_inv in E.
      now rewrite (proj1 (count_occ_not_In N.eq_dec s c) E).
Qed.

(** Exactly two parts: the separator occurs once, so the first and the
    last occurrence are the same. *)
Lemma split1_two s a b :
  split [c] s = [a; b] -> s = a ++ c :: b /\ ~ In c a /\ ~ In c b.
Proof.
  intros H. destruct (cut [c] s) as [[a' b']|] eqn:E.
  - rewrite (split_cut_Some [c] _ _ _ ltac:(discriminate) E) in H.
    injection H as -> Hb. apply cut1_Some in E as [-> Ha].
    destruct (cut [c] b') as [[a2 b2]|] eqn:E2.
    + rewrite (split_cut_Some [c] _ _ _ ltac:(discriminate) E2) in Hb.
      injection Hb as _ Hb. unfold split in Hb.
      destruct (length b2); cbn [split_n] in Hb;
        [discriminate|destruct (cut [c] b2) as [[? ?]|]; discriminate].
    + rewrite (split_cut_None _ _ E2) in Hb. injection Hb as ->.
      apply cut1_None_inv in E2. auto.
  - rewrite (split_cut_None _ _ E) in H. discriminate.
Qed.

Lemma split1_app a b :
  ~ In c a -> ~ In c b -> split [c] (a ++ c :: b) = [a; b].
Proof.
  intros Ha Hb.
  rewrite (split_cut_Some [c] _ a b ltac:(discriminate) (cut1_app _ _ Ha)).
  now rewrite (split_cut_None _ _ (cut1_None _ Hb)).
Qed.

End OneCharacter.

(** *** The configuration resolver *)

Section ConfigResolver.

Lemma contains1_rcut c s :
  contains [c] s = match rcut [c] s with Some _ => true | None => false end.
Proof.
  destruct (rcut [c] s) as [[a b]|] eqn:E.
  - apply contains1_In. apply rcut1_Some in E as [-> _].
    apply in_or_app. right. now left.
  - apply rcut1_None_inv in E. destruct (contains [c] s) eqn:Ec; [|reflexivity].
    now apply contains1_In in Ec.
Qed.

(** [parse_proxy_url] in terms of the two parts of the URL. *)
Lemma parse_proxy_url_parts url :
  parse_proxy_url url =
    match url_parts url with
    | (Some creds, hostport) =>
        '(user, password) <-- unpack2 (split_n 1 (lit ":") creds) ;
        '(host, port) <-- unpack2 (split (lit ":") hostport) ;
        port <-- int port ;
        Ok (host, port, Some user, Some password)
    | (None, hostport) =>
        '(host, port) <-- unpack2 (split (lit ":") hostport) ;
        port <-- int port ;
        Ok (host, port, None, None)
    end.
Proof.
  unfold parse_proxy_url, url_parts, rsplit1.
  change (lit "@") with [64]. rewrite contains1_rcut.
  destruct (rcut [64] _) as [[creds hostport]|]; [|reflexivity].
  cbn [unpack2 res_bind].
  destruct (unpack2 (split_n 1 (lit ":") creds)) as [[u p]|e]; reflexivity.
Qed.

Lemma digit_range c : is_digit c = true -> 48 <= c <= 57.
Proof. unfold is_digit. rewrite andb_true_iff, !N.leb_le. tauto. Qed.

Lemma scan_digits_all acc s :
  Forall (fun c => is_digit c = true) s ->
  scan_digits acc false s =
    Some (fold_left (fun a c => (a * 10 + Z.of_N (c - 48))%Z) s acc, []).
Proof.
  intros H. revert acc. induction H as [|c s Hc _ IH]; intros acc.
  - reflexivity.
  - cbn [scan_digits fold_left]. rewrite Hc. apply IH.
Qed.

Lemma map_to_ascii_digits s :
  Forall (fun c => is_digit c = true) s -> map to_ascii_cp s = s.
Proof.
  induction 1 as [|c s Hc _ IH]; [reflexivity|].
  cbn [map]. rewrite IH. f_equal. unfold to_ascii_cp.
  apply digit_range in Hc. destruct (N.leb_spec c 127); [reflexivity|lia].
Qed.

Lemma count_digits_all s :
  Forall (fun c => is_digit c = true) s ->
  count_digits s = N.of_nat (length s).
Proof.
  induction 1 as [|c s Hc _ IH]; [reflexivity|].
  cbn [count_digits length]. rewrite Hc, IH. lia.
Qed.

(** [int] on a numeric text gives the number it denotes. *)
Lemma int_numeric port : numeric port -> int port = Ok (decimal_value port).
Proof.
  intros (Hne & Hd & Hlen). unfold int. rewrite (map_to_ascii_digits _ Hd).
  destruct port as [|c s]; [congruence|].
  pose proof (Forall_inv Hd) as Hc. pose proof (digit_range _ Hc) as Hr.
  cbn [lstrip]. replace (is_space c) with false.
  2:{ unfold is_space. symmetry. apply orb_false_iff. split.
      - apply andb_false_iff. right. apply N.leb_gt. lia.
      - apply N.eqb_neq. lia. }
  destruct (N.eqb_spec c 43); [lia|]. destruct (N.eqb_spec c 45); [lia|].
  unfold parse_unsigned. rewrite Hc, (scan_digits_all _ _ Hd).
  rewrite (count_digits_all _ Hd).
  destruct (N.ltb_spec INT_MAX_STR_DIGITS (N.of_nat (length (c :: s))));
    [lia|].
  reflexivity.
Qed.

(** [int] refuses a text of more digits than the limit. *)
Lemma int_too_long port :
  Forall (fun c => is_digit c = true) port ->
  INT_MAX_STR_DIGITS < N.of_nat (length port) ->
  int port = Raise ValueError.
Proof.
  intros Hd Hlen. unfold int. rewrite (map_to_ascii_digits _ Hd).
  destruct port as [|c s]; [unfold INT_MAX_STR_DIGITS in Hlen; cbn in Hlen; lia|].
  pose proof (Forall_inv Hd) as Hc. pose proof (digit_range _ Hc) as Hr.
  cbn [lstrip]. replace (is_space c) with false.
  2:{ unfold is_space. symmetry. apply orb_false_iff. split.
      - apply andb_false_iff. right. apply N.leb_gt. lia.
      - apply N.eqb_neq. lia. }
  destruct (N.eqb_spec c 43); [lia|]. destruct (N.eqb_spec c 45); [lia|].
  unfold parse_unsigned. rewrite Hc, (scan_digits_all _ _ Hd).
  rewrite (count_digits_all _ Hd).
  destruct (N.ltb_spec INT_MAX_STR_DIGITS (N.of_nat (length (c :: s))));
    [reflexivity|lia].
Qed.

Lemma digits_no c port :
  Forall (fun d => is_digit d = true) port -> (c < 48 \/ 57 < c) ->
  ~ In c port.
Proof.
  intros Hd Hc Hin. rewrite Forall_forall in Hd.
  apply Hd, digit_range in Hin. lia.
Qed.

Lemma unpack2_two {A} (xs : list A) a b :
  unpack2 xs = Ok (a, b) -> xs = [a; b].
Proof.
  destruct xs as [|x [|y [|z xs]]]; simpl; intros H; try discriminate.
  now injection H as -> ->.
Qed.

Lemma unpack2_length {A} (xs : list A) :
  length xs <> 2%nat -> unpack2 xs = Raise ValueError.
Proof.
  destruct xs as [|x [|y [|z xs]]]; simpl; intros H; try reflexivity.
  congruence.
Qed.

Lemma int_raises s : (forall v, int s <> Ok v) -> int s = Raise ValueError.
Proof.
  intros H. destruct (int s) as [v|e] eqn:E; [now destruct (H v)|].
  revert E. unfold int, parse_unsigned.
  repeat match goal with
         | |- context [match ?x with _ => _ end] => destruct x; simpl
         end; congruence.
Qed.

(** Every way in which the parser fails is a [ValueError]. *)
Lemma parse_proxy_url_error url e :
  parse_proxy_url url = Raise e -> e = ValueError.
Proof.
  rewrite parse_proxy_url_parts.
  assert (Hu : forall A (xs : list A) e', unpack2 xs = Raise e' -> e' = ValueError).
  { intros A [|x [|y [|z xs]]] e'; simpl; congruence. }
  assert (Hi : forall s e', int s = Raise e' -> e' = ValueError).
  { intros s e' E. destruct (int s) as [v|e0] eqn:E0; [discriminate|].
    injection E as <-.
    assert (Hv : forall v, int s <> Ok v) by (intros v; congruence).
    apply int_raises in Hv. congruence. }
  destruct (url_parts url) as [[creds|] hostport]; cbn [res_bind].
  - destruct (unpack2 (split_n 1 (lit ":") creds)) as [[u p]|e1] eqn:E1;
      cbn [res_bind]; [|intros H; injection H as <-; eauto].
    destruct (unpack2 (split (lit ":") hostport)) as [[h q]|e2] eqn:E2;
      cbn [res_bind]; [|intros H; injection H as <-; eauto].
    destruct (int q) as [v|e3] eqn:E3; cbn [res_bind];
      [discriminate|intros H; injection H as <-; eauto].
  - destruct (unpack2 (split (lit ":") hostport)) as [[h q]|e2] eqn:E2;
      cbn [res_bind]; [|intros H; injection H as <-; eauto].
    destruct (int q) as [v|e3] eqn:E3; cbn [res_bind];
      [discriminate|intros H; injection H as <-; eauto].
Qed.

(** Without a parseable port in the host-port part the parser raises. *)
Lemma parse_proxy_url_no_port url :
  no_parseable_port (snd (url_parts url)) ->
  parse_proxy_url url = Raise ValueError.
Proof.
  intros Hnp.
  destruct (parse_proxy_url url) as [r|e] eqn:E;
    [|now rewrite (parse_proxy_url_error _ _ E)].
  exfalso. rewrite parse_proxy_url_parts in E.
  assert (Hhp : forall hostport, no_parseable_port hostport ->
            forall h q v, unpack2 (split (lit ":") hostport) = Ok (h, q) ->
                          int q = Ok v -> False).
  { intros hostport Hn h q v Hs Hq. apply unpack2_two in Hs.
    change (lit ":") with [58] in Hs. apply split1_two in Hs as (-> & _ & Hb).
    unfold no_parseable_port in Hn. change (lit ":") with [58] in Hn.
    rewrite (rcut1_app _ _ _ Hb) in Hn. now apply (Hn v). }
  destruct (url_parts url) as [[creds|] hostport]; cbn [snd res_bind] in *.
  - destruct (unpack2 (split_n 1 (lit ":") creds)) as [[u p]|e1];
      cbn [res_bind] in E; [|discriminate].
    destruct (unpack2 (split (lit ":") hostport)) as [[h q]|e2] eqn:E2;
      cbn [res_bind] in E; [|discriminate].
    destruct (int q) as [v|e3] eqn:E3; [|discriminate]. eauto.
  - destruct (unpack2 (split (lit ":") hostport)) as [[h q]|e2] eqn:E2;
      cbn [res_bind] in E; [|discriminate].
    destruct (int q) as [v|e3] eqn:E3; [|discriminate]. eauto.
Qed.

End ConfigResolver.

Section Process.

Lemma no_upstream_configured_falsy env :
  no_upstream_configured env -> truthy (UPSTREAM_PROXY env) = false.
Proof.
  intros (H1 & H2 & H3 & H4). unfold UPSTREAM_PROXY, py_or.
  rewrite H1, H2, H3. exact H4.
Qed.

Lemma run_no_proxy env sys :
  truthy (UPSTREAM_PROXY env) = false -> config_failure (run env sys).
Proof.
  intros Ht. unfold run, config_failure.
  destruct (LISTEN_PORT env) as [port|e0]; cbn [fst snd].
  - unfold main. rewrite Ht. cbn [fst snd]. repeat split.
    + exists 1%Z. split; [reflexivity|discriminate].
    + exists MsgNoProxy. now left.
    + intros ev [<-|[]]. now exists MsgNoProxy.
  - repeat split.
    + exists 1%Z. split; [reflexivity|discriminate].
    + exists (MsgTraceback e0). now left.
    + intros ev [<-|[]]. now exists (MsgTraceback e0).
Qed.

(** A URL that the parser refuses ends the process: the exception is
    reported, the status is 1, and nothing was bound. *)
Lemma run_parse_raises env sys url e :
  UPSTREAM_PROXY env = Some url -> parse_proxy_url url = Raise e ->
  config_failure (run env sys).
Proof.
  intros Hu Hp. destruct (truthy (UPSTREAM_PROXY env)) eqn:Ht;
    [|now apply run_no_proxy].
  unfold run, config_failure.
  destruct (LISTEN_PORT env) as [port|e0]; cbn [fst snd].
  - unfold main. rewrite Ht, Hu, Hp. cbn [fst snd app]. repeat split.
    + exists 1%Z. split; [reflexivity|discriminate].
    + exists (MsgTraceback e). now left.
    + intros ev [<-|[]]. now exists (MsgTraceback e).
  - repeat split.
    + exists 1%Z. split; [reflexivity|discriminate].
    + exists (MsgTraceback e0). now left.
    + intros ev [<-|[]]. now exists (MsgTraceback e0).
Qed.

End Process.

Section ConfigResolverClaims.

(** C2, as the code has it.  For every URL [http://user:pw@host:port] in
    which the user name holds no colon, the host holds neither [@] nor a
    colon, the port is numeric (one to 4300 ASCII digits, the most that
    [int] reads) and the text after the scheme does not itself hold
    [http://], [parse_proxy_url] returns exactly [(host, port, user, pw)]:
    the password is kept in full, colons and [@] included. *)
Theorem parse_proxy_url_http_form (user pw host port : str) :
  ~ In 58 user -> ~ In 64 host -> ~ In 58 host -> numeric port ->
  contains (lit "http://")
    (user ++ lit ":" ++ pw ++ lit "@" ++ host ++ lit ":" ++ port) = false ->
  parse_proxy_url
    (lit "http://" ++ user ++ lit ":" ++ pw ++ lit "@" ++ host ++ lit ":" ++ port)
  = Ok (host, decimal_value port, Some user, Some pw).
Proof.
  intros Hu Hh64 Hh58 Hport Hrest.
  pose proof Hport as (_ & Hd & _).
  assert (Hp64 : ~ In 64 port) by (apply digits_no; [assumption|lia]).
  assert (Hp58 : ~ In 58 port) by (apply digits_no; [assumption|lia]).
  rewrite parse_proxy_url_parts. unfold url_parts.
  rewrite (replace_cut_Some (lit "http://") [] _ [] _ ltac:(discriminate)
             (cut_here _ _)).
  apply contains_false_cut in Hrest.
  rewrite (replace_cut_None _ _ _ Hrest). cbn [app].
  change (lit "@") with [64]. change (lit ":") with [58]. cbn [app].
  replace (user ++ 58 :: pw ++ 64 :: host ++ 58 :: port)
    with ((user ++ 58 :: pw) ++ 64 :: (host ++ 58 :: port))
    by (now rewrite <- app_assoc).
  rewrite rcut1_app.
  2:{ intros Hin. apply in_app_or in Hin as [Hin|[Hin|Hin]];
        [auto|lia|auto]. }
  cbn [split_n]. rewrite (cut1_app _ _ _ Hu). cbn [unpack2 res_bind].
  rewrite (split1_app _ _ _ Hh58 Hp58). cbn [unpack2 res_bind].
  rewrite (int_numeric _ Hport). reflexivity.
Qed.

Lemma parse_proxy_url_http_form_witness :
  parse_proxy_url (lit "http://user:p:w@x@proxy.example:3128")
  = Ok (lit "proxy.example", 3128%Z, Some (lit "user"), Some (lit "p:w@x")).
Proof.
  apply (parse_proxy_url_http_form
           (lit "user") (lit "p:w@x") (lit "proxy.example") (lit "3128")).
  - vm_compute. intuition discriminate.
  - vm_compute. intuition discriminate.
  - vm_compute. intuition discriminate.
  - split; [discriminate|]. split; [repeat constructor|].
    vm_compute. discriminate.
  - vm_compute. reflexivity.
Defined.

(** C2 as stated fails: another scheme is not stripped and ends up in the
    credentials, a host with a colon is refused, and [http://] inside the
    password is removed. *)
Lemma parse_proxy_url_not_every_form :
  parse_proxy_url (lit "https://user:pw@host:8080")
    = Ok (lit "host", 8080%Z, Some (lit "https"), Some (lit "//user:pw"))
  /\ parse_proxy_url (lit "https://user:pw@host:8080")
    <> Ok (lit "host", 8080%Z, Some (lit "user"), Some (lit "pw"))
  /\ parse_proxy_url (lit "http://user:pw@[::1]:8080") = Raise ValueError
  /\ parse_proxy_url (lit "http://user:http://pw@host:8080")
    = Ok (lit "host", 8080%Z, Some (lit "user"), Some (lit "pw")).
Proof.
  repeat split; try (vm_compute; reflexivity).
  vm_compute. discriminate.
Qed.

(** C9.  A URL whose credential part holds no colon, and a URL whose
    host-port part does not hold exactly one colon, make [parse_proxy_url]
    raise [ValueError]; as nothing catches it, the process that was given
    such a URL stops with a report on the error stream and a non-zero
    status, before any socket is bound. *)
Theorem parse_proxy_url_aborts (url : str) :
  (exists creds, fst (url_parts url) = Some creds /\ ~ In 58 creds)
  \/ colons (snd (url_parts url)) <> 1%nat ->
  parse_proxy_url url = Raise ValueError
  /\ forall env sys,
       UPSTREAM_PROXY env = Some url -> config_failure (run env sys).
Proof.
  intros H.
  assert (Hp : parse_proxy_url url = Raise ValueError).
  { rewrite parse_proxy_url_parts.
    destruct (url_parts url) as [[creds|] hostport]; cbn [fst snd] in H.
    - destruct H as [(cr & Hcr & Hno)|Hc].
      + injection Hcr as ->. change (lit ":") with [58]. cbn [split_n].
        now rewrite (cut1_None _ _ Hno).
      + destruct (unpack2 (split_n 1 (lit ":") creds)) as [[u p]|e] eqn:E.
        * cbn [res_bind]. rewrite unpack2_length; [reflexivity|].
          change (lit ":") with [58]. rewrite split1_length.
          unfold colons in Hc. lia.
        * cbn [res_bind]. f_equal.
          destruct (split_n 1 (lit ":") creds) as [|x [|y [|z xs]]];
            simpl in E; congruence.
    - destruct H as [(cr & Hcr & _)|Hc]; [discriminate|].
      rewrite unpack2_length; [reflexivity|].
      change (lit ":") with [58]. rewrite split1_length.
      unfold colons in Hc. lia. }
  split; [exact Hp|]. intros env sys Hu.
  now apply (run_parse_raises env sys url ValueError).
Qed.

Lemma parse_proxy_url_aborts_witness :
  (parse_proxy_url (lit "http://user@host:9999") = Raise ValueError
   /\ forall env sys,
        UPSTREAM_PROXY env = Some (lit "http://user@host:9999") ->
        config_failure (run env sys))
  /\ (parse_proxy_url (lit "http://user:pw@[::1]:8080") = Raise ValueError
      /\ forall env sys,
           UPSTREAM_PROXY env = Some (lit "http://user:pw@[::1]:8080") ->
           config_failure (run env sys)).
Proof.
  split.
  - apply (parse_proxy_url_aborts (lit "http://user@host:9999")).
    left. exists (lit "user"). split; [reflexivity|].
    vm_compute. intuition discriminate.
  - apply (parse_proxy_url_aborts (lit "http://user:pw@[::1]:8080")).
    right. vm_compute. discriminate.
Defined.

(** C8.  With no upstream URL configured, or with a configured URL whose
    host-port part holds no parseable integer port, the process writes to
    the error stream and exits with a non-zero status; it makes no other
    call, so it neither binds nor listens. *)
Theorem run_config_error (env : environ) (sys : system) :
  no_upstream_configured env
  \/ (exists url, UPSTREAM_PROXY env = Some url
                  /\ no_parseable_port (snd (url_parts url))) ->
  config_failure (run env sys).
Proof.
  intros [Hno|(url & Hu & Hp)].
  - apply run_no_proxy. now apply no_upstream_configured_falsy.
  - apply (run_parse_raises env sys url ValueError Hu).
    now apply parse_proxy_url_no_port.
Qed.

Lemma run_config_error_witness :
  config_failure (run (fun _ => None) willing)
  /\ config_failure
       (run (fun k => if String.eqb k "HTTPS_PROXY"
                      then Some (lit "http://user:pw@proxy:http") else None)
            willing).
Proof.
  split.
  - apply (run_config_error (fun _ => None) willing).
    left. repeat split.
  - apply (run_config_error
             (fun k => if String.eqb k "HTTPS_PROXY"
                       then Some (lit "http://user:pw@proxy:http") else None)
             willing).
    right. exists (lit "http://user:pw@proxy:http"). split; [reflexivity|].
    vm_compute. intros v H. discriminate H.
Defined.

End ConfigResolverClaims.

(** *** Reasoning along a computation

    A relation on worlds that is reflexive and transitive and holds across
    every call of a computation holds across the computation. *)

Section Stepwise.

Variable R : world -> world -> Prop.
Hypothesis R_refl : forall w, R w w.
Hypothesis R_trans : forall a b c, R a b -> R b c -> R a c.

Local Abbreviation along := (along R).

Lemma along_ret {A} (a : A) : along (ret a).
Proof. intros w. apply R_refl. Qed.

Lemma along_get : along get.
Proof. intros w. apply R_refl. Qed.

Lemma along_raise {A} e : along (@raise A e).
Proof. intros w. apply R_refl. Qed.

Lemma along_hang {A} : along (@hang A).
Proof. intros w. apply R_refl. Qed.

Lemma along_return {A} : along (@return_ A).
Proof. intros w. apply R_refl. Qed.

Lemma along_lift {A} (r : res A) : along (lift r).
Proof. destruct r; [apply along_ret|apply along_raise]. Qed.

Lemma along_bind {A B} (m : M A) (f : A -> M B) :
  along m -> (forall a, along (f a)) -> along (bind m f).
Proof.
  intros Hm Hf w. unfold bind. specialize (Hm w).
  destruct (m w) as [[a| |e|] w1]; cbn [snd] in *; trivial.
  eapply R_trans; [exact Hm|apply Hf].
Qed.

Lemma along_try_except {A} (m : M A) (h : exn -> M A) :
  along m -> (forall e, along (h e)) -> along (try_except m h).
Proof.
  intros Hm Hh w. unfold try_except. specialize (Hm w).
  destruct (m w) as [[a| |e|] w1]; cbn [snd] in *; trivial.
  eapply R_trans; [exact Hm|apply Hh].
Qed.

Lemma along_try_finally {A} (m : M A) (fin : M unit) :
  along m -> along fin -> along (try_finally m fin).
Proof.
  intros Hm Hf w. unfold try_finally. specialize (Hm w).
  destruct (m w) as [[a| |e|] w1]; cbn [snd] in *; trivial;
    specialize (Hf w1); destruct (fin w1) as [[[]| |e'|] w2];
    cbn [snd] in *; eapply R_trans; eauto.
Qed.

Lemma along_call (m : M unit) : along m -> along (call m).
Proof.
  intros Hm w. unfold call. specialize (Hm w).
  destruct (m w) as [[a| |e|] w1]; cbn [snd] in *; trivial.
Qed.

Lemma along_if {A} (b : bool) (m1 m2 : M A) :
  along m1 -> along m2 -> along (if b then m1 else m2).
Proof. destruct b; trivial. Qed.

Lemma along_pump src dst :
  along (recv src 65536) -> (forall d, along (sendall dst d)) ->
  forall fuel, along (pump fuel src dst).
Proof.
  intros Hr Hs. induction fuel as [|fuel IH]; cbn [pump].
  - apply along_hang.
  - apply along_bind; [exact Hr|intros d]. apply along_if.
    + apply along_ret.
    + apply along_bind; auto.
Qed.

Lemma along_read_request :
  along (recv Client 4096) -> along (close Client) ->
  forall fuel data, along (read_request fuel data).
Proof.
  intros Hr Hc. induction fuel as [|fuel IH]; intros data;
    cbn [read_request]; apply along_if; try apply along_ret.
  - apply along_hang.
  - apply along_bind; [exact Hr|intros d]. apply along_if; [|apply IH].
    apply along_bind; [exact Hc|intros _; apply along_return].
Qed.

Lemma along_read_response :
  along (recv Upstream 4096) ->
  forall fuel resp, along (read_response fuel resp).
Proof.
  intros Hr. induction fuel as [|fuel IH]; intros resp;
    cbn [read_response]; apply along_if; try apply along_ret.
  - apply along_hang.
  - apply along_bind; [exact Hr|intros d]. apply along_if; [|apply IH].
    apply along_ret.
Qed.

Hypothesis R_start : forall t, along (start t).
Hypothesis R_join : forall t n, along (join t n).
Hypothesis R_stderr : forall l, along (stderr_write l).
Hypothesis R_close : forall s, along (close s).
Hypothesis R_recv_upstream : along (recv Upstream 4096).

Lemma along_cleanup : along cleanup.
Proof.
  unfold cleanup. apply along_bind; [|intros _];
    (apply along_try_except; [apply R_close|intros _; apply along_ret]).
Qed.

Lemma along_relay_response : along relay_response.
Proof.
  unfold relay_response. apply along_bind; [apply R_start|intros _].
  apply R_join.
Qed.

(** What follows the forwarding of the upstream response to the client. *)
Lemma along_decision resp :
  along (resp_line <- lift (decode (hd [] (split CRLF resp))) ;;
         if contains (lit " 200 ") resp_line then
           start (Pump Client Upstream) ;;
           start (Pump Upstream Client) ;;
           join (Pump Client Upstream) 300 ;;
           join (Pump Upstream Client) 300
         else stderr_write (MsgConnectFailed resp_line)).
Proof.
  apply along_bind; [apply along_lift|intros resp_line].
  apply along_if; [|apply R_stderr].
  repeat (apply along_bind; [solve [auto]|intros _]). apply R_join.
Qed.

Hypothesis R_send_client : forall d, along (sendall Client d).

Lemma along_negotiate_tunnel : along negotiate_tunnel.
Proof.
  unfold negotiate_tunnel. apply along_bind; [apply along_get|intros w0].
  apply along_bind; [now apply along_read_response|intros resp].
  apply along_bind; [apply R_send_client|intros _]. apply along_decision.
Qed.

Hypothesis R_settimeout : forall s n, along (settimeout s n).
Hypothesis R_connect : forall h p, along (connect h p).
Hypothesis R_send_upstream : forall d, along (sendall Upstream d).

(** What follows the creation of the upstream socket in
    [forward_request]. *)
Lemma along_after_socket upstream_host upstream_port auth_header head rest :
  along (settimeout Upstream 30 ;;
         connect upstream_host upstream_port ;;
         '(request_line, rest_lines) <-
           lift (first_and_rest (split CRLF (decode_replace head))) ;;
         payload <-
           lift (encode (rewrite_headers auth_header request_line rest_lines)) ;;
         sendall Upstream (payload ++ rest) ;;
         ret request_line).
Proof.
  apply along_bind; [apply R_settimeout|intros _].
  apply along_bind; [apply R_connect|intros _].
  apply along_bind; [apply along_lift|intros [request_line rest_lines]].
  apply along_bind; [apply along_lift|intros payload].
  apply along_bind; [apply R_send_upstream|intros _]. apply along_ret.
Qed.

(** What follows [forward_request] in the [try] block, with the handler. *)
Lemma along_branches (o : outcome str * world) :
  R (snd o)
    (snd (match o with
          | (Normal request_line, w) =>
              try_except
                (if is_connect request_line then negotiate_tunnel
                 else relay_response)
                (fun e => stderr_write (MsgError e)) w
          | (Returned, w) => (Returned, w)
          | (Raised e, w) => stderr_write (MsgError e) w
          | (Hang, w) => (Hang, w)
          end)).
Proof.
  destruct o as [[request_line| |e|] w]; cbn [snd]; try apply R_refl.
  - apply along_try_except; [|intros e; apply R_stderr].
    apply along_if; [apply along_negotiate_tunnel|apply along_relay_response].
  - apply R_stderr.
Qed.

Hypothesis R_recv_client : along (recv Client 4096).
Hypothesis R_socket : along socket_new.

Lemma along_forward_request upstream_host upstream_port auth_header :
  along (forward_request upstream_host upstream_port auth_header).
Proof.
  unfold forward_request. apply along_bind; [apply along_get|intros w0].
  apply along_bind; [now apply along_read_request|intros data].
  apply along_bind; [apply along_lift|intros [head rest]].
  apply along_bind; [apply R_socket|intros _]. apply along_after_socket.
Qed.

Lemma along_handle_client upstream_host upstream_port auth_header :
  along (handle_client upstream_host upstream_port auth_header).
Proof.
  unfold handle_client. apply along_call. apply along_try_finally;
    [|apply along_cleanup].
  apply along_try_except; [|intros e; apply R_stderr].
  apply along_bind; [apply along_forward_request|intros request_line].
  apply along_if; [apply along_negotiate_tunnel|apply along_relay_response].
Qed.

End Stepwise.

(** *** What a computation emits *)

Section Emits.

Variable P : event -> bool.

Lemma emits_refl w : emits P w w.
Proof. exists []. now rewrite app_nil_r. Qed.

Lemma emits_trans a b c : emits P a b -> emits P b c -> emits P a c.
Proof.
  intros (e1 & H1 & F1) (e2 & H2 & F2). exists (e1 ++ e2).
  rewrite H2, H1, <- app_assoc, forallb_app, F1, F2. now split.
Qed.

Lemma emits_one e w w' :
  P e = true -> trace w' = trace w ++ [e] -> emits P w w'.
Proof. intros He Ht. exists [e]. cbn [forallb]. now rewrite He. Qed.

Lemma emits_recv s n :
  (forall r, P (EvRecv s n r) = true) -> along (emits P) (recv s n).
Proof.
  intros HP w. unfold recv. destruct (usable s w); [|apply emits_refl].
  destruct (rx_script s w) as [|[d|e] rest]; destruct s; cbn [snd];
    try apply emits_refl; eapply emits_one; try apply HP; reflexivity.
Qed.

Lemma emits_sendall s :
  (forall d r, P (EvSendall s d r) = true) ->
  forall d, along (emits P) (sendall s d).
Proof.
  intros HP d w. unfold sendall. destruct (usable s w); [|apply emits_refl].
  destruct (hd TxOk (tx_script s w)) eqn:E; destruct s; cbn [snd];
    eapply emits_one; try apply HP; cbn [trace emit]; rewrite ?E; reflexivity.
Qed.

Lemma emits_socket :
  (forall r, P (EvSocket r) = true) -> along (emits P) socket_new.
Proof.
  intros HP w. unfold socket_new. destruct (socket_result w); cbn [snd];
    eapply emits_one; try apply HP; reflexivity.
Qed.

Lemma emits_settimeout :
  (forall s n, P (EvSettimeout s n) = true) ->
  forall s n, along (emits P) (settimeout s n).
Proof.
  intros HP s n w. unfold settimeout.
  destruct (usable s w); [|apply emits_refl].
  eapply emits_one; try apply HP; reflexivity.
Qed.

Lemma emits_connect :
  (forall h p r, P (EvConnect h p r) = true) ->
  forall h p, along (emits P) (connect h p).
Proof.
  intros HP h p w. unfold connect.
  destruct (usable Upstream w); [|apply emits_refl].
  destruct (connect_result w) eqn:E; cbn [snd];
    eapply emits_one; try apply HP; cbn [trace emit]; rewrite ?E; reflexivity.
Qed.

Lemma emits_shutdown_wr s :
  (forall r, P (EvShutdownWr s r) = true) -> along (emits P) (shutdown_wr s).
Proof.
  intros HP w. unfold shutdown_wr.
  destruct (usable s w); [|apply emits_refl].
  destruct (shutdown_result w s) eqn:E; cbn [snd];
    eapply emits_one; try apply HP; cbn [trace emit]; rewrite ?E; reflexivity.
Qed.

Lemma emits_close :
  (forall s, P (EvClose s) = true) -> forall s, along (emits P) (close s).
Proof.
  intros HP s w. unfold close. destruct s; [|destruct (upstream_var w)];
    cbn [snd]; try apply emits_refl; eapply emits_one; try apply HP;
    reflexivity.
Qed.

Lemma emits_start :
  (forall t, P (EvStart t) = true) -> forall t, along (emits P) (start t).
Proof. intros HP t w. eapply emits_one; try apply HP; reflexivity. Qed.

Lemma emits_join :
  (forall t n b, P (EvJoin t n b) = true) ->
  forall t n, along (emits P) (join t n).
Proof. intros HP t n w. eapply emits_one; try apply HP; reflexivity. Qed.

Lemma emits_stderr :
  (forall l, P (EvStderr l) = true) ->
  forall l, along (emits P) (stderr_write l).
Proof. intros HP l w. eapply emits_one; try apply HP; reflexivity. Qed.

End Emits.

(** Closes a goal [along (emits P) prim] for a call [prim] whose events
    satisfy [P] by computation. *)
Ltac emits_prim :=
  intros;
  first [ apply emits_recv | apply emits_sendall | apply emits_socket
        | apply emits_settimeout | apply emits_connect
        | apply emits_shutdown_wr | apply emits_close | apply emits_start
        | apply emits_join | apply emits_stderr ];
  intros; reflexivity.

(** Reflexivity and transitivity of [emits P], where a lemma of [Stepwise]
    asks for them. *)
Ltac emits_side :=
  lazymatch goal with
  | |- forall w, emits _ w w => apply emits_refl
  | |- forall a b c, emits _ a b -> emits _ b c -> emits _ a c =>
      apply emits_trans
  | _ => idtac
  end.

(** Applies a lemma of [Stepwise] to the relation [emits P]. *)
Ltac emits_along lemma := apply lemma; emits_side; try emits_prim.


(** *** The byte pump *)

Section Pump.

Lemma usable_emit s e w : usable s (emit e w) = usable s w.
Proof. destruct s; reflexivity. Qed.

Lemma usable_set_rx s s' l w : usable s (set_rx s' l w) = usable s w.
Proof. destruct s, s'; reflexivity. Qed.

Lemma usable_set_tx s s' l w : usable s (set_tx s' l w) = usable s w.
Proof. destruct s, s'; reflexivity. Qed.

Lemma rx_script_set_rx s l w : rx_script s (set_rx s l w) = l.
Proof. destruct s; reflexivity. Qed.

Lemma rx_script_emit s e w : rx_script s (emit e w) = rx_script s w.
Proof. destruct s; reflexivity. Qed.

Lemma rx_script_set_tx s s' l w :
  rx_script s (set_tx s' l w) = rx_script s w.
Proof. destruct s, s'; reflexivity. Qed.

Lemma tx_script_emit s e w : tx_script s (emit e w) = tx_script s w.
Proof. destruct s; reflexivity. Qed.

Lemma tx_script_set_rx s s' l w :
  tx_script s (set_rx s' l w) = tx_script s w.
Proof. destruct s, s'; reflexivity. Qed.

Lemma tx_script_set_tx s l w : tx_script s (set_tx s l w) = l.
Proof. destruct s; reflexivity. Qed.

Lemma nth_tl {A} (l : list A) i d : nth i (tl l) d = nth (S i) l d.
Proof. destruct l; [now destruct i|reflexivity]. Qed.

Lemma hd_nth {A} (l : list A) d : hd d l = nth 0 l d.
Proof. now destruct l. Qed.

Ltac split7 :=
  split; [|split; [|split; [|split; [|split; [|split]]]]].

Lemma pump_run fuel : forall src dst w o w',
  usable src w = Ok tt -> usable dst w = Ok tt ->
  (length (rx_script src w) < fuel)%nat ->
  pump fuel src dst w = (o, w') ->
  exists rounds rest ending,
    rx_script src w = map RxData rounds ++ rest
    /\ Forall (fun d => d <> []) rounds
    /\ (forall i, (i < length rounds)%nat ->
          nth i (tx_script dst w) TxOk = TxOk)
    /\ trace w' = trace w ++ flat_map (round src dst) rounds ++ ending
    /\ usable dst w' = Ok tt
    /\ shutdown_result w' = shutdown_result w
    /\ pump_end src dst rest (nth (length rounds) (tx_script dst w) TxOk)
         o ending.
Proof.
  induction fuel as [|fuel IH]; intros src dst w o w' Hs Hd Hlen E; [lia|].
  cbn [pump] in E. unfold bind at 1 in E. unfold recv in E. rewrite Hs in E.
  destruct (rx_script src w) as [|[d|e] rest] eqn:Erx.
  - (* nothing more arrives *)
    exists [], [].
    destruct src; injection E as <- <-.
    + exists []. split7; auto.
      * cbn [length]. intros i Hi. lia.
      * now rewrite app_nil_r.
      * cbn [pump_end]. now split.
    + exists [EvRecv Upstream 65536 (RxErr TimeoutError)].
      split7; auto.
      * cbn [length]. intros i Hi. lia.
      * cbn [pump_end]. now split.
  - destruct d as [|b d].
    + (* the peer has closed *)
      cbn [is_empty nonempty negb ret] in E. injection E as <- <-.
      exists [], (RxData [] :: rest), [EvRecv src 65536 (RxData [])].
      split7; auto.
      * cbn [length]. intros i Hi. lia.
      * destruct src; reflexivity.
      * now rewrite usable_emit, usable_set_rx.
      * destruct src; reflexivity.
      * cbn [pump_end]. now split.
    + (* data: write it, then go on *)
      cbn [is_empty nonempty negb] in E. unfold bind at 1 in E.
      unfold sendall in E.
      rewrite usable_emit, usable_set_rx, Hd in E.
      set (w1 := emit (EvRecv src 65536 (RxData (b :: d))) (set_rx src rest w)) in *.
      assert (Hw1 : trace w1 = trace w ++ [EvRecv src 65536 (RxData (b :: d))])
        by (subst w1; destruct src; reflexivity).
      assert (Hsd1 : shutdown_result w1 = shutdown_result w)
        by (subst w1; destruct src; reflexivity).
      assert (Htx1 : tx_script dst w1 = tx_script dst w)
        by (subst w1; now rewrite tx_script_emit, tx_script_set_rx).
      rewrite Htx1 in E.
      set (t := hd TxOk (tx_script dst w)) in *.
      set (w2 := emit (EvSendall dst (b :: d) t)
                     (set_tx dst (tl (tx_script dst w)) w1)) in *.
      assert (Hw2 : trace w2 = trace w ++ [EvRecv src 65536 (RxData (b :: d));
                                            EvSendall dst (b :: d) t]).
      { subst w2. destruct dst; cbn [trace emit set_tx]; rewrite Hw1;
          rewrite <- app_assoc; reflexivity. }
      assert (Hsd2 : shutdown_result w2 = shutdown_result w)
        by (subst w2; destruct dst; exact Hsd1).
      assert (Hu2 : forall s, usable s w2 = usable s w).
      { intros s. subst w2 w1.
        now rewrite usable_emit, usable_set_tx, usable_emit, usable_set_rx. }
      assert (Hrx2 : rx_script src w2 = rest).
      { subst w2 w1. now rewrite rx_script_emit, rx_script_set_tx,
          rx_script_emit, rx_script_set_rx. }
      assert (Htx2 : tx_script dst w2 = tl (tx_script dst w)).
      { subst w2. now rewrite tx_script_emit, tx_script_set_tx. }
      assert (Et : t = nth 0 (tx_script dst w) TxOk) by apply hd_nth.
      clearbody w2 t. clear w1 Hw1 Hsd1 Htx1.
      destruct t as [|e|].
      * destruct (IH src dst w2 o w')
          as (rounds & rest' & ending & Hrx & Hr & Hok & Ht & Hu & Hsd & He);
          trivial.
        { now rewrite Hu2. } { now rewrite Hu2. }
        { rewrite Hrx2. simpl in Hlen. lia. }
        exists ((b :: d) :: rounds), rest', ending. split7; auto.
        -- rewrite Hrx2 in Hrx. now rewrite Hrx.
        -- constructor; [discriminate|assumption].
        -- intros [|i] Hi; [now symmetry|].
           rewrite <- nth_tl, <- Htx2. apply Hok. cbn [length] in Hi. lia.
        -- rewrite Ht, Hw2. cbn [flat_map round app]. rewrite <- !app_assoc.
           reflexivity.
        -- now rewrite Hsd.
        -- cbn [length]. rewrite <- nth_tl, <- Htx2. exact He.
      * injection E as <- <-.
        exists [], (RxData (b :: d) :: rest),
          [EvRecv src 65536 (RxData (b :: d)); EvSendall dst (b :: d) (TxErr e)].
        split7; auto.
        -- cbn [length]. intros i Hi. lia.
        -- now rewrite Hu2.
        -- cbn [pump_end length]. rewrite <- Et. now split.
      * exists [], (RxData (b :: d) :: rest),
          [EvRecv src 65536 (RxData (b :: d)); EvSendall dst (b :: d) TxStall].
        destruct dst; injection E as <- <-;
          (split7; auto;
           [cbn [length]; intros i Hi; lia
           |now rewrite Hu2
           |cbn [pump_end length]; rewrite <- Et; now split]).
  - (* the read raises *)
    injection E as <- <-.
    exists [], (RxErr e :: rest), [EvRecv src 65536 (RxErr e)].
    split7; auto.
    + cbn [length]. intros i Hi. lia.
    + destruct src; reflexivity.
    + now rewrite usable_emit, usable_set_rx.
    + destruct src; reflexivity.
    + cbn [pump_end]. now split.
Qed.

Lemma relay_no_close src dst :
  along (emits (fun e => negb (is_close e))) (relay src dst).
Proof.
  unfold relay. emits_along along_try_finally.
  - emits_along along_try_except.
    + emits_along along_bind.
      * emits_along along_get.
      * intros w0. emits_along along_pump.
    + intros _. emits_along along_ret.
  - emits_along along_try_except. intros _. emits_along along_ret.
Qed.

Lemma shutdown_wr_run s w :
  usable s w = Ok tt ->
  exists o, shutdown_wr s w = (o, emit (EvShutdownWr s (shutdown_result w s)) w)
            /\ (o = Normal tt \/ exists e, o = Raised e).
Proof.
  intros Hu. unfold shutdown_wr. rewrite Hu.
  destruct (shutdown_result w s); eauto.
Qed.

Lemma pump_end_outcome src dst rest t o ending :
  pump_end src dst rest t o ending -> o <> Returned.
Proof.
  unfold pump_end. intros H ->.
  destruct rest as [|[[|b d]|e] rest]; [destruct src| | |];
    try (destruct H as [H _]; discriminate H).
  destruct H as [_ H]. destruct t; [exact H|discriminate H|].
  destruct dst; discriminate H.
Qed.

Lemma relay_run src dst w o w' :
  usable src w = Ok tt -> usable dst w = Ok tt ->
  relay src dst w = (o, w') ->
  exists rounds rest ending,
    rx_script src w = map RxData rounds ++ rest
    /\ Forall (fun d => d <> []) rounds
    /\ (forall i, (i < length rounds)%nat ->
          nth i (tx_script dst w) TxOk = TxOk)
    /\ trace w' = trace w ++ flat_map (round src dst) rounds ++ ending
    /\ relay_end src dst rest (nth (length rounds) (tx_script dst w) TxOk)
         (shutdown_result w dst) o ending.
Proof.
  intros Hs Hd E.
  unfold relay, try_finally, try_except in E. unfold bind, get in E.
  destruct (pump (S (length (rx_script src w))) src dst w) as [o1 w1] eqn:Ep.
  destruct (pump_run _ _ _ _ _ _ Hs Hd (Nat.lt_succ_diag_r _) Ep)
    as (rounds & rest & stop & Hrx & Hr & Hok & Ht & Hu & Hsd & He).
  destruct (shutdown_wr_run dst w1 Hu) as (o2 & E2 & Ho2).
  rewrite Hsd in E2.
  assert (Htr : trace (emit (EvShutdownWr dst (shutdown_result w dst)) w1)
                = trace w ++ flat_map (round src dst) rounds
                    ++ stop ++ [EvShutdownWr dst (shutdown_result w dst)]).
  { cbn [trace emit]. rewrite Ht, <- !app_assoc. reflexivity. }
  pose proof (pump_end_outcome _ _ _ _ _ _ He) as Hnr.
  exists rounds, rest.
  destruct o1 as [[]| |e|]; [| congruence | |].
  - rewrite E2 in E.
    exists (stop ++ [EvShutdownWr dst (shutdown_result w dst)]).
    destruct Ho2 as [->|(e2 & ->)]; injection E as <- <-;
      (split; [exact Hrx|split; [exact Hr|split; [exact Hok|
       split; [exact Htr|]]]]);
      exists (Normal tt), stop; (split; [exact He|now split]).
  - cbn [ret] in E. rewrite E2 in E.
    exists (stop ++ [EvShutdownWr dst (shutdown_result w dst)]).
    destruct Ho2 as [->|(e2 & ->)]; injection E as <- <-;
      (split; [exact Hrx|split; [exact Hr|split; [exact Hok|
       split; [exact Htr|]]]]);
      exists (Raised e), stop; (split; [exact He|now split]).
  - injection E as <- <-. exists stop.
    split; [exact Hrx|split; [exact Hr|split; [exact Hok|split; [exact Ht|]]]].
    exists Hang, stop. split; [exact He|now split].
Qed.

(** C6.  Started on two usable sockets, [relay src dst] repeats rounds of
    one [recv(65536)] on [src] followed by one [sendall] of exactly the
    bytes read to [dst], in the order in which [src] delivers them and for
    as long as the reads give data and the writes complete.  The rounds
    stop at the first empty read and at the first exception of a read or a
    write; no exception leaves [relay]; once the loop has stopped the last
    call is [shutdown(SHUT_WR)] on [dst], whatever it answers, and [relay]
    returns.  [relay] does not return only when it is blocked for ever in
    a read of the client socket, to which nothing more arrives, or in a
    write to the client socket that makes no progress.  No socket is
    closed. *)
Theorem relay_pumps (src dst : sock) (w : world) :
  usable src w = Ok tt -> usable dst w = Ok tt ->
  exists rounds rest ending,
    rx_script src w = map RxData rounds ++ rest
    /\ Forall (fun d => d <> []) rounds
    /\ (forall i, (i < length rounds)%nat ->
          nth i (tx_script dst w) TxOk = TxOk)
    /\ trace (snd (relay src dst w))
       = trace w ++ flat_map (round src dst) rounds ++ ending
    /\ relay_end src dst rest (nth (length rounds) (tx_script dst w) TxOk)
         (shutdown_result w dst) (fst (relay src dst w)) ending
    /\ forallb (fun e => negb (is_close e))
         (flat_map (round src dst) rounds ++ ending) = true.
Proof.
  intros Hs Hd. pose proof (relay_no_close src dst w) as (evs & Hevs & Hall).
  destruct (relay src dst w) as [o w'] eqn:E. cbn [fst snd] in *.
  destruct (relay_run _ _ _ _ _ Hs Hd E)
    as (rounds & rest & ending & Hrx & Hr & Hok & Ht & He).
  exists rounds, rest, ending. repeat (split; trivial).
  rewrite Ht in Hevs. apply app_inv_head in Hevs. now rewrite Hevs.
Qed.

(** The upstream delivers two chunks and closes: the pump forwards the
    two chunks, shuts the client socket down for writing and returns. *)
Lemma relay_pumps_witness :
  fst (relay Upstream Client pump_world) = Normal tt
  /\ trace (snd (relay Upstream Client pump_world))
     = [EvRecv Upstream 65536 (RxData [1; 2]); EvSendall Client [1; 2] TxOk;
        EvRecv Upstream 65536 (RxData [3]); EvSendall Client [3] TxOk;
        EvRecv Upstream 65536 (RxData []); EvShutdownWr Client None].
Proof.
  destruct (relay_pumps Upstream Client pump_world eq_refl eq_refl)
    as (rounds & rest & ending & Hrx & Hne & _ & Htr & Hend & _).
  destruct Hend as (o1 & stop & Hp & Hm).
  cbn [rx_script pump_world upstream_rx tx_script client_tx shutdown_result
         trace app] in *.
  assert (Hnth : forall n, nth n (@nil tx) TxOk = TxOk) by (intros [|n]; reflexivity).
  rewrite Hnth in Hp.
  destruct rounds as [|r1 [|r2 [|r3 rounds]]]; cbn [map app] in Hrx.
  - exfalso. rewrite <- Hrx in Hp. cbn [pump_end] in Hp. now destruct Hp.
  - exfalso. injection Hrx as <- <-. cbn [pump_end] in Hp. now destruct Hp.
  - injection Hrx as <- <- <-. cbn [pump_end] in Hp. destruct Hp as [-> ->].
    destruct Hm as [-> ->]. split; [reflexivity|]. rewrite Htr. reflexivity.
  - exfalso. injection Hrx as _ _ <- _.
    inversion Hne as [|? ? _ Hne1]; subst. inversion Hne1 as [|? ? _ Hne2]; subst.
    inversion Hne2 as [|? ? H3 _]; subst. now apply H3.
Defined.

End Pump.

(** *** Teardown *)

Section Teardown.

Lemma never_opened_refl w : never_opened w w.
Proof. intros H. split; [exact H|]. exists []. now rewrite app_nil_r. Qed.

Lemma never_opened_trans a b c :
  never_opened a b -> never_opened b c -> never_opened a c.
Proof.
  intros Hab Hbc Hc. destruct (Hbc Hc) as (Hb & e2 & H2 & F2).
  destruct (Hab Hb) as (Ha & e1 & H1 & F1). split; [exact Ha|].
  exists (e1 ++ e2). rewrite H2, H1, <- app_assoc, forallb_app, F1, F2.
  now split.
Qed.

(** A call that leaves [upstream] as it is and does not open a socket. *)
Lemma never_opened_frame {A} (m : M A) :
  (forall w, upstream_var (snd (m w)) = upstream_var w) ->
  along (emits (fun e => negb (is_opened e))) m ->
  along never_opened m.
Proof.
  intros Hf He w Hu. rewrite Hf in Hu. split; [exact Hu|]. apply He.
Qed.

Ltac frame_prim :=
  intros w;
  repeat match goal with
         | |- context [match ?x with _ => _ end] => destruct x
         end; reflexivity.

Lemma never_opened_recv s n : along never_opened (recv s n).
Proof.
  apply never_opened_frame; [|emits_prim]. unfold recv.
  intros w. destruct (usable s w); [|reflexivity].
  destruct (rx_script s w) as [|[d|e] rest]; destruct s; reflexivity.
Qed.

Lemma never_opened_sendall s d : along never_opened (sendall s d).
Proof.
  apply never_opened_frame; [|emits_prim]. unfold sendall.
  intros w. destruct (usable s w); [|reflexivity].
  destruct (hd TxOk (tx_script s w)); destruct s; reflexivity.
Qed.

Lemma never_opened_settimeout s n : along never_opened (settimeout s n).
Proof.
  apply never_opened_frame; [|emits_prim]. unfold settimeout.
  intros w. destruct (usable s w); reflexivity.
Qed.

Lemma never_opened_connect h p : along never_opened (connect h p).
Proof.
  apply never_opened_frame; [|emits_prim]. unfold connect.
  intros w. destruct (usable Upstream w); [|reflexivity].
  destruct (connect_result w); reflexivity.
Qed.

Lemma never_opened_start t : along never_opened (start t).
Proof. apply never_opened_frame; [reflexivity|emits_prim]. Qed.

Lemma never_opened_join t n : along never_opened (join t n).
Proof. apply never_opened_frame; [reflexivity|emits_prim]. Qed.

Lemma never_opened_stderr l : along never_opened (stderr_write l).
Proof. apply never_opened_frame; [reflexivity|emits_prim]. Qed.

Lemma never_opened_close s : along never_opened (close s).
Proof.
  destruct s.
  - apply never_opened_frame; [reflexivity|emits_prim].
  - intros w. unfold close. destruct (upstream_var w) eqn:E; cbn [snd].
    + apply never_opened_refl.
    + intros H. discriminate H.
    + intros H. discriminate H.
Qed.

Lemma never_opened_socket : along never_opened socket_new.
Proof.
  intros w. unfold socket_new. destruct (socket_result w) as [e|]; cbn [snd].
  - intros H. split; [exact H|]. exists [EvSocket (Some e)]. now split.
  - intros H. discriminate H.
Qed.

Lemma never_opened_handle_client h p a :
  along never_opened (handle_client h p a).
Proof.
  apply along_handle_client;
    first [ exact never_opened_refl | exact never_opened_trans
          | intros;
            first [ apply never_opened_recv | apply never_opened_sendall
                  | apply never_opened_settimeout | apply never_opened_connect
                  | apply never_opened_start | apply never_opened_join
                  | apply never_opened_stderr | apply never_opened_close
                  | apply never_opened_socket ] ].
Qed.

(** The [finally] block ends normally and leaves no socket open. *)
Lemma cleanup_run w :
  exists w', cleanup w = (Normal tt, w')
    /\ client_closed w' = true
    /\ upstream_var w' = match upstream_var w with
                         | Unbound => Unbound
                         | _ => Closed
                         end.
Proof.
  unfold cleanup, bind, try_except, close. simpl.
  destruct (upstream_var w) eqn:E; simpl; eexists;
    (split; [reflexivity|split; [reflexivity|]]); simpl;
    try rewrite E; reflexivity.
Qed.

(** The handler of [handle_client] does not raise. *)
Lemma try_except_stderr_body (m : M unit) w :
  match fst (try_except m (fun e => stderr_write (MsgError e)) w) with
  | Raised _ => False
  | _ => True
  end.
Proof.
  unfold try_except. destruct (m w) as [[a| |e|] w1]; exact I.
Qed.

(** A computation that is never blocked for ever. *)
Local Abbreviation ends m := (forall w, fst (m w) <> Hang).

Lemma bind_hang {A B} (m : M A) (f : A -> M B) w w' :
  bind m f w = (Hang, w') ->
  m w = (Hang, w') \/ exists a w1, m w = (Normal a, w1) /\ f a w1 = (Hang, w').
Proof.
  unfold bind. destruct (m w) as [[a| |e|] w1]; intros E;
    try discriminate E.
  - right. now exists a, w1.
  - left. injection E as <-. reflexivity.
Qed.

Lemma ends_bind {A B} (m : M A) (f : A -> M B) :
  ends m -> (forall a, ends (f a)) -> ends (bind m f).
Proof.
  intros Hm Hf w. specialize (Hm w). unfold bind.
  destruct (m w) as [[a| |e|] w1]; cbn [fst] in *;
    try discriminate; [apply Hf|contradiction].
Qed.

Lemma ends_lift {A} (r : res A) : ends (lift r).
Proof. destruct r; discriminate. Qed.

Lemma ends_socket : ends socket_new.
Proof. intros w. unfold socket_new. destruct (socket_result w); discriminate. Qed.

Lemma ends_settimeout s n : ends (settimeout s n).
Proof. intros w. unfold settimeout. destruct (usable s w); discriminate. Qed.

Lemma ends_connect h p : ends (connect h p).
Proof.
  intros w. unfold connect. destruct (usable Upstream w); [|discriminate].
  destruct (connect_result w); discriminate.
Qed.

Lemma ends_send_upstream d : ends (sendall Upstream d).
Proof.
  intros w. unfold sendall. destruct (usable Upstream w); [|discriminate].
  cbv zeta. destruct (hd TxOk (tx_script Upstream w)); discriminate.
Qed.

Lemma ends_relay_response : ends relay_response.
Proof. discriminate. Qed.

(** The two joins have a timeout: what follows the write of the upstream
    response to the client ends. *)
Lemma ends_decision resp :
  ends (resp_line <- lift (decode (hd [] (split CRLF resp))) ;;
        if contains (lit " 200 ") resp_line then
          start (Pump Client Upstream) ;;
          start (Pump Upstream Client) ;;
          join (Pump Client Upstream) 300 ;;
          join (Pump Upstream Client) 300
        else stderr_write (MsgConnectFailed resp_line)).
Proof.
  apply ends_bind; [apply ends_lift|intros resp_line].
  destruct (contains (lit " 200 ") resp_line); discriminate.
Qed.

(** The loop that reads the upstream response ends: the upstream socket
    has a timeout. *)
Lemma ends_read_response fuel : forall resp w,
  (length (upstream_rx w) < fuel)%nat ->
  fst (read_response fuel resp w) <> Hang.
Proof.
  induction fuel as [|fuel IH]; intros resp w Hlen; [lia|].
  cbn [read_response]. destruct (contains CRLF2 resp); [discriminate|].
  unfold bind at 1, recv.
  destruct (usable Upstream w); [|discriminate]. cbn [rx_script].
  destruct (upstream_rx w) as [|[d|e] rest] eqn:Hrx; try discriminate.
  destruct (is_empty d); [discriminate|]. apply IH.
  cbn [length] in Hlen. cbn. lia.
Qed.

(** The loop that reads the request is blocked only when the client sends
    neither the end of the header nor the end of the stream. *)
Lemma read_request_blocked fuel : forall data w w',
  (length (client_rx w) < fuel)%nat ->
  read_request fuel data w = (Hang, w') ->
  exists chunks,
    client_rx w = map RxData chunks
    /\ Forall (fun c => c <> []) chunks
    /\ contains CRLF2 (data ++ concat chunks) = false
    /\ trace w' = trace w ++ map (fun c => EvRecv Client 4096 (RxData c)) chunks.
Proof.
  induction fuel as [|fuel IH]; intros data w w' Hlen E; [lia|].
  cbn [read_request] in E.
  destruct (contains CRLF2 data) eqn:Hc; [discriminate E|].
  unfold bind at 1, recv in E.
  destruct (usable Client w); [|discriminate E]. cbn [rx_script] in E.
  destruct (client_rx w) as [|[d|e] rest] eqn:Hrx; try discriminate E.
  - injection E as <-. exists []. cbn [map concat].
    rewrite !app_nil_r. repeat split; trivial.
  - destruct d as [|c d].
    + discriminate E.
    + cbn [is_empty nonempty negb] in E. apply IH in E.
      * destruct E as (chunks & Hrest & Hne & Hno & Ht).
        exists ((c :: d) :: chunks). cbn in Hrest, Ht.
        split; [cbn [map]; now rewrite Hrest|].
        split; [constructor; [discriminate|exact Hne]|].
        split; [cbn [concat]; now rewrite app_assoc|].
        rewrite Ht. cbn [map]. now rewrite <- app_assoc.
      * cbn [length] in Hlen. cbn. lia.
Qed.

(** [forward_request] is blocked only in its first loop. *)
Lemma forward_request_blocked h p a w w' :
  forward_request h p a w = (Hang, w') -> starved w w'.
Proof.
  unfold forward_request. intros E.
  apply bind_hang in E as [E|(w0 & w1 & E0 & E)]; [discriminate E|].
  injection E0 as <- <-.
  apply bind_hang in E as [E|(data & w1 & _ & E)].
  - apply read_request_blocked in E; [exact E|lia].
  - exfalso. revert E. generalize w1. clear.
    intros w1 E. apply (f_equal fst) in E. revert E. cbn [fst].
    revert w1.
    apply ends_bind; [apply ends_lift|intros [head rest]].
    apply ends_bind; [apply ends_socket|intros _].
    apply ends_bind; [apply ends_settimeout|intros _].
    apply ends_bind; [apply ends_connect|intros _].
    apply ends_bind; [apply ends_lift|intros [request_line rest_lines]].
    apply ends_bind; [apply ends_lift|intros payload].
    apply ends_bind; [apply ends_send_upstream|intros _]. discriminate.
Qed.

(** [negotiate_tunnel] is blocked only in the write of the upstream
    response to the client. *)
Lemma negotiate_tunnel_blocked w w' :
  negotiate_tunnel w = (Hang, w') ->
  hd TxOk (client_tx w) = TxStall
  /\ exists pre resp,
       trace w' = trace w ++ pre ++ [EvSendall Client resp TxStall]
       /\ forallb no_client_send pre = true.
Proof.
  unfold negotiate_tunnel. intros E.
  apply bind_hang in E as [E|(w0 & w1 & E0 & E)]; [discriminate E|].
  injection E0 as <- <-.
  apply bind_hang in E as [E|(resp & w1 & E1 & E)].
  - exfalso. apply (f_equal fst) in E. revert E. apply ends_read_response. lia.
  - assert (Htx : client_tx w1 = client_tx w).
    { change w1 with (snd (Normal resp, w1)). rewrite <- E1.
      apply (along_read_response (fun w w' => client_tx w' = client_tx w));
        [reflexivity|intros a b c H1 H2; cbv beta in *; congruence|].
      intros w2. unfold recv. destruct (usable Upstream w2); [|reflexivity].
      destruct (rx_script Upstream w2) as [|[d|e] rest]; reflexivity. }
    assert (Hev : emits no_client_send w w1).
    { change w1 with (snd (Normal resp, w1)). rewrite <- E1.
      emits_along along_read_response. }
    destruct Hev as (pre & Hpre & Hall).
    apply bind_hang in E as [E|([] & w2 & _ & E)].
    + unfold sendall in E. cbn [usable] in E.
      destruct (client_closed w1); [discriminate E|]. cbv zeta in E.
      cbn [tx_script] in E. rewrite Htx in E.
      destruct (hd TxOk (client_tx w)) eqn:Hhd; try discriminate E.
      injection E as <-. split; [reflexivity|]. exists pre, resp.
      cbn [trace emit set_tx]. rewrite Hpre, <- app_assoc. now split.
    + exfalso. apply (f_equal fst) in E. revert E. apply ends_decision.
Qed.

(** The session is blocked only in its first loop, or in the write of the
    upstream response to the client. *)
Lemma handle_client_blocked h p a w w' :
  handle_client h p a w = (Hang, w') -> starved w w' \/ stalled w w'.
Proof.
  unfold handle_client, call, try_finally, try_except. intros E.
  match type of E with
  | context [bind ?m ?f w] => destruct (bind m f w) as [o w1] eqn:Eb
  end.
  destruct o as [[]| |e|].
  - destruct (cleanup_run w1) as (w2 & Ec & _). rewrite Ec in E. discriminate E.
  - destruct (cleanup_run w1) as (w2 & Ec & _). rewrite Ec in E. discriminate E.
  - cbn [stderr_write] in E.
    match type of E with
    | context [cleanup ?x] => destruct (cleanup_run x) as (w2 & Ec & _)
    end.
    rewrite Ec in E. discriminate E.
  - injection E as <-.
    apply bind_hang in Eb as [Eb|(request_line & w2 & Ef & Eb)].
    + left. now apply forward_request_blocked in Eb.
    + right.
      assert (Htx : client_tx w2 = client_tx w).
      { change w2 with (snd (Normal request_line, w2)). rewrite <- Ef.
        apply (along_forward_request (fun w w' => client_tx w' = client_tx w));
          unfold along; cbv beta; intros;
          try congruence;
          unfold close, settimeout, connect, sendall, recv, socket_new;
          repeat match goal with
                 | |- context [match ?x with _ => _ end] => destruct x
                 end; reflexivity. }
      assert (Hev : emits no_client_send w w2).
      { change w2 with (snd (Normal request_line, w2)). rewrite <- Ef.
        emits_along along_forward_request. }
      destruct Hev as (evs & Hevs & Hall).
      destruct (is_connect request_line).
      * apply negotiate_tunnel_blocked in Eb as (Hhd & pre & resp & Ht & Hp).
        split; [now rewrite <- Htx|]. exists (evs ++ pre), resp.
        rewrite Ht, Hevs, forallb_app, Hall, Hp, <- !app_assoc. now split.
      * exfalso. apply (f_equal fst) in Eb. revert Eb.
        apply ends_relay_response.
Qed.

(** C7.  Whatever the environment answers, no exception leaves the
    handler, and when the handler ends, by the normal end, by the early
    return, by an exception of the body or after the joins, whether the
    relay threads have finished or not, the client socket is closed and
    the upstream socket is closed too, unless no upstream socket was ever
    opened.  The handler ends in every session but two kinds: the client
    sends neither the end of the header nor the end of the stream, and the
    handler is blocked in its first loop having done nothing but read; or
    the client does not take the upstream response that the handler
    forwards to it, its first write to the client socket, and the handler
    is blocked in that write. *)
Theorem handle_client_teardown (upstream_host : str) (upstream_port : Z)
  (auth_header : str) (w : world) :
  fresh w ->
  let r := handle_client upstream_host upstream_port auth_header w in
  (fst r = Normal tt \/ fst r = Hang)
  /\ (fst r = Normal tt ->
      client_closed (snd r) = true
      /\ (upstream_var (snd r) = Closed
          \/ (upstream_var (snd r) = Unbound
              /\ forallb (fun e => negb (is_opened e)) (trace (snd r)) = true)))
  /\ (fst r = Hang -> starved w (snd r) \/ stalled w (snd r)).
Proof.
  intros (_ & _ & Htr) r.
  assert (Hb : fst r = Hang -> starved w (snd r) \/ stalled w (snd r)).
  { intros Hh. apply (handle_client_blocked upstream_host upstream_port
                        auth_header). fold r. rewrite <- Hh.
    now destruct r. }
  revert Hb.
  pose proof (never_opened_handle_client upstream_host upstream_port
                auth_header w) as Hno.
  fold r in Hno. revert Hno. subst r.
  unfold handle_client, call, try_finally.
  match goal with
  | |- context [try_except ?m ?h w] =>
      pose proof (try_except_stderr_body m w) as Hne;
      destruct (try_except m h w) as [o1 w1]
  end.
  destruct (cleanup_run w1) as (w2 & Ec & Hc & Hu).
  destruct o1 as [[]| |e|]; cbn [fst] in Hne; try contradiction;
    try rewrite Ec; cbn [fst snd]; intros Hno Hb.
  - split; [now left|]. split; [|discriminate]. intros _. split; [exact Hc|].
    destruct (upstream_var w1); rewrite Hu; [right|now left|now left].
    split; [reflexivity|]. destruct (Hno Hu) as (_ & evs & He & Hall).
    rewrite Htr in He. now rewrite He.
  - split; [now left|]. split; [|discriminate]. intros _. split; [exact Hc|].
    destruct (upstream_var w1); rewrite Hu; [right|now left|now left].
    split; [reflexivity|]. destruct (Hno Hu) as (_ & evs & He & Hall).
    rewrite Htr in He. now rewrite He.
  - split; [now right|]. split; [discriminate|exact Hb].
Qed.

(** The client sends a CONNECT request and the upstream answers 407: the
    handler forwards the answer, ends, and has closed both sockets. *)
Lemma handle_client_teardown_witness :
  fresh (session [RxData connect_request] [RxData response_407])
  /\ let r := handle_client (lit "proxy") 3128 []
                (session [RxData connect_request] [RxData response_407]) in
     fst r = Normal tt
     /\ client_closed (snd r) = true
     /\ upstream_var (snd r) = Closed.
Proof.
  split; [repeat split|].
  destruct (handle_client_teardown (lit "proxy") 3128 []
              (session [RxData connect_request] [RxData response_407]))
    as (Hend & Hclosed & Hblocked); [repeat split|].
  cbv zeta.
  assert (Hn : fst (handle_client (lit "proxy") 3128 []
                 (session [RxData connect_request] [RxData response_407]))
               = Normal tt).
  { destruct Hend as [Hn|Hh]; [exact Hn|exfalso].
    destruct (Hblocked Hh) as [(chunks & Hrx & _ & Hno & _)|(Hhd & _)].
    - cbn [session client_rx] in Hrx.
      destruct chunks as [|c [|c' chunks]]; try discriminate Hrx.
      injection Hrx as <-. vm_compute in Hno. discriminate Hno.
    - discriminate Hhd. }
  split; [exact Hn|]. destruct (Hclosed Hn) as (Hc & [Hu|(Hu & _)]).
  - now split.
  - exfalso. vm_compute in Hu. discriminate Hu.
Defined.

End Teardown.

(** *** Framing of the request and the upstream socket *)

Section Framing.

Lemma cut_app_found (sep x z : list N) :
  exists a b, cut sep (x ++ sep ++ z) = Some (a, b).
Proof.
  induction x as [|c x IH].
  - rewrite app_nil_l, cut_here. eauto.
  - cbn [app cut]. destruct (startswith (c :: x ++ sep ++ z) sep); [eauto|].
    destruct IH as (a & b & ->). eauto.
Qed.

(** A text that holds [sep] still holds it when it grows. *)
Lemma contains_app_l (sep a b : list N) :
  contains sep a = true -> contains sep (a ++ b) = true.
Proof.
  unfold contains. destruct (cut sep a) as [[x y]|] eqn:E; [|discriminate].
  intros _. apply cut_Some in E. subst a. rewrite <- !app_assoc.
  now destruct (cut_app_found sep x (y ++ b)) as (a' & b' & ->).
Qed.

Lemma contains_app_false (sep a b : list N) :
  contains sep (a ++ b) = false -> contains sep a = false.
Proof.
  intros H. destruct (contains sep a) eqn:E; [|reflexivity].
  now rewrite (contains_app_l _ _ b E) in H.
Qed.

Lemma world_eta w :
  w = mkWorld (client_rx w) (upstream_rx w) (client_tx w) (upstream_tx w)
        (socket_result w) (connect_result w) (shutdown_result w)
        (join_result w) (client_closed w) (upstream_var w) (trace w).
Proof. now destruct w. Qed.

Lemma removelast_cons2 {A} (c : A) cs :
  cs <> [] -> removelast (c :: cs) = c :: removelast cs.
Proof. destruct cs; [congruence|reflexivity]. Qed.

(** The loop of [read_request] over chunks that do not complete the
    header. *)
Lemma read_request_chunks chunks : forall fuel data w rest,
  client_closed w = false ->
  client_rx w = map RxData chunks ++ rest ->
  Forall (fun c => c <> []) chunks ->
  (chunks <> [] -> contains CRLF2 (data ++ concat (removelast chunks)) = false) ->
  read_request (length chunks + fuel) data w
  = read_request fuel (data ++ concat chunks)
      (emit_all (map (fun c => EvRecv Client 4096 (RxData c)) chunks)
         (set_rx Client rest w)).
Proof.
  induction chunks as [|c cs IH]; intros fuel data w rest Hopen Hrx Hne Hno.
  - cbn [length Nat.add concat map]. rewrite app_nil_r. f_equal.
    cbn [map app] in Hrx. subst rest. destruct w. unfold emit_all, set_rx.
    cbn. now rewrite app_nil_r.
  - cbn [length Nat.add read_request].
    assert (Hd : contains CRLF2 data = false).
    { eapply contains_app_false. apply Hno. discriminate. }
    rewrite Hd. unfold bind at 1. unfold recv, usable. rewrite Hopen.
    cbn [rx_script]. rewrite Hrx. cbn [map app].
    inversion Hne as [|? ? Hc Hcs]; subst.
    destruct c as [|b c]; [congruence|]. cbn [is_empty nonempty negb].
    rewrite IH with (rest := rest); trivial.
    + f_equal.
      * cbn [concat]. now rewrite app_assoc.
      * unfold emit_all, set_rx, emit. cbn. f_equal.
        now rewrite <- app_assoc.
    + intros Hcs0. rewrite <- app_assoc.
      rewrite removelast_cons2 in Hno by assumption. apply Hno. discriminate.
Qed.

Lemma read_response_chunks chunks : forall fuel resp w rest,
  upstream_var w = Opened ->
  upstream_rx w = map RxData chunks ++ rest ->
  Forall (fun c => c <> []) chunks ->
  (chunks <> [] -> contains CRLF2 (resp ++ concat (removelast chunks)) = false) ->
  read_response (length chunks + fuel) resp w
  = read_response fuel (resp ++ concat chunks)
      (emit_all (map (fun c => EvRecv Upstream 4096 (RxData c)) chunks)
         (set_rx Upstream rest w)).
Proof.
  induction chunks as [|c cs IH]; intros fuel resp w rest Hopen Hrx Hne Hno.
  - cbn [length Nat.add concat map]. rewrite app_nil_r. f_equal.
    cbn [map app] in Hrx. subst rest. destruct w. unfold emit_all, set_rx.
    cbn. now rewrite app_nil_r.
  - cbn [length Nat.add read_response].
    assert (Hd : contains CRLF2 resp = false).
    { eapply contains_app_false. apply Hno. discriminate. }
    rewrite Hd. unfold bind at 1. unfold recv, usable. rewrite Hopen.
    cbn [rx_script]. rewrite Hrx. cbn [map app].
    inversion Hne as [|? ? Hc Hcs]; subst.
    destruct c as [|b c]; [congruence|]. cbn [is_empty nonempty negb].
    rewrite IH with (rest := rest); trivial.
    + f_equal.
      * cbn [concat]. now rewrite app_assoc.
      * unfold emit_all, set_rx, emit. cbn. f_equal.
        now rewrite <- app_assoc.
    + intros Hcs0. rewrite <- app_assoc.
      rewrite removelast_cons2 in Hno by assumption. apply Hno. discriminate.
Qed.


(** The fuel of the loops is never used up: above the length of the script
    the result does not depend on it. *)
Lemma read_request_enough fuel : forall fuel' data w,
  (length (client_rx w) < fuel)%nat -> (length (client_rx w) < fuel')%nat ->
  read_request fuel data w = read_request fuel' data w.
Proof.
  induction fuel as [|fuel IH]; intros fuel' data w H H'; [lia|].
  destruct fuel' as [|fuel']; [lia|]. cbn [read_request].
  destruct (contains CRLF2 data); [reflexivity|].
  unfold bind, recv. destruct (usable Client w); [|reflexivity].
  cbn [rx_script]. destruct (client_rx w) as [|[d|e] rest] eqn:E;
    [reflexivity| |reflexivity].
  destruct (is_empty d); [reflexivity|]. apply IH; cbn; simpl in H, H'; lia.
Qed.

Lemma read_response_enough fuel : forall fuel' resp w,
  (length (upstream_rx w) < fuel)%nat -> (length (upstream_rx w) < fuel')%nat ->
  read_response fuel resp w = read_response fuel' resp w.
Proof.
  induction fuel as [|fuel IH]; intros fuel' resp w H H'; [lia|].
  destruct fuel' as [|fuel']; [lia|]. cbn [read_response].
  destruct (contains CRLF2 resp); [reflexivity|].
  unfold bind, recv. destruct (usable Upstream w); [|reflexivity].
  cbn [rx_script]. destruct (upstream_rx w) as [|[d|e] rest] eqn:E;
    [reflexivity| |reflexivity].
  destruct (is_empty d); [reflexivity|]. apply IH; cbn; simpl in H, H'; lia.
Qed.

Lemma pump_enough fuel : forall fuel' src dst w,
  (length (rx_script src w) < fuel)%nat ->
  (length (rx_script src w) < fuel')%nat ->
  pump fuel src dst w = pump fuel' src dst w.
Proof.
  induction fuel as [|fuel IH]; intros fuel' src dst w H H'; [lia|].
  destruct fuel' as [|fuel']; [lia|]. cbn [pump].
  unfold bind, recv. destruct (usable src w); [|reflexivity].
  destruct (rx_script src w) as [|[d|e] rest] eqn:E;
    [destruct src; reflexivity| |reflexivity].
  destruct (is_empty d); [reflexivity|].
  unfold sendall. rewrite usable_emit, usable_set_rx.
  destruct (usable dst w); [|reflexivity].
  destruct (hd TxOk _); [|reflexivity|destruct dst; reflexivity].
  apply IH; rewrite rx_script_emit, rx_script_set_tx, rx_script_emit,
    rx_script_set_rx; simpl in H, H'; lia.
Qed.

Lemma received_app a b : received (a ++ b) = received a ++ received b.
Proof.
  induction a as [|e a IH]; [reflexivity|].
  cbn [app received]. destruct e as [[] n [d|x]| | | | | | | | |];
    rewrite ?IH, ?app_assoc; reflexivity.
Qed.

(** What [read_request] does: reads of the client socket, and its close
    when the client has closed; the data it returns hold the terminator. *)
Lemma read_request_post fuel : forall data w o w',
  read_request fuel data w = (o, w') ->
  exists evs,
    trace w' = trace w ++ evs
    /\ forallb on_client_input evs = true
    /\ upstream_var w' = upstream_var w
    /\ forall d, o = Normal d ->
         contains CRLF2 d = true /\ d = data ++ received evs.
Proof.
  assert (Hnil : forall data w (o : outcome bytes),
            (forall d, o = Normal d -> contains CRLF2 d = true /\ d = data) ->
            exists evs,
              trace w = trace w ++ evs
              /\ forallb on_client_input evs = true
              /\ upstream_var w = upstream_var w
              /\ forall d, o = Normal d ->
                   contains CRLF2 d = true /\ d = data ++ received evs).
  { intros data w o Ho. exists []. rewrite !app_nil_r.
    split; [reflexivity|split; [reflexivity|split; [reflexivity|]]].
    intros d Hd. cbn [received]. rewrite ?app_nil_r. now apply Ho. }
  induction fuel as [|fuel IH]; intros data w o w' E; cbn [read_request] in E.
  - destruct (contains CRLF2 data) eqn:Ec; injection E as <- <-; apply Hnil;
      intros d Hd; [injection Hd as <-; auto|discriminate].
  - destruct (contains CRLF2 data) eqn:Ec.
    { injection E as <- <-. apply Hnil. intros d Hd. injection Hd as <-. auto. }
    unfold bind at 1 in E. unfold recv in E.
    destruct (usable Client w).
    2:{ injection E as <- <-. apply Hnil. discriminate. }
    cbn [rx_script] in E. destruct (client_rx w) as [|[d|e] rest].
    + injection E as <- <-. apply Hnil. discriminate.
    + destruct d as [|b d]; cbn [is_empty nonempty negb] in E.
      * injection E as <- <-.
        exists [EvRecv Client 4096 (RxData []); EvClose Client].
        split; [|split; [reflexivity|split; [reflexivity|discriminate]]].
        cbn. now rewrite <- app_assoc.
      * apply IH in E as (evs & Ht & Hall & Hu & Hd).
        exists (EvRecv Client 4096 (RxData (b :: d)) :: evs).
        split; [|split; [exact Hall|split; [exact Hu|]]].
        -- rewrite Ht. cbn. now rewrite <- app_assoc.
        -- intros d0 Hd0. destruct (Hd _ Hd0) as [Hc ->]. split; [exact Hc|].
           cbn [received]. now rewrite <- app_assoc.
    + injection E as <- <-. exists [EvRecv Client 4096 (RxErr e)].
      split; [reflexivity|split; [reflexivity|split; [reflexivity|discriminate]]].
Qed.

Lemma try_except_bind {A B} (m : M A) (f : A -> M B) (h : exn -> M B) w :
  try_except (bind m f) h w
  = match m w with
    | (Normal a, w') => try_except (f a) h w'
    | (Returned, w') => (Returned, w')
    | (Raised e, w') => h e w'
    | (Hang, w') => (Hang, w')
    end.
Proof.
  unfold try_except, bind. destruct (m w) as [[a| |e|] w']; reflexivity.
Qed.

(** From the end of [forward_request] to the end of the session there is
    no [socket()] call. *)
Lemma session_after_forward h p a w :
  emits quiet (snd (forward_request h p a w)) (snd (handle_client h p a w)).
Proof.
  unfold handle_client, call, try_finally. rewrite try_except_bind.
  pose proof (along_branches (emits quiet) (emits_refl quiet)
                (emits_trans quiet)) as Hb.
  repeat match type of Hb with
  | ?X -> _ =>
      let H1 := fresh in
      (assert (H1 : X) by emits_prim); specialize (Hb H1); clear H1
  end.
  specialize (Hb (forward_request h p a w)).
  assert (Hc : forall w2, emits quiet w2 (snd (cleanup w2)))
    by (emits_along along_cleanup).
  destruct (forward_request h p a w) as [[rl| |e|] w1]; cbn [snd] in *.
  - destruct (try_except _ _ w1) as [o2 w2]. specialize (Hc w2).
    destruct o2 as [[]| |e2|]; destruct (cleanup w2) as [[[]| |e3|] w3];
      cbn [snd] in *; try exact Hb; eapply emits_trans; eauto.
  - specialize (Hc w1). destruct (cleanup w1) as [[[]| |e3|] w3];
      cbn [snd] in *; exact Hc.
  - destruct (stderr_write (MsgError e) w1) as [o2 w2]. specialize (Hc w2).
    destruct o2 as [[]| |e2|]; destruct (cleanup w2) as [[[]| |e3|] w3];
      cbn [snd] in *; try exact Hb; eapply emits_trans; eauto.
  - exact Hb.
Qed.


Lemma contains_removelast (sep : list N) (chunks : list (list N)) :
  contains sep (concat chunks) = false ->
  contains sep ([] ++ concat (removelast chunks)) = false.
Proof.
  intros H. cbn [app]. destruct chunks as [|c cs]; [exact H|].
  assert (Hne : c :: cs <> []) by discriminate.
  rewrite (app_removelast_last [] Hne), concat_app in H.
  now apply contains_app_false in H.
Qed.

Lemma index_cut_found data :
  contains CRLF2 data = true -> exists head rest, index_cut data = Ok (head, rest).
Proof.
  unfold contains, index_cut.
  destruct (cut CRLF2 data) as [[head rest]|]; [eauto|discriminate].
Qed.

(** [forward_request] reads the client socket, and creates the upstream
    socket at most once, when the bytes read hold the terminator. *)
Lemma forward_request_trace h p a w :
  exists evs1 evs2,
    trace (snd (forward_request h p a w)) = trace w ++ evs1 ++ evs2
    /\ forallb on_client_input evs1 = true
    /\ (evs2 = []
        \/ exists r evs3, evs2 = EvSocket r :: evs3
             /\ forallb quiet evs3 = true
             /\ contains CRLF2 (received evs1) = true).
Proof.
  unfold forward_request. unfold bind at 1 2. unfold get.
  destruct (read_request (S (length (client_rx w))) [] w) as [o1 w1] eqn:E1.
  apply read_request_post in E1 as (evs1 & Ht1 & Hall1 & Hu1 & Hd1).
  exists evs1.
  destruct o1 as [data| |e|]; cbn [snd];
    try (exists []; rewrite app_nil_r; split; [exact Ht1|split; [exact Hall1|now left]]).
  destruct (Hd1 data eq_refl) as [Hc Hdata]. cbn [app] in Hdata. subst data.
  destruct (index_cut_found _ Hc) as (head & rest & Ei).
  unfold bind at 1. rewrite Ei. cbn [lift ret].
  unfold bind at 1. unfold socket_new. destruct (socket_result w1) as [e|].
  - exists [EvSocket (Some e)]. cbn [snd trace emit].
    split; [now rewrite Ht1, <- app_assoc|]. split; [exact Hall1|].
    right. exists (Some e), []. now repeat split.
  - match goal with
    | |- context [snd (?m ?w2)] =>
        assert (Hq : emits quiet w2 (snd (m w2)))
          by (emits_along along_after_socket)
    end.
    destruct Hq as (evs3 & Ht3 & Hall3).
    exists (EvSocket None :: evs3). split.
    + rewrite Ht3. cbn [trace emit set_upstream_var]. rewrite Ht1.
      rewrite <- !app_assoc. reflexivity.
    + split; [exact Hall1|]. right. exists None, evs3. now repeat split.
Qed.

Lemma on_client_input_quiet evs :
  forallb on_client_input evs = true -> forallb quiet evs = true.
Proof.
  induction evs as [|e evs IH]; [reflexivity|]. cbn [forallb].
  rewrite !andb_true_iff. intros [He Hall]. split; [|now apply IH].
  destruct e as [[] ? ?| | | | | |[]| | |]; try discriminate; reflexivity.
Qed.

Lemma forward_request_eof h p a w chunks more :
  client_closed w = false ->
  client_rx w = map RxData chunks ++ RxData [] :: more ->
  Forall (fun c => c <> []) chunks ->
  contains CRLF2 (concat chunks) = false ->
  forward_request h p a w
  = (Returned,
     emit_all (map (fun c => EvRecv Client 4096 (RxData c)) chunks
                 ++ [EvRecv Client 4096 (RxData []); EvClose Client])
       (set_client_closed true (set_rx Client more w))).
Proof.
  intros Hopen Hrx Hne Hno. unfold forward_request.
  unfold bind at 1. unfold get. unfold bind at 1.
  replace (S (length (client_rx w)))
    with (length chunks + S (S (length more)))%nat
    by (rewrite Hrx, length_app, length_map; simpl; lia).
  rewrite (read_request_chunks chunks _ [] w (RxData [] :: more) Hopen Hrx Hne)
    by (intros _; now apply contains_removelast).
  cbn [app read_request]. rewrite Hno.
  unfold bind at 1 2. unfold recv, usable.
  cbn [emit_all set_rx client_closed rx_script client_rx]. rewrite Hopen.
  cbn [is_empty nonempty negb]. unfold bind, close, return_.
  f_equal. unfold emit_all, emit, set_client_closed, set_rx. cbn.
  f_equal. rewrite <- !app_assoc. reflexivity.
Qed.

(** C5.  In a new session: (1) if the client closes before the bytes it
    sent hold the terminator, the handler reads those bytes, closes the
    client socket (the [finally] block closes it once more, to no effect)
    and returns; it makes no other call, and [upstream] is never bound.
    (2) Whatever happens, the calls of the session are: reads of the client
    socket (with its close on an early end), then at most one [socket()]
    call, made only when the bytes read hold the terminator, then calls
    none of which is [socket()]. *)
Theorem handle_client_upstream_after_header (upstream_host : str)
  (upstream_port : Z) (auth_header : str) (w : world) :
  fresh w ->
  (forall chunks more,
      client_rx w = map RxData chunks ++ RxData [] :: more ->
      Forall (fun c => c <> []) chunks ->
      contains CRLF2 (concat chunks) = false ->
      let r := handle_client upstream_host upstream_port auth_header w in
      fst r = Normal tt
      /\ trace (snd r)
         = map (fun c => EvRecv Client 4096 (RxData c)) chunks
             ++ [EvRecv Client 4096 (RxData []); EvClose Client; EvClose Client]
      /\ upstream_var (snd r) = Unbound
      /\ client_closed (snd r) = true)
  /\ exists evs1 evs2,
       trace (snd (handle_client upstream_host upstream_port auth_header w))
         = evs1 ++ evs2
       /\ forallb on_client_input evs1 = true
       /\ (forallb quiet evs2 = true
           \/ exists r evs3, evs2 = EvSocket r :: evs3
                /\ forallb quiet evs3 = true
                /\ contains CRLF2 (received evs1) = true).
Proof.
  intros (Hopen & Hunb & Htr). split.
  - intros chunks more Hrx Hne Hno r. subst r.
    unfold handle_client, call, try_finally. rewrite try_except_bind.
    rewrite (forward_request_eof _ _ _ _ _ _ Hopen Hrx Hne Hno).
    unfold cleanup, bind, try_except, close. cbn. rewrite Hunb, Htr. cbn.
    repeat split. rewrite <- !app_assoc. reflexivity.
  - destruct (forward_request_trace upstream_host upstream_port auth_header w)
      as (evs1 & evs2 & Ht & Hall1 & H2).
    destruct (session_after_forward upstream_host upstream_port auth_header w)
      as (evs4 & Ht4 & Hall4).
    rewrite Ht, Htr in Ht4. cbn [app] in Ht4.
    exists evs1, (evs2 ++ evs4). split; [now rewrite Ht4, <- app_assoc|].
    split; [exact Hall1|]. destruct H2 as [->|(r & evs3 & -> & Hall3 & Hc)].
    + now left.
    + right. exists r, (evs3 ++ evs4). split; [reflexivity|].
      split; [|exact Hc]. now rewrite forallb_app, Hall3, Hall4.
Qed.

Lemma handle_client_upstream_after_header_witness :
  let w := session [RxData (lit "CONNECT example.com:443"); RxData []] [] in
  fresh w
  /\ (let r := handle_client (lit "proxy") 3128 [] w in
      fst r = Normal tt
      /\ trace (snd r)
         = map (fun c => EvRecv Client 4096 (RxData c))
             [lit "CONNECT example.com:443"]
             ++ [EvRecv Client 4096 (RxData []); EvClose Client; EvClose Client]
      /\ upstream_var (snd r) = Unbound
      /\ client_closed (snd r) = true).
Proof.
  intros w. assert (Hf : fresh w) by (repeat split). split; [exact Hf|].
  apply (proj1 (handle_client_upstream_after_header (lit "proxy") 3128 [] w Hf)
           [lit "CONNECT example.com:443"] []).
  - reflexivity.
  - repeat constructor. discriminate.
  - reflexivity.
Defined.

End Framing.

(** *** The CONNECT negotiation *)

Section Negotiation.

Lemma read_request_normal fuel : forall data w d w',
  read_request fuel data w = (Normal d, w') ->
  client_closed w' = client_closed w.
Proof.
  induction fuel as [|fuel IH]; intros data w d w' E; cbn [read_request] in E.
  - destruct (contains CRLF2 data); [|discriminate]. now injection E as _ <-.
  - destruct (contains CRLF2 data); [now injection E as _ <-|].
    unfold bind at 1 in E. unfold recv in E.
    destruct (usable Client w); [|discriminate].
    cbn [rx_script] in E. destruct (client_rx w) as [|[c|e] rest];
      try discriminate.
    destruct c as [|b c]; cbn [is_empty nonempty negb] in E.
    + unfold bind, close, return_ in E. discriminate.
    + apply IH in E. exact E.
Qed.

(** When [forward_request] has ended normally the client socket is as it
    was and the upstream socket is open. *)
Lemma forward_request_normal h p a w rl w1 :
  forward_request h p a w = (Normal rl, w1) ->
  client_closed w1 = client_closed w /\ upstream_var w1 = Opened.
Proof.
  unfold forward_request. unfold bind at 1 2. unfold get.
  destruct (read_request _ [] w) as [[data| |e|] w0] eqn:E0; try discriminate.
  apply read_request_normal in E0. rewrite <- E0. clear E0.
  unfold bind at 1. destruct (index_cut data) as [[head rest]|e];
    cbn [lift ret raise]; [|discriminate].
  unfold bind at 1. unfold socket_new.
  destruct (socket_result w0); [discriminate|].
  unfold bind at 1. unfold settimeout. cbn [usable upstream_var emit set_upstream_var].
  unfold bind at 1. unfold connect. cbn [usable upstream_var emit set_upstream_var connect_result].
  destruct (connect_result w0); [discriminate|].
  unfold bind at 1. destruct (first_and_rest _) as [[request_line rest_lines]|e];
    cbn [lift ret raise]; [|discriminate].
  unfold bind at 1. destruct (encode _) as [payload|e];
    cbn [lift ret raise]; [|discriminate].
  unfold bind at 1. unfold sendall.
  cbn [usable upstream_var emit set_upstream_var tx_script upstream_tx].
  destruct (hd TxOk (upstream_tx w0)); cbn [ret]; intros E; try discriminate.
  injection E as _ <-. split; reflexivity.
Qed.

Lemma handle_client_after_forward h p a w rl w1 :
  forward_request h p a w = (Normal rl, w1) ->
  handle_client h p a w
  = call (try_finally
            (try_except
               (if is_connect rl then negotiate_tunnel else relay_response)
               (fun e => stderr_write (MsgError e)))
            cleanup) w1.
Proof.
  intros E. unfold handle_client, call, try_finally.
  rewrite try_except_bind, E. reflexivity.
Qed.

(** The rest of a session depends on the body of the [try] block only
    through what that body does. *)
Lemma session_ext (m m' : M unit) w w' :
  m w = m' w' ->
  call (try_finally (try_except m (fun e => stderr_write (MsgError e))) cleanup) w
  = call (try_finally (try_except m' (fun e => stderr_write (MsgError e))) cleanup) w'.
Proof. intros E. unfold call, try_finally, try_except. now rewrite E. Qed.

(** The loop of [negotiate_tunnel] when the upstream sends [chunks] and
    these complete a header block, or the upstream closes after them. *)
Lemma read_response_done chunks rest w :
  upstream_var w = Opened ->
  upstream_rx w = map RxData chunks ++ rest ->
  Forall (fun c => c <> []) chunks ->
  contains CRLF2 (concat (removelast chunks)) = false ->
  contains CRLF2 (concat chunks) = true
  \/ (contains CRLF2 (concat chunks) = false
      /\ exists rest', rest = RxData [] :: rest') ->
  exists evs rest',
    read_response (S (length (upstream_rx w))) [] w
    = (Normal (concat chunks), emit_all evs (set_rx Upstream rest' w))
    /\ forallb (fun e => match e with EvRecv Upstream _ _ => true | _ => false end)
         evs = true.
Proof.
  intros Hopen Hrx Hne Hno Hend.
  replace (S (length (upstream_rx w)))
    with (length chunks + S (length rest))%nat
    by (rewrite Hrx, length_app, length_map; lia).
  rewrite (read_response_chunks chunks _ [] w rest Hopen Hrx Hne)
    by (intros _; exact Hno).
  cbn [app read_response].
  assert (Hall : forallb (fun e => match e with
                                   | EvRecv Upstream _ _ => true
                                   | _ => false
                                   end)
                   (map (fun c => EvRecv Upstream 4096 (RxData c)) chunks) = true).
  { clear. induction chunks; [reflexivity|exact IHchunks]. }
  destruct Hend as [Hc|(Hc & rest' & ->)]; rewrite Hc.
  - eexists _, rest. split; [reflexivity|exact Hall].
  - unfold bind at 1. unfold recv, usable.
    cbn [emit_all set_rx upstream_var rx_script upstream_rx]. rewrite Hopen.
    cbn [is_empty nonempty negb ret].
    exists (map (fun c => EvRecv Upstream 4096 (RxData c)) chunks
              ++ [EvRecv Upstream 4096 (RxData [])]), rest'.
    split.
    + f_equal. unfold emit_all, emit, set_rx. cbn. f_equal.
      rewrite <- !app_assoc. reflexivity.
    + now rewrite forallb_app, Hall.
Qed.


(** The handler and the [finally] block around a body add only writes to
    the error stream and closes. *)
Lemma session_emits (P : event -> bool) (m : M unit) :
  (forall l, P (EvStderr l) = true) -> (forall s, P (EvClose s) = true) ->
  along (emits P) m ->
  along (emits P)
    (call (try_finally (try_except m (fun e => stderr_write (MsgError e)))
             cleanup)).
Proof.
  intros Hs Hc Hm. emits_along along_call. emits_along along_try_finally.
  - emits_along along_try_except; [exact Hm|intros e; now apply emits_stderr].
  - apply along_cleanup; emits_side. now apply emits_close.
Qed.

Lemma forallb_impl {A} (P Q : A -> bool) l :
  (forall x, P x = true -> Q x = true) ->
  forallb P l = true -> forallb Q l = true.
Proof.
  intros H. induction l as [|x l IH]; [reflexivity|]. cbn [forallb].
  rewrite !andb_true_iff. intros [Hx Hl]. auto.
Qed.

(** C4.  In a CONNECT session whose request was forwarded, when the
    upstream sends [chunks] and these complete a header block, or the
    upstream closes after them, the handler writes the bytes of [chunks],
    as they are, to the client socket in one [sendall]; this is its only
    write to the client socket, and it comes before any thread is started
    and before anything is written to the error stream, whatever the bytes
    are. *)
Theorem negotiate_forwards_response (upstream_host : str)
  (upstream_port : Z) (auth_header : str) (w w1 : world) (rl : str)
  (chunks : list bytes) (rest : list rx) :
  fresh w ->
  forward_request upstream_host upstream_port auth_header w = (Normal rl, w1) ->
  is_connect rl = true ->
  upstream_rx w1 = map RxData chunks ++ rest ->
  Forall (fun c => c <> []) chunks ->
  contains CRLF2 (concat (removelast chunks)) = false ->
  contains CRLF2 (concat chunks) = true
  \/ (contains CRLF2 (concat chunks) = false
      /\ exists rest', rest = RxData [] :: rest') ->
  exists pre post,
    trace (snd (handle_client upstream_host upstream_port auth_header w))
    = pre ++ EvSendall Client (concat chunks) (hd TxOk (client_tx w1)) :: post
    /\ forallb before_decision pre = true
    /\ forallb no_client_send post = true.
Proof.
  intros (Hopen & Hunb & Htr) Efr Hconn Hrx Hne Hno Hend.
  destruct (forward_request_normal _ _ _ _ _ _ Efr) as [Hcl Hup].
  rewrite Hopen in Hcl.
  assert (H0 : emits before_decision w w1).
  { assert (Ha : along (emits before_decision)
                   (forward_request upstream_host upstream_port auth_header))
      by (emits_along along_forward_request).
    specialize (Ha w). now rewrite Efr in Ha. }
  destruct H0 as (evs0 & Ht0 & Hall0). rewrite Htr in Ht0. cbn [app] in Ht0.
  rewrite (handle_client_after_forward _ _ _ _ _ _ Efr), Hconn.
  destruct (read_response_done chunks rest w1 Hup Hrx Hne Hno Hend)
    as (evs_r & rest' & Er & Hall_r).
  set (w2 := emit_all evs_r (set_rx Upstream rest' w1)) in *.
  set (t := hd TxOk (client_tx w1)).
  set (w3 := emit (EvSendall Client (concat chunks) t)
               (set_tx Client (tl (client_tx w1)) w2)).
  assert (Ht3 : trace w3 = (evs0 ++ evs_r)
                             ++ [EvSendall Client (concat chunks) t]).
  { subst w3 w2. cbn. now rewrite Ht0. }
  assert (Hpre : forallb before_decision (evs0 ++ evs_r) = true).
  { rewrite forallb_app, Hall0. cbn [andb].
    revert Hall_r. apply forallb_impl.
    intros [[] ? ?| | | | | | | | |]; try discriminate; reflexivity. }
  assert (Hfin : forall m' : M unit,
            negotiate_tunnel w1 = m' w3 -> along (emits no_client_send) m' ->
            exists post,
              trace (snd (call (try_finally
                                  (try_except negotiate_tunnel
                                     (fun e => stderr_write (MsgError e)))
                                  cleanup) w1))
              = (evs0 ++ evs_r)
                  ++ EvSendall Client (concat chunks) t :: post
              /\ forallb no_client_send post = true).
  { intros m' Em Hm. rewrite (session_ext _ m' _ _ Em).
    destruct (session_emits no_client_send m' ltac:(reflexivity)
                ltac:(reflexivity) Hm w3) as (post & Hp & Hallp).
    exists post. split; [|exact Hallp].
    rewrite Hp, Ht3, <- app_assoc. reflexivity. }
  assert (En : negotiate_tunnel w1
               = (let (o, w') := sendall Client (concat chunks) w2 in
                  match o with
                  | Normal _ =>
                      (resp_line <-
                         lift (decode (hd [] (split CRLF (concat chunks)))) ;;
                       if contains (lit " 200 ") resp_line then
                         start (Pump Client Upstream) ;;
                         start (Pump Upstream Client) ;;
                         join (Pump Client Upstream) 300 ;;
                         join (Pump Upstream Client) 300
                       else stderr_write (MsgConnectFailed resp_line)) w'
                  | Returned => (Returned, w')
                  | Raised e => (Raised e, w')
                  | Hang => (Hang, w')
                  end)).
  { unfold negotiate_tunnel. unfold bind at 1 2. unfold get. rewrite Er.
    reflexivity. }
  unfold sendall, usable in En.
  replace (client_closed w2) with false in En by (subst w2; now cbn).
  replace (tx_script Client w2) with (client_tx w1) in En
    by (subst w2; reflexivity).
  fold t w3 in En. exists (evs0 ++ evs_r).
  destruct t eqn:Et.
  - destruct (Hfin _ En) as (post & Hp & Hallp).
    { emits_along along_decision. }
    exists post. repeat split; assumption.
  - destruct (Hfin (raise e) En) as (post & Hp & Hallp).
    { emits_along (@along_raise (emits no_client_send)). }
    exists post. repeat split; assumption.
  - destruct (Hfin hang En) as (post & Hp & Hallp).
    { emits_along (@along_hang (emits no_client_send)). }
    exists post. repeat split; assumption.
Qed.


Lemma status_200_contains line :
  status_200 line -> contains (lit " 200 ") line = true.
Proof.
  intros (version & reason & _ & ->). unfold contains.
  now destruct (cut_app_found (lit " 200 ") version reason) as (a & b & ->).
Qed.

(** Runs the computation on the right of [H] to its end. *)
Ltac run_in H :=
  match type of H with
  | ?r = ?big =>
      let big' := eval unfold bind, start, join, stderr_write, cleanup,
                    try_except, bind, close in big in
      let v := eval cbn in big' in
      let H' := fresh in
      assert (H' : big = v) by (vm_compute; reflexivity);
      rewrite H' in H; clear H'
  end.

(** C1, as the code has it.  In a CONNECT session whose request was
    forwarded and whose upstream response was read and written to the
    client: if the first line of the response is valid UTF-8 of the form
    [version SP 200 SP reason], the handler starts the two relay threads,
    waits for them and then closes both sockets; if the first line is not
    valid UTF-8 or does not hold the text [" 200 "], the handler writes
    the failure to the error stream, starts no thread, and closes both
    sockets. *)
Theorem negotiate_decides (upstream_host : str) (upstream_port : Z)
  (auth_header : str) (w w1 : world) (rl : str) (chunks : list bytes)
  (rest : list rx) :
  fresh w ->
  forward_request upstream_host upstream_port auth_header w = (Normal rl, w1) ->
  is_connect rl = true ->
  upstream_rx w1 = map RxData chunks ++ rest ->
  Forall (fun c => c <> []) chunks ->
  contains CRLF2 (concat (removelast chunks)) = false ->
  contains CRLF2 (concat chunks) = true
  \/ (contains CRLF2 (concat chunks) = false
      /\ exists rest', rest = RxData [] :: rest') ->
  hd TxOk (client_tx w1) = TxOk ->
  let r := handle_client upstream_host upstream_port auth_header w in
  let first_line := hd [] (split CRLF (concat chunks)) in
  exists pre,
    forallb before_decision pre = true
    /\ fst r = Normal tt
    /\ client_closed (snd r) = true
    /\ upstream_var (snd r) = Closed
    /\ ((exists resp_line,
           decode first_line = Ok resp_line /\ status_200 resp_line) ->
        trace (snd r)
        = pre ++ [EvSendall Client (concat chunks) TxOk;
                  EvStart (Pump Client Upstream);
                  EvStart (Pump Upstream Client);
                  EvJoin (Pump Client Upstream) 300
                    (join_result w1 (Pump Client Upstream));
                  EvJoin (Pump Upstream Client) 300
                    (join_result w1 (Pump Upstream Client));
                  EvClose Client; EvClose Upstream])
    /\ ((forall resp_line,
           decode first_line = Ok resp_line ->
           contains (lit " 200 ") resp_line = false) ->
        exists l,
          trace (snd r)
          = pre ++ [EvSendall Client (concat chunks) TxOk; EvStderr l;
                    EvClose Client; EvClose Upstream]).
Proof.
  intros (Hopen & Hunb & Htr) Efr Hconn Hrx Hne Hno Hend Htx r first_line.
  destruct (forward_request_normal _ _ _ _ _ _ Efr) as [Hcl Hup].
  rewrite Hopen in Hcl.
  assert (H0 : emits before_decision w w1).
  { assert (Ha : along (emits before_decision)
                   (forward_request upstream_host upstream_port auth_header))
      by (emits_along along_forward_request).
    specialize (Ha w). now rewrite Efr in Ha. }
  destruct H0 as (evs0 & Ht0 & Hall0). rewrite Htr in Ht0. cbn [app] in Ht0.
  subst r. rewrite (handle_client_after_forward _ _ _ _ _ _ Efr), Hconn.
  destruct (read_response_done chunks rest w1 Hup Hrx Hne Hno Hend)
    as (evs_r & rest' & Er & Hall_r).
  exists (evs0 ++ evs_r).
  split.
  { rewrite forallb_app, Hall0. cbn [andb].
    revert Hall_r. apply forallb_impl.
    intros [[] ? ?| | | | | | | | |]; try discriminate; reflexivity. }
  clear Efr.
  destruct w1 as [crx urx ctx utx sr cr shr jr cc uv tr].
  cbn [client_closed upstream_var trace upstream_rx client_tx join_result]
    in Hcl, Hup, Ht0, Hrx, Htx |- *.
  subst cc uv tr.
  match goal with
  | |- context [fst ?x] => remember x as res eqn:Eres
  end.
  unfold call, try_finally, try_except, negotiate_tunnel in Eres.
  unfold bind at 1 2 in Eres. unfold get in Eres. rewrite Er in Eres.
  unfold bind at 1 in Eres. unfold sendall, usable in Eres.
  cbn [emit_all set_rx client_closed tx_script client_tx] in Eres.
  rewrite Htx in Eres. fold first_line in Eres.
  unfold bind at 1 in Eres.
  destruct (decode first_line) as [resp_line|e] eqn:Ed;
    cbn [lift ret raise] in Eres.
  - destruct (contains (lit " 200 ") resp_line) eqn:Ec.
    + run_in Eres. subst res.
      cbn [fst snd client_closed upstream_var trace emit set_upstream_var
             set_client_closed].
      split; [reflexivity|split; [reflexivity|split; [reflexivity|split]]].
      * intros _. rewrite <- !app_assoc. reflexivity.
      * intros H. specialize (H resp_line eq_refl). congruence.
    + run_in Eres. subst res.
      cbn [fst snd client_closed upstream_var trace emit set_upstream_var
             set_client_closed].
      split; [reflexivity|split; [reflexivity|split; [reflexivity|split]]].
      * intros (s & Hs & H200). injection Hs as <-.
        apply status_200_contains in H200. congruence.
      * intros _. eexists. rewrite <- !app_assoc. reflexivity.
  - run_in Eres. subst res.
      cbn [fst snd client_closed upstream_var trace emit set_upstream_var
             set_client_closed].
    split; [reflexivity|split; [reflexivity|split; [reflexivity|split]]].
    + intros (s & Hs & _). discriminate.
    + intros _. eexists. rewrite <- !app_assoc. reflexivity.
Qed.

Lemma negotiate_forwards_response_witness :
  let w := session [RxData connect_request] [RxData response_407] in
  let w1 := snd (forward_request (lit "proxy") 3128 [] w) in
  exists pre post,
    trace (snd (handle_client (lit "proxy") 3128 [] w))
    = pre ++ EvSendall Client (concat [response_407]) (hd TxOk (client_tx w1))
          :: post
    /\ forallb before_decision pre = true
    /\ forallb no_client_send post = true.
Proof.
  intros w w1.
  apply (negotiate_forwards_response (lit "proxy") 3128 [] w w1
           (lit "CONNECT example.com:443 HTTP/1.1") [response_407] []).
  - repeat split.
  - vm_compute. reflexivity.
  - reflexivity.
  - reflexivity.
  - repeat constructor. discriminate.
  - reflexivity.
  - left. reflexivity.
Defined.

Lemma negotiate_decides_witness :
  let w := session [RxData connect_request] [RxData response_200] in
  let w1 := snd (forward_request (lit "proxy") 3128 [] w) in
  let r := handle_client (lit "proxy") 3128 [] w in
  let first_line := hd [] (split CRLF (concat [response_200])) in
  exists pre,
    forallb before_decision pre = true
    /\ fst r = Normal tt
    /\ client_closed (snd r) = true
    /\ upstream_var (snd r) = Closed
    /\ ((exists resp_line,
           decode first_line = Ok resp_line /\ status_200 resp_line) ->
        trace (snd r)
        = pre ++ [EvSendall Client (concat [response_200]) TxOk;
                  EvStart (Pump Client Upstream);
                  EvStart (Pump Upstream Client);
                  EvJoin (Pump Client Upstream) 300
                    (join_result w1 (Pump Client Upstream));
                  EvJoin (Pump Upstream Client) 300
                    (join_result w1 (Pump Upstream Client));
                  EvClose Client; EvClose Upstream])
    /\ ((forall resp_line,
           decode first_line = Ok resp_line ->
           contains (lit " 200 ") resp_line = false) ->
        exists l,
          trace (snd r)
          = pre ++ [EvSendall Client (concat [response_200]) TxOk; EvStderr l;
                    EvClose Client; EvClose Upstream]).
Proof.
  intros w w1.
  apply (negotiate_decides (lit "proxy") 3128 [] w w1
           (lit "CONNECT example.com:443 HTTP/1.1") [response_200] []).
  - repeat split.
  - vm_compute. reflexivity.
  - reflexivity.
  - reflexivity.
  - repeat constructor. discriminate.
  - reflexivity.
  - left. reflexivity.
  - reflexivity.
Defined.

(** C1 as stated fails in both directions.  A response with status 204 is
    in the range 200-299, yet the handler reports a failure and starts no
    thread; a response with status 407 whose reason phrase holds [" 200 "]
    is outside the range, yet the handler starts the relay and reports
    nothing. *)
Lemma connect_decision_is_not_by_range :
  (let r := handle_client (lit "proxy") 3128 []
              (session [RxData connect_request] [RxData response_204]) in
   decode (hd [] (split CRLF response_204)) = Ok (lit "HTTP/1.1 204 No Content")
   /\ carries_2xx (lit "HTTP/1.1 204 No Content") = true
   /\ forallb (fun e => negb (is_start e)) (trace (snd r)) = true
   /\ In (EvStderr (MsgConnectFailed (lit "HTTP/1.1 204 No Content")))
        (trace (snd r)))
  /\ (let r := handle_client (lit "proxy") 3128 []
                 (session [RxData connect_request] [RxData response_407_200]) in
      decode (hd [] (split CRLF response_407_200))
        = Ok (lit "HTTP/1.1 407 Expected 200 OK")
      /\ carries_2xx (lit "HTTP/1.1 407 Expected 200 OK") = false
      /\ In (EvStart (Pump Client Upstream)) (trace (snd r))
      /\ In (EvStart (Pump Upstream Client)) (trace (snd r))
      /\ forallb (fun e => negb (is_stderr e)) (trace (snd r)) = true).
Proof.
  split; vm_compute; repeat split; try reflexivity;
    repeat (first [left; reflexivity|right]).
Qed.

End Negotiation.

(** ** The rewritten header block *)

Section Lines.

Lemma contains_cons_false (sep : list N) x l :
  contains sep (x :: l) = false ->
  startswith (x :: l) sep = false /\ contains sep l = false.
Proof.
  unfold contains. cbn [cut]. destruct (startswith (x :: l) sep); [discriminate|].
  destruct (cut sep l) as [[a b]|]; [discriminate|]. now split.
Qed.

Lemma cut_crlf_app l r :
  contains CRLF l = false -> cut CRLF (l ++ CRLF ++ r) = Some (l, r).
Proof.
  induction l as [|x l IH]; intros H.
  - apply (cut_here CRLF r).
  - apply contains_cons_false in H as [Hs Hc]. cbn [app].
    rewrite cut_step.
    + now rewrite (IH Hc).
    + unfold CRLF in *. cbn [startswith] in *.
      destruct (x =? 13); [|reflexivity]. cbn [andb] in *.
      destruct l as [|y l]; [reflexivity|]. cbn [app].
      destruct (y =? 10); [discriminate|reflexivity].
Qed.

Lemma split_crlf_app l r :
  contains CRLF l = false -> split CRLF (l ++ CRLF ++ r) = l :: split CRLF r.
Proof.
  intros H. apply split_cut_Some; [discriminate|]. now apply cut_crlf_app.
Qed.

(** The parts of a split hold no separator. *)
Lemma split_parts_free (sep : list N) :
  sep <> [] ->
  forall s, Forall (fun l => contains sep l = false) (split sep s).
Proof.
  intros Hsep s. remember (length s) as n eqn:Hn.
  assert (Hle : (length s <= n)%nat) by lia. clear Hn. revert s Hle.
  induction n as [|n IH]; intros s Hle.
  - destruct s; [|simpl in Hle; lia]. rewrite split_cut_None by now apply cut_nil.
    constructor; [|constructor]. apply contains_false_cut. now apply cut_nil.
  - destruct (cut sep s) as [[a b]|] eqn:E.
    + rewrite (split_cut_Some _ _ _ _ Hsep E). constructor.
      * apply contains_false_cut. eapply cut_before; eauto.
      * apply IH. apply cut_length in E. destruct sep; [congruence|].
        simpl in E. lia.
    + rewrite (split_cut_None _ _ E). constructor; [|constructor].
      now apply contains_false_cut.
Qed.

Lemma split_unlines ls t :
  Forall (fun l => contains CRLF l = false) ls ->
  split CRLF (unlines ls ++ t) = ls ++ split CRLF t.
Proof.
  induction 1 as [|l ls Hl _ IH]; [reflexivity|].
  cbn [unlines flat_map app]. rewrite <- !app_assoc.
  rewrite split_crlf_app by assumption. f_equal. exact IH.
Qed.

Lemma fold_left_lines (others : list str) acc :
  fold_left (fun acc h => if nonempty h then acc ++ h ++ CRLF else acc)
    others acc
  = acc ++ unlines (filter nonempty others).
Proof.
  revert acc. induction others as [|h others IH]; intros acc.
  - cbn. now rewrite app_nil_r.
  - cbn [fold_left filter]. rewrite IH. destruct (nonempty h).
    + cbn [unlines flat_map]. now rewrite <- !app_assoc.
    + reflexivity.
Qed.

Lemma filter_filter {A} (f g : A -> bool) l :
  filter f (filter g l) = filter (fun x => f x && g x) l.
Proof.
  induction l as [|x l IH]; [reflexivity|]. cbn [filter].
  destruct (g x); cbn [filter]; rewrite ?IH, ?andb_true_r, ?andb_false_r;
    reflexivity.
Qed.

(** The new header block, line by line. *)
Lemma rewrite_headers_unlines auth_header request_line rest_lines :
  rewrite_headers auth_header request_line rest_lines
  = request_line ++ CRLF ++ auth_header
      ++ unlines (filter (fun l => nonempty l && negb (is_proxy_authorization l))
                    rest_lines)
      ++ CRLF.
Proof.
  unfold rewrite_headers. rewrite fold_left_lines, filter_filter.
  now rewrite <- !app_assoc.
Qed.


Lemma b64_char_in n : In (b64_char n) b64_alphabet.
Proof.
  unfold b64_char. apply nth_In.
  change (length b64_alphabet) with 64%nat.
  pose proof (N.mod_upper_bound n 64 ltac:(discriminate)). lia.
Qed.

Lemma b64encode_chars bs :
  Forall (fun c => In c (61 :: b64_alphabet)) (b64encode bs).
Proof.
  remember (length bs) as n eqn:Hn.
  assert (Hle : (length bs <= n)%nat) by lia. clear Hn. revert bs Hle.
  induction n as [|n IH]; intros bs Hle.
  - destruct bs; [constructor|simpl in Hle; lia].
  - destruct bs as [|a [|b [|c rest]]]; cbn [b64encode];
      repeat (constructor; [first [now left|right; apply b64_char_in]|]);
      try constructor.
    apply IH. simpl in Hle. lia.
Qed.

Lemma b64_plain c :
  In c (61 :: b64_alphabet) -> c < 128 /\ c <> 13 /\ c <> 10.
Proof.
  intros H.
  assert (Hall : forallb (fun c => (c <? 128) && negb (c =? 13) && negb (c =? 10))
                   (61 :: b64_alphabet) = true) by reflexivity.
  rewrite forallb_forall in Hall. specialize (Hall c H).
  rewrite !andb_true_iff, !negb_true_iff, N.ltb_lt, !N.eqb_neq in Hall. tauto.
Qed.

Lemma utf8_scan_ascii bs :
  Forall (fun c => c < 128) bs -> utf8_scan bs = map Some bs.
Proof.
  induction 1 as [|c bs Hc _ IH]; [reflexivity|]. cbn [utf8_scan map].
  destruct (N.ltb_spec c 128); [|lia]. now rewrite IH.
Qed.

Lemma all_some_map_Some {A} (l : list A) : all_some (map Some l) = Some l.
Proof. induction l as [|x l IH]; [reflexivity|]. cbn. now rewrite IH. Qed.

Lemma decode_ascii bs : Forall (fun c => c < 128) bs -> decode bs = Ok bs.
Proof.
  intros H. unfold decode. now rewrite (utf8_scan_ascii _ H), all_some_map_Some.
Qed.

(** The configured header is one line: the name, the scheme and the
    credentials in base 64, which hold neither CR nor LF. *)
Lemma make_auth_header_line user password auth_header :
  make_auth_header user password = Ok auth_header ->
  exists b64,
    auth_header = (lit "Proxy-Authorization: Basic " ++ b64) ++ CRLF
    /\ ~ In 13 b64.
Proof.
  unfold make_auth_header.
  destruct (encode _) as [raw|e]; cbn [res_bind]; [|discriminate].
  pose proof (b64encode_chars raw) as Hchars.
  rewrite decode_ascii.
  2:{ eapply Forall_impl; [|exact Hchars]. intros c Hc. now apply b64_plain. }
  cbn [res_bind]. intros H. injection H as <-. exists (b64encode raw).
  split; [now rewrite <- app_assoc|].
  intros Hin. rewrite Forall_forall in Hchars.
  apply Hchars, b64_plain in Hin. lia.
Qed.

Lemma no_cr_free l : ~ In 13 l -> contains CRLF l = false.
Proof.
  induction l as [|x l IH]; intros H; [reflexivity|].
  apply contains_false_cut. rewrite cut_step.
  - apply contains_false_cut in IH; [now rewrite IH|].
    intros Hin. apply H. now right.
  - cbn [startswith CRLF]. destruct (N.eqb_spec x 13); [|reflexivity].
    exfalso. apply H. now left.
Qed.

Lemma auth_line_is_proxy_authorization b64 :
  is_proxy_authorization (lit "Proxy-Authorization: Basic " ++ b64) = true.
Proof.
  unfold is_proxy_authorization, lower. rewrite flat_map_app.
  apply startswith_app_l. reflexivity.
Qed.

(** C3.  Let [headers] be a header block and [auth_header] the configured
    header: empty, or made by [make_auth_header].  Split at CR LF, the new
    header block consists of the request line as it was, then the
    configured line if there is one, then the non-empty lines that follow
    the request line and are not Proxy-Authorization lines, in their order,
    then the closing blank line (the last two empty parts).  Hence its
    Proxy-Authorization lines are: the configured one when [auth_header] is
    not empty, and none otherwise, however many the input has. *)
Lemma rewrite_headers_split (auth_header headers request_line : str)
  (rest_lines : list str) :
  configured auth_header ->
  first_and_rest (split CRLF headers) = Ok (request_line, rest_lines) ->
  let kept :=
    filter (fun l => nonempty l && negb (is_proxy_authorization l))
      rest_lines in
  exists auth_lines,
    (auth_header = [] /\ auth_lines = []
     \/ exists a, auth_header = a ++ CRLF /\ auth_lines = [a])
    /\ split CRLF (rewrite_headers auth_header request_line rest_lines)
       = request_line :: auth_lines ++ kept ++ [[]; []]
    /\ filter is_proxy_authorization (auth_lines ++ kept ++ [[]; []])
       = auth_lines.
Proof.
  intros Hconf Hsplit kept.
  assert (Hfree : Forall (fun l => contains CRLF l = false)
                    (request_line :: rest_lines)).
  { pose proof (split_parts_free CRLF ltac:(discriminate) headers) as H.
    destruct (split CRLF headers) as [|l ls]; [discriminate|].
    now injection Hsplit as <- <-. }
  inversion Hfree as [|? ? Hrl Hrest]; subst.
  assert (Hkfree : Forall (fun l => contains CRLF l = false) kept).
  { subst kept. rewrite Forall_forall in *. intros l Hl.
    apply filter_In in Hl as [Hl _]. auto. }
  assert (Hkpa : filter is_proxy_authorization (kept ++ [[]; []]) = []).
  { rewrite filter_app. cbn [filter]. rewrite app_nil_r. subst kept.
    rewrite filter_filter. clear. induction rest_lines as [|l ls IH];
      [reflexivity|]. cbn [filter].
    destruct (is_proxy_authorization l), (nonempty l); cbn [andb negb];
      exact IH. }
  rewrite rewrite_headers_unlines. fold kept.
  destruct Hconf as [->|(user & password & Hmk)].
  - exists []. split; [now left|]. split; [|exact Hkpa].
    cbn [app].
    change (request_line ++ CRLF ++ unlines kept ++ CRLF)
      with (request_line ++ CRLF ++ unlines kept ++ [] ++ CRLF).
    rewrite split_crlf_app by assumption. f_equal.
    rewrite split_unlines by assumption. reflexivity.
  - destruct (make_auth_header_line _ _ _ Hmk) as (b64 & -> & Hb64).
    set (a := lit "Proxy-Authorization: Basic " ++ b64).
    exists [a]. split; [right; now exists a|]. split.
    + rewrite split_crlf_app by assumption. f_equal.
      rewrite <- !app_assoc.
      change (a ++ CRLF ++ unlines kept ++ CRLF)
        with (a ++ CRLF ++ unlines kept ++ [] ++ CRLF).
      rewrite split_crlf_app.
      2:{ apply no_cr_free. subst a. intros Hin.
          apply in_app_or in Hin as [Hin|Hin]; [|auto].
          revert Hin. vm_compute. intuition discriminate. }
      cbn [app]. f_equal. rewrite split_unlines by assumption. reflexivity.
    + cbn [app filter]. subst a. rewrite auth_line_is_proxy_authorization.
      f_equal. exact Hkpa.
Qed.

End Lines.

(** ** UTF-8 *)

Section Utf8.

Lemma is_cont_ascii c : c < 128 -> is_cont c = false.
Proof.
  intros H. unfold is_cont. apply andb_false_iff. left. apply N.leb_gt. lia.
Qed.

(** An ASCII byte ends whatever sequence is being decoded and is decoded
    by itself: decoding goes through it. *)
Lemma utf8_scan_ascii_app c b : c < 128 ->
  forall a, utf8_scan (a ++ c :: b) = utf8_scan a ++ Some c :: utf8_scan b.
Proof.
  intros Hc.
  assert (Hlt : (c <? 128) = true) by now apply N.ltb_lt.
  assert (Hcont := is_cont_ascii c Hc).
  assert (Hhere : utf8_scan (c :: b) = Some c :: utf8_scan b).
  { cbn [utf8_scan]. now rewrite Hlt. }
  intros a. remember (length a) as n eqn:Hn.
  assert (Hle : (length a <= n)%nat) by lia. clear Hn. revert a Hle.
  induction n as [|n IH]; intros a Hle.
  - destruct a; [exact Hhere|simpl in Hle; lia].
  - assert (IH' : forall x a, (length (x :: a) <= n)%nat ->
              utf8_scan (x :: a ++ c :: b)
              = utf8_scan (x :: a) ++ Some c :: utf8_scan b).
    { intros x a0 H0. now apply (IH (x :: a0)). }
    destruct a as [|ch s1]; [exact Hhere|].
    cbn [app]. cbn [utf8_scan].
    destruct (ch <? 128); [rewrite IH by (cbn [length] in *; lia); reflexivity|].
    destruct (ch <? 194); [rewrite IH by (cbn [length] in *; lia); reflexivity|].
    destruct (ch <? 224).
    { destruct s1 as [|ch2 s2]; cbn [app].
      - rewrite Hcont, Hhere. reflexivity.
      - destruct (is_cont ch2).
        + rewrite IH by (cbn [length] in *; lia). reflexivity.
        + rewrite IH' by (cbn [length] in *; lia). reflexivity. }
    destruct (ch <? 240).
    { destruct s1 as [|ch2 s2]; cbn [app].
      - rewrite Hcont, Hhere. reflexivity.
      - destruct (negb (is_cont ch2) || _);
          [rewrite IH' by (cbn [length] in *; lia); reflexivity|].
        destruct s2 as [|ch3 s3]; cbn [app].
        + rewrite Hcont, Hhere. reflexivity.
        + destruct (is_cont ch3).
          * rewrite IH by (cbn [length] in *; lia). reflexivity.
          * rewrite IH' by (cbn [length] in *; lia). reflexivity. }
    destruct (ch <? 245).
    { destruct s1 as [|ch2 s2]; cbn [app].
      - rewrite Hcont, Hhere. reflexivity.
      - destruct (negb (is_cont ch2) || _);
          [rewrite IH' by (cbn [length] in *; lia); reflexivity|].
        destruct s2 as [|ch3 s3]; cbn [app].
        + rewrite Hcont, Hhere. reflexivity.
        + destruct (is_cont ch3); cbn [negb];
            [|rewrite IH' by (cbn [length] in *; lia); reflexivity].
          destruct s3 as [|ch4 s4]; cbn [app].
          * rewrite Hcont, Hhere. reflexivity.
          * destruct (is_cont ch4).
            -- rewrite IH by (cbn [length] in *; lia). reflexivity.
            -- rewrite IH' by (cbn [length] in *; lia). reflexivity. }
    rewrite IH by (cbn [length] in *; lia). reflexivity.
Qed.


Lemma is_cont_range b : is_cont b = true -> 128 <= b <= 191.
Proof. unfold is_cont. rewrite andb_true_iff, !N.leb_le. tauto. Qed.

Ltac divmod := zify; Z.to_euclidean_division_equations; lia.

Lemma encode_cp_2 ch ch2 :
  194 <= ch < 224 -> 128 <= ch2 <= 191 ->
  encode_cp ((ch - 192) * 64 + (ch2 - 128)) = Some [ch; ch2].
Proof.
  intros H1 H2. unfold encode_cp.
  set (c := (ch - 192) * 64 + (ch2 - 128)).
  assert (Hc : 128 <= c < 2048) by (subst c; lia).
  destruct (N.ltb_spec c 128); [lia|]. destruct (N.ltb_spec c 2048); [|lia].
  assert (c / 64 = ch - 192 /\ c mod 64 = ch2 - 128) as [-> ->]
    by (subst c; split; divmod).
  repeat f_equal; lia.
Qed.

Lemma encode_cp_3 ch ch2 ch3 :
  224 <= ch < 240 -> 128 <= ch2 <= 191 -> 128 <= ch3 <= 191 ->
  (ch = 224 -> 160 <= ch2) -> (ch = 237 -> ch2 < 160) ->
  encode_cp ((ch - 224) * 4096 + (ch2 - 128) * 64 + (ch3 - 128))
  = Some [ch; ch2; ch3].
Proof.
  intros H1 H2 H3 Hlo Hhi. unfold encode_cp.
  set (c := (ch - 224) * 4096 + (ch2 - 128) * 64 + (ch3 - 128)).
  assert (Hc : 2048 <= c < 65536) by (subst c; lia).
  assert (Hs : c < 55296 \/ 57343 < c) by (subst c; lia).
  destruct (N.ltb_spec c 128); [lia|]. destruct (N.ltb_spec c 2048); [lia|].
  destruct (N.ltb_spec c 65536); [|lia].
  replace ((55296 <=? c) && (c <=? 57343)) with false.
  2:{ symmetry. apply andb_false_iff. rewrite N.leb_gt, N.leb_gt. lia. }
  assert (c / 4096 = ch - 224 /\ (c / 64) mod 64 = ch2 - 128
          /\ c mod 64 = ch3 - 128) as (-> & -> & ->)
    by (subst c; repeat split; divmod).
  repeat f_equal; lia.
Qed.

Lemma encode_cp_4 ch ch2 ch3 ch4 :
  240 <= ch < 245 -> 128 <= ch2 <= 191 -> 128 <= ch3 <= 191 ->
  128 <= ch4 <= 191 ->
  (ch = 240 -> 144 <= ch2) -> (ch = 244 -> ch2 < 144) ->
  encode_cp ((ch - 240) * 262144 + (ch2 - 128) * 4096 + (ch3 - 128) * 64
             + (ch4 - 128))
  = Some [ch; ch2; ch3; ch4].
Proof.
  intros H1 H2 H3 H4 Hlo Hhi. unfold encode_cp.
  set (c := (ch - 240) * 262144 + (ch2 - 128) * 4096 + (ch3 - 128) * 64
            + (ch4 - 128)).
  assert (Hc : 65536 <= c < 1114112) by (subst c; lia).
  destruct (N.ltb_spec c 128); [lia|]. destruct (N.ltb_spec c 2048); [lia|].
  destruct (N.ltb_spec c 65536); [lia|].
  destruct (N.ltb_spec c 1114112); [|lia].
  assert (c / 262144 = ch - 240 /\ (c / 4096) mod 64 = ch2 - 128
          /\ (c / 64) mod 64 = ch3 - 128 /\ c mod 64 = ch4 - 128)
    as (-> & -> & -> & ->)
    by (subst c; repeat split; divmod).
  repeat f_equal; lia.
Qed.

(** One step of the decoder: it consumes a non-empty run of bytes and
    gives one item; a decoded code point is the one that encodes to the
    run, and an undecodable run consists of bytes above 127. *)
Lemma utf8_scan_step ch s1 :
  exists run rest item,
    ch :: s1 = run ++ rest
    /\ run <> []
    /\ utf8_scan (ch :: s1) = item :: utf8_scan rest
    /\ match item with
       | Some c =>
           encode_cp c = Some run
           /\ (c < 128 /\ run = [c] \/ 128 <= c /\ Forall (fun b => 128 <= b) run)
       | None => Forall (fun b => 128 <= b) run
       end.
Proof.
  cbn [utf8_scan].
  destruct (N.ltb_spec ch 128).
  { exists [ch], s1, (Some ch). repeat split; try discriminate.
    - unfold encode_cp. destruct (N.ltb_spec ch 128); [reflexivity|lia].
    - left. now split. }
  assert (Hbad : exists run rest item,
             ch :: s1 = run ++ rest /\ run <> []
             /\ None :: utf8_scan s1 = item :: utf8_scan rest
             /\ match item with
                | Some c =>
                    encode_cp c = Some run
                    /\ (c < 128 /\ run = [c]
                        \/ 128 <= c /\ Forall (fun b => 128 <= b) run)
                | None => Forall (fun b => 128 <= b) run
                end).
  { exists [ch], s1, None. repeat split; try discriminate.
    now repeat constructor. }
  destruct (N.ltb_spec ch 194); [exact Hbad|].
  destruct (N.ltb_spec ch 224).
  { destruct s1 as [|ch2 s2].
    - exists [ch], [], None. repeat split; try discriminate.
      now repeat constructor.
    - destruct (is_cont ch2) eqn:E2; [|exact Hbad].
      apply is_cont_range in E2.
      exists [ch; ch2], s2, (Some ((ch - 192) * 64 + (ch2 - 128))).
      repeat split; try discriminate; [apply encode_cp_2; lia|].
      right. split; [lia|repeat constructor; lia]. }
  destruct (N.ltb_spec ch 240).
  { destruct s1 as [|ch2 s2].
    - exists [ch], [], None. repeat split; try discriminate.
      now repeat constructor.
    - destruct (is_cont ch2) eqn:E2; cbn [negb orb]; [|exact Hbad].
      apply is_cont_range in E2.
      destruct (if ch2 <? 160 then ch =? 224 else ch =? 237) eqn:E;
        [exact Hbad|].
      assert (Hlo : ch = 224 -> 160 <= ch2).
      { intros ->. destruct (N.ltb_spec ch2 160); [discriminate|lia]. }
      assert (Hhi : ch = 237 -> ch2 < 160).
      { intros ->. destruct (N.ltb_spec ch2 160); [lia|discriminate]. }
      destruct s2 as [|ch3 s3].
      + exists [ch; ch2], [], None. repeat split; try discriminate.
        repeat constructor; lia.
      + destruct (is_cont ch3) eqn:E3.
        * apply is_cont_range in E3.
          exists [ch; ch2; ch3], s3,
            (Some ((ch - 224) * 4096 + (ch2 - 128) * 64 + (ch3 - 128))).
          repeat split; try discriminate; [apply encode_cp_3; lia|].
          right. split; [lia|repeat constructor; lia].
        * exists [ch; ch2], (ch3 :: s3), None.
          repeat split; try discriminate. repeat constructor; lia. }
  destruct (N.ltb_spec ch 245); [|exact Hbad].
  destruct s1 as [|ch2 s2].
  - exists [ch], [], None. repeat split; try discriminate.
    now repeat constructor.
  - destruct (is_cont ch2) eqn:E2; cbn [negb orb]; [|exact Hbad].
    apply is_cont_range in E2.
    destruct (if ch2 <? 144 then ch =? 240 else ch =? 244) eqn:E;
      [exact Hbad|].
    assert (Hlo : ch = 240 -> 144 <= ch2).
    { intros ->. destruct (N.ltb_spec ch2 144); [discriminate|lia]. }
    assert (Hhi : ch = 244 -> ch2 < 144).
    { intros ->. destruct (N.ltb_spec ch2 144); [lia|discriminate]. }
    destruct s2 as [|ch3 s3].
    + exists [ch; ch2], [], None. repeat split; try discriminate.
      repeat constructor; lia.
    + destruct (is_cont ch3) eqn:E3; cbn [negb].
      2:{ exists [ch; ch2], (ch3 :: s3), None.
          repeat split; try discriminate. repeat constructor; lia. }
      apply is_cont_range in E3.
      destruct s3 as [|ch4 s4].
      * exists [ch; ch2; ch3], [], None. repeat split; try discriminate.
        repeat constructor; lia.
      * destruct (is_cont ch4) eqn:E4.
        -- apply is_cont_range in E4.
           exists [ch; ch2; ch3; ch4], s4,
             (Some ((ch - 240) * 262144 + (ch2 - 128) * 4096
                    + (ch3 - 128) * 64 + (ch4 - 128))).
           repeat split; try discriminate; [apply encode_cp_4; lia|].
           right. split; [lia|repeat constructor; lia].
        -- exists [ch; ch2; ch3], (ch4 :: s4), None.
           repeat split; try discriminate. repeat constructor; lia.
Qed.


Lemma length_ind (P : list N -> Prop) :
  (forall s, (forall t, (length t < length s)%nat -> P t) -> P s) ->
  forall s, P s.
Proof.
  intros H s. remember (length s) as n eqn:Hn.
  assert (Hle : (length s <= n)%nat) by lia. clear Hn. revert s Hle.
  induction n as [|n IH]; intros s Hle; apply H; intros t Ht.
  - lia.
  - apply IH. lia.
Qed.

Lemma run_shorter (run rest : list N) ch s1 :
  ch :: s1 = run ++ rest -> run <> [] ->
  (length rest < length (ch :: s1))%nat.
Proof.
  intros -> Hne. rewrite length_app. destruct run; [congruence|]. simpl. lia.
Qed.

Lemma all_some_app {A} (l1 l2 : list (option A)) :
  all_some (l1 ++ l2)
  = match all_some l1, all_some l2 with
    | Some a, Some b => Some (a ++ b)
    | _, _ => None
    end.
Proof.
  induction l1 as [|[x|] l1 IH]; cbn [app all_some].
  - now destruct (all_some l2).
  - rewrite IH. destruct (all_some l1), (all_some l2); reflexivity.
  - reflexivity.
Qed.

Lemma all_some_default {A} (d : A) (l : list (option A)) t :
  all_some l = Some t ->
  map (fun o => match o with Some c => c | None => d end) l = t.
Proof.
  revert t. induction l as [|[x|] l IH]; intros t H; cbn in *.
  - now injection H as <-.
  - destruct (all_some l); [|discriminate]. injection H as <-.
    now rewrite (IH _ eq_refl).
  - discriminate.
Qed.

(** Valid text is decoded the same way by both decoders. *)
Lemma decode_decode_replace bs t : decode bs = Ok t -> decode_replace bs = t.
Proof.
  unfold decode, decode_replace.
  destruct (all_some (utf8_scan bs)) eqn:E; [|discriminate].
  intros H. injection H as <-. now apply all_some_default.
Qed.

Lemma encode_app s t :
  encode (s ++ t) = (a <-- encode s ; b <-- encode t ; Ok (a ++ b)).
Proof.
  induction s as [|c s IH]; cbn [app encode res_bind].
  - now destruct (encode t).
  - destruct (encode_cp c) as [r|]; [|reflexivity]. rewrite IH.
    destruct (encode s) as [a|e]; cbn [res_bind]; [|reflexivity].
    destruct (encode t) as [b|e]; cbn [res_bind]; [|reflexivity].
    now rewrite app_assoc.
Qed.

Lemma encode_cp_replacement : encode_cp REPLACEMENT = Some [239; 191; 189].
Proof. reflexivity. Qed.

(** What was decoded with replacement can always be encoded. *)
Lemma reencode_ok : forall bs, exists out, encode (decode_replace bs) = Ok out.
Proof.
  apply (length_ind (fun bs => exists out, encode (decode_replace bs) = Ok out)).
  intros [|ch s1] IH; [now exists []|].
  destruct (utf8_scan_step ch s1) as (run & rest & item & Hs & Hne & Hscan & Hit).
  destruct (IH rest (run_shorter _ _ _ _ Hs Hne)) as (out & Hout).
  unfold decode_replace in *. rewrite Hscan. cbn [map encode].
  destruct item as [c|].
  - destruct Hit as [-> _]. rewrite Hout. cbn [res_bind]. eauto.
  - rewrite encode_cp_replacement, Hout. cbn [res_bind]. eauto.
Qed.

(** Valid UTF-8, decoded and encoded again, is unchanged. *)
Lemma decode_encode : forall bs t, decode bs = Ok t -> encode t = Ok bs.
Proof.
  apply (length_ind (fun bs => forall t, decode bs = Ok t -> encode t = Ok bs)).
  intros [|ch s1] IH t.
  - cbn. intros H. now injection H as <-.
  - destruct (utf8_scan_step ch s1) as (run & rest & item & Hs & Hne & Hscan & Hit).
    specialize (IH rest (run_shorter _ _ _ _ Hs Hne)).
    unfold decode in *. rewrite Hscan. cbn [all_some].
    destruct item as [c|]; [|discriminate]. destruct Hit as [Hc _].
    destruct (all_some (utf8_scan rest)) as [t'|]; [|discriminate].
    intros H. injection H as <-. cbn [encode]. rewrite Hc.
    rewrite (IH t' eq_refl). cbn [res_bind]. now rewrite Hs.
Qed.


Lemma ltb_false a b : b <= a -> (a <? b) = false.
Proof. intros H. now apply N.ltb_ge. Qed.

Lemma ltb_true a b : a < b -> (a <? b) = true.
Proof. intros H. now apply N.ltb_lt. Qed.

Lemma is_cont_true b : 128 <= b <= 191 -> is_cont b = true.
Proof.
  intros H. unfold is_cont. apply andb_true_iff. rewrite !N.leb_le. lia.
Qed.

(** The bytes of an encoded code point are decoded to that code point. *)
Lemma utf8_scan_encoded c run r :
  encode_cp c = Some run -> utf8_scan (run ++ r) = Some c :: utf8_scan r.
Proof.
  unfold encode_cp.
  destruct (N.ltb_spec c 128).
  { intros H0. injection H0 as <-. cbn [app utf8_scan].
    now rewrite ltb_true. }
  destruct (N.ltb_spec c 2048).
  { set (b1 := 192 + c / 64). set (b2 := 128 + c mod 64).
    assert (Hb1 : 194 <= b1 < 224) by (subst b1; divmod).
    assert (Hb2 : 128 <= b2 <= 191) by (subst b2; divmod).
    assert (Hv : (b1 - 192) * 64 + (b2 - 128) = c) by (subst b1 b2; divmod).
    clearbody b1 b2. intros E. injection E as <-. cbn [app utf8_scan].
    rewrite (ltb_false b1 128), (ltb_false b1 194), (ltb_true b1 224) by lia.
    rewrite is_cont_true by lia. now rewrite Hv. }
  destruct (N.ltb_spec c 65536).
  { destruct ((55296 <=? c) && (c <=? 57343)) eqn:Es; [discriminate|].
    apply andb_false_iff in Es. rewrite !N.leb_gt in Es.
    set (b1 := 224 + c / 4096). set (b2 := 128 + (c / 64) mod 64).
    set (b3 := 128 + c mod 64).
    assert (Hb1 : 224 <= b1 < 240) by (subst b1; divmod).
    assert (Hb2 : 128 <= b2 <= 191) by (subst b2; divmod).
    assert (Hb3 : 128 <= b3 <= 191) by (subst b3; divmod).
    assert (Hlo : b1 = 224 -> 160 <= b2) by (subst b1 b2; divmod).
    assert (Hhi : b1 = 237 -> b2 < 160) by (subst b1 b2; divmod).
    assert (Hv : (b1 - 224) * 4096 + (b2 - 128) * 64 + (b3 - 128) = c)
      by (subst b1 b2 b3; divmod).
    clearbody b1 b2 b3. intros E. injection E as <-. cbn [app utf8_scan].
    rewrite (ltb_false b1 128), (ltb_false b1 194), (ltb_false b1 224),
      (ltb_true b1 240) by lia.
    rewrite (is_cont_true b2), (is_cont_true b3) by lia. cbn [negb orb].
    replace (if b2 <? 160 then b1 =? 224 else b1 =? 237) with false.
    2:{ symmetry. destruct (N.ltb_spec b2 160); apply N.eqb_neq; lia. }
    now rewrite Hv. }
  destruct (N.ltb_spec c 1114112); [|discriminate].
  set (b1 := 240 + c / 262144). set (b2 := 128 + (c / 4096) mod 64).
  set (b3 := 128 + (c / 64) mod 64). set (b4 := 128 + c mod 64).
  assert (Hb1 : 240 <= b1 < 245) by (subst b1; divmod).
  assert (Hb2 : 128 <= b2 <= 191) by (subst b2; divmod).
  assert (Hb3 : 128 <= b3 <= 191) by (subst b3; divmod).
  assert (Hb4 : 128 <= b4 <= 191) by (subst b4; divmod).
  assert (Hlo : b1 = 240 -> 144 <= b2) by (subst b1 b2; divmod).
  assert (Hhi : b1 = 244 -> b2 < 144) by (subst b1 b2; divmod).
  assert (Hv : (b1 - 240) * 262144 + (b2 - 128) * 4096 + (b3 - 128) * 64
               + (b4 - 128) = c)
    by (subst b1 b2 b3 b4; divmod).
  clearbody b1 b2 b3 b4. intros E. injection E as <-. cbn [app utf8_scan].
  rewrite (ltb_false b1 128), (ltb_false b1 194), (ltb_false b1 224),
    (ltb_false b1 240), (ltb_true b1 245) by lia.
  rewrite (is_cont_true b2), (is_cont_true b3), (is_cont_true b4) by lia.
  cbn [negb orb].
  replace (if b2 <? 144 then b1 =? 240 else b1 =? 244) with false.
  2:{ symmetry. destruct (N.ltb_spec b2 144); apply N.eqb_neq; lia. }
  now rewrite Hv.
Qed.

(** Encoded text is valid UTF-8 and decodes to itself. *)
Lemma encode_decode t : forall bs, encode t = Ok bs -> decode bs = Ok t.
Proof.
  induction t as [|c t IH]; intros bs; cbn [encode].
  - intros H. now injection H as <-.
  - destruct (encode_cp c) as [run|] eqn:Ec; [|discriminate].
    destruct (encode t) as [r|e]; cbn [res_bind]; [|discriminate].
    intros H. injection H as <-. specialize (IH r eq_refl).
    unfold decode in *. rewrite (utf8_scan_encoded _ _ _ Ec). cbn [all_some].
    destruct (all_some (utf8_scan r)); [|discriminate].
    now injection IH as ->.
Qed.


Lemma decode_replace_ascii_app a c b :
  c < 128 ->
  decode_replace (a ++ c :: b) = decode_replace a ++ c :: decode_replace b.
Proof.
  intros Hc. unfold decode_replace.
  now rewrite (utf8_scan_ascii_app c b Hc a), map_app.
Qed.

Lemma decode_replace_crlf_app a b :
  decode_replace (a ++ CRLF ++ b)
  = decode_replace a ++ CRLF ++ decode_replace b.
Proof.
  unfold CRLF. cbn [app].
  rewrite (decode_replace_ascii_app a 13 (10 :: b)) by lia. reflexivity.
Qed.

(** The first code point is an ASCII character only if the first byte is
    that character. *)
Lemma decode_replace_hd_ascii s c t :
  c < 128 -> decode_replace s = c :: t -> exists s', s = c :: s'.
Proof.
  intros Hc. destruct s as [|ch s1]; [discriminate|].
  destruct (utf8_scan_step ch s1) as (run & rest & item & Hs & Hne & Hscan & Hit).
  unfold decode_replace. rewrite Hscan. cbn [map]. intros H.
  injection H as Hd _. destruct item as [c'|].
  - subst c'. destruct Hit as [_ [[_ ->]|[Hge _]]]; [|lia].
    rewrite Hs. now exists rest.
  - unfold REPLACEMENT in Hd. lia.
Qed.

Lemma decode_replace_nonempty s : s <> [] -> decode_replace s <> [].
Proof.
  destruct s as [|ch s1]; [congruence|]. intros _.
  destruct (utf8_scan_step ch s1) as (run & rest & item & _ & _ & Hscan & _).
  unfold decode_replace. rewrite Hscan. discriminate.
Qed.

Lemma cut_skip_high run t :
  Forall (fun b => 128 <= b) run ->
  cut CRLF (run ++ t)
  = match cut CRLF t with
    | Some (a, b) => Some (run ++ a, b)
    | None => None
    end.
Proof.
  induction 1 as [|x run Hx _ IH]; cbn [app].
  - now destruct (cut CRLF t) as [[a b]|].
  - rewrite cut_step, IH.
    + now destruct (cut CRLF t) as [[a b]|].
    + cbn [CRLF startswith]. destruct (N.eqb_spec x 13); [lia|reflexivity].
Qed.

(** Cutting at CR LF before or after decoding gives the same parts. *)
Lemma cut_crlf_decode_replace : forall s,
  cut CRLF (decode_replace s)
  = match cut CRLF s with
    | Some (a, b) => Some (decode_replace a, decode_replace b)
    | None => None
    end.
Proof.
  apply (length_ind (fun s => cut CRLF (decode_replace s) = _)).
  intros [|ch s1] IH; [reflexivity|].
  destruct (utf8_scan_step ch s1) as (run & rest & item & Hs & Hne & Hscan & Hit).
  specialize (IH rest (run_shorter _ _ _ _ Hs Hne)).
  assert (Hd : exists d, decode_replace (ch :: s1) = d :: decode_replace rest
                /\ (d < 128 /\ run = [d]
                    \/ 128 <= d /\ Forall (fun b => 128 <= b) run)).
  { unfold decode_replace. rewrite Hscan. cbn [map]. destruct item as [c|].
    - exists c. split; [reflexivity|]. tauto.
    - exists REPLACEMENT. split; [reflexivity|]. right.
      split; [unfold REPLACEMENT; lia|assumption]. }
  destruct Hd as (d & Hdec & Hkind). rewrite Hs in *. clear Hs Hscan Hit.
  assert (Hpre : forall a b, rest = a ++ CRLF ++ b ->
            decode_replace (run ++ a) = d :: decode_replace a).
  { intros a b ->. rewrite app_assoc, !decode_replace_crlf_app in Hdec.
    rewrite app_comm_cons in Hdec. now apply app_inv_tail in Hdec. }
  rewrite Hdec.
  destruct Hkind as [[Hlt ->]|[Hge Hhigh]].
  - (* an ASCII character *)
    cbn [app]. destruct (startswith (d :: rest) CRLF) eqn:Eb.
    + apply startswith_inv in Eb as (r & Er). injection Er as -> ->.
      change (13 :: 10 :: r) with (CRLF ++ r). rewrite (cut_here CRLF r).
      change (13 :: decode_replace (10 :: r))
        with (CRLF ++ decode_replace r).
      now rewrite (cut_here CRLF (decode_replace r)).
    + rewrite (cut_step CRLF d rest Eb), cut_step, IH.
      * destruct (cut CRLF rest) as [[a b]|] eqn:Ec; [|reflexivity].
        apply cut_Some in Ec. now rewrite <- (Hpre a b Ec).
      * cbn [CRLF startswith] in *. destruct (d =? 13) eqn:E13; [|reflexivity].
        cbn [andb] in *. destruct (decode_replace rest) as [|y t] eqn:Er;
          [reflexivity|]. destruct (N.eqb_spec y 10) as [->|]; [|reflexivity].
        apply decode_replace_hd_ascii in Er as (s' & ->); [|lia].
        cbn in Eb. discriminate.
  - (* a code point above 127 *)
    rewrite (cut_skip_high run rest Hhigh), cut_step, IH.
    + destruct (cut CRLF rest) as [[a b]|] eqn:Ec; [|reflexivity].
      apply cut_Some in Ec. now rewrite <- (Hpre a b Ec).
    + cbn [CRLF startswith]. destruct (N.eqb_spec d 13); [lia|reflexivity].
Qed.

(** The lines of the decoded block are the decoded lines of the block. *)
Lemma split_crlf_decode_replace : forall s,
  split CRLF (decode_replace s) = map decode_replace (split CRLF s).
Proof.
  apply (length_ind (fun s => split CRLF (decode_replace s) = _)).
  intros s IH. pose proof (cut_crlf_decode_replace s) as Hc.
  destruct (cut CRLF s) as [[a b]|] eqn:E.
  - rewrite (split_cut_Some CRLF _ _ _ ltac:(discriminate) Hc).
    rewrite (split_cut_Some CRLF _ _ _ ltac:(discriminate) E).
    cbn [map]. f_equal. apply IH. apply cut_length in E. simpl in E. lia.
  - now rewrite (split_cut_None _ _ Hc), (split_cut_None _ _ E).
Qed.

End Utf8.

(** ** The header bytes that reach the upstream *)

Section Reencoding.

Lemma encode_reencoded l : encode (decode_replace l) = Ok (reencoded l).
Proof.
  unfold reencoded. now destruct (reencode_ok l) as (out & ->).
Qed.

Lemma reencoded_valid l : valid_utf8 (reencoded l).
Proof.
  exists (decode_replace l). apply encode_decode, encode_reencoded.
Qed.

(** A line passes unchanged exactly when it is valid UTF-8. *)
Lemma reencoded_same l : reencoded l = l <-> valid_utf8 l.
Proof.
  split.
  - intros H. rewrite <- H. apply reencoded_valid.
  - intros (t & Ht). pose proof (encode_reencoded l) as He.
    rewrite (decode_decode_replace _ _ Ht), (decode_encode _ _ Ht) in He.
    now injection He.
Qed.

(** A line that is not valid UTF-8 is decoded to a text that holds
    U+FFFD. *)
Lemma invalid_replaced l : ~ valid_utf8 l -> In REPLACEMENT (decode_replace l).
Proof.
  unfold valid_utf8, decode, decode_replace. intros H.
  induction (utf8_scan l) as [|[c|] items IH]; cbn [all_some map] in *.
  - exfalso. apply H. eauto.
  - right. apply IH. intros (t & Ht). apply H.
    destruct (all_some items); [eauto|discriminate].
  - now left.
Qed.

Lemma encode_ascii s : Forall (fun c => c < 128) s -> encode s = Ok s.
Proof.
  induction 1 as [|c s Hc _ IH]; [reflexivity|]. cbn [encode].
  unfold encode_cp. destruct (N.ltb_spec c 128); [|lia]. now rewrite IH.
Qed.

Lemma encode_CRLF : encode CRLF = Ok CRLF.
Proof. reflexivity. Qed.

Lemma encode_unlines K :
  encode (unlines (map decode_replace K)) = Ok (unlines (map reencoded K)).
Proof.
  induction K as [|l K IH]; [reflexivity|].
  cbn [map unlines flat_map]. rewrite !encode_app, encode_reencoded.
  cbn [res_bind]. rewrite encode_CRLF.
  cbn [res_bind]. fold (unlines (map decode_replace K)). rewrite IH.
  reflexivity.
Qed.

Lemma filter_map {A B} (f : B -> bool) (g : A -> B) l :
  filter f (map g l) = map g (filter (fun x => f (g x)) l).
Proof.
  induction l as [|x l IH]; [reflexivity|]. cbn [map filter].
  destruct (f (g x)); cbn [map]; now rewrite IH.
Qed.

Lemma nonempty_decode_replace l : nonempty (decode_replace l) = nonempty l.
Proof.
  destruct l as [|c l]; [reflexivity|].
  pose proof (decode_replace_nonempty (c :: l) ltac:(discriminate)).
  destruct (decode_replace (c :: l)); [congruence|reflexivity].
Qed.

Lemma split_not_nil sep s : split sep s <> [].
Proof.
  unfold split. destruct (length s); cbn [split_n]; [discriminate|].
  destruct (cut sep s) as [[a b]|]; discriminate.
Qed.

(** The header bytes sent upstream: every retained line is decoded with
    replacement and encoded again, and empty lines are left out. *)
Lemma header_bytes_lines auth_header auth_bytes head l0 ls :
  encode auth_header = Ok auth_bytes ->
  retained head = l0 :: ls ->
  header_bytes auth_header head
  = Ok (reencoded l0 ++ CRLF ++ auth_bytes
          ++ unlines (map reencoded (filter nonempty ls)) ++ CRLF).
Proof.
  intros Hauth Hret. unfold header_bytes, retained in *.
  rewrite split_crlf_decode_replace.
  destruct (split CRLF head) as [|l0' ls']; [discriminate|].
  injection Hret as -> <-. cbn [map first_and_rest res_bind].
  rewrite rewrite_headers_unlines, filter_map.
  rewrite !encode_app, encode_reencoded. cbn [res_bind].
  rewrite encode_CRLF. cbn [res_bind].
  rewrite Hauth. cbn [res_bind]. rewrite encode_unlines. cbn [res_bind].
  rewrite filter_filter. unfold is_auth_line.
  rewrite (filter_ext _ (fun x => nonempty x
             && negb (is_proxy_authorization (decode_replace x))));
    [reflexivity|].
  intros l. now rewrite nonempty_decode_replace.
Qed.


(** Validity splits at every ASCII character. *)
Lemma valid_ascii_app a c b :
  c < 128 -> valid_utf8 (a ++ c :: b) <-> valid_utf8 a /\ valid_utf8 b.
Proof.
  intros Hc. unfold valid_utf8, decode.
  rewrite (utf8_scan_ascii_app c b Hc a), all_some_app. cbn [all_some].
  destruct (all_some (utf8_scan a)) as [ta|], (all_some (utf8_scan b)) as [tb|].
  - split; eauto.
  - split; [intros (t & Ht); discriminate|intros (_ & t & Ht); discriminate].
  - split; [intros (t & Ht); discriminate|intros ((t & Ht) & _); discriminate].
  - split; [intros (t & Ht); discriminate|intros ((t & Ht) & _); discriminate].
Qed.

Lemma valid_nil : valid_utf8 [].
Proof. now exists []. Qed.

Lemma valid_crlf_app a b :
  valid_utf8 (a ++ CRLF ++ b) <-> valid_utf8 a /\ valid_utf8 b.
Proof.
  unfold CRLF. cbn [app]. rewrite (valid_ascii_app a 13 (10 :: b)) by lia.
  rewrite (valid_ascii_app [] 10 b) by lia. pose proof valid_nil. tauto.
Qed.

Lemma valid_ascii_prefix a b :
  Forall (fun c => c < 128) a -> valid_utf8 (a ++ b) <-> valid_utf8 b.
Proof.
  induction 1 as [|c a Hc _ IH]; [reflexivity|]. cbn [app].
  rewrite (valid_ascii_app [] c (a ++ b)) by exact Hc.
  pose proof valid_nil. tauto.
Qed.

Lemma valid_unlines ls t :
  valid_utf8 (unlines ls ++ t) <-> Forall valid_utf8 ls /\ valid_utf8 t.
Proof.
  induction ls as [|l ls IH]; cbn [unlines flat_map app].
  - split; [now split|tauto].
  - fold (unlines ls). rewrite <- !app_assoc, valid_crlf_app, IH.
    split.
    + intros (Hl & Hls & Ht). split; [now constructor|exact Ht].
    + intros (Hall & Ht). inversion Hall; subst. tauto.
Qed.

Lemma configured_ascii auth_header :
  configured auth_header -> Forall (fun c => c < 128) auth_header.
Proof.
  intros [->|(user & password & H)]; [constructor|].
  assert (Hlit : Forall (fun c => c < 128) (lit "Proxy-Authorization: Basic ")).
  { apply Forall_forall. intros c Hc.
    assert (Hall : forallb (fun c => c <? 128)
                     (lit "Proxy-Authorization: Basic ") = true) by reflexivity.
    rewrite forallb_forall in Hall. now apply N.ltb_lt, Hall. }
  revert H. unfold make_auth_header.
  destruct (encode _) as [raw|e]; cbn [res_bind]; [|discriminate].
  pose proof (b64encode_chars raw) as Hchars.
  assert (Hp : Forall (fun c => c < 128) (b64encode raw)).
  { eapply Forall_impl; [|exact Hchars]. intros c Hc. now apply b64_plain. }
  rewrite (decode_ascii _ Hp). cbn [res_bind].
  generalize (lit "Proxy-Authorization: Basic ") Hlit. intros pre Hpre H.
  injection H as <-.
  apply Forall_app. split; [exact Hpre|].
  apply Forall_app. split; [exact Hp|]. repeat constructor.
Qed.

Lemma unlines_length_filter (f : list N -> bool) ls :
  (length (unlines (filter f ls)) <= length (unlines ls))%nat.
Proof.
  induction ls as [|l ls IH]; [reflexivity|].
  cbn [filter unlines flat_map]. fold (unlines ls).
  destruct (f l); cbn [unlines flat_map]; fold (unlines (filter f ls));
    rewrite ?length_app; lia.
Qed.

(** Leaving the empty lines out changes the block unless there is none. *)
Lemma unlines_filter_nonempty ls t :
  unlines (filter nonempty ls) ++ t = unlines ls ++ t ->
  Forall (fun l => l <> []) ls.
Proof.
  induction ls as [|l ls IH]; intros H; [constructor|].
  destruct l as [|c l].
  - exfalso. cbn [filter nonempty unlines flat_map app] in H.
    fold (unlines ls) in H. fold (unlines (filter nonempty ls)) in H.
    apply (f_equal (@length N)) in H. cbn [length] in H.
    rewrite !length_app in H.
    pose proof (unlines_length_filter nonempty ls). cbn [CRLF length] in H. lia.
  - constructor; [discriminate|]. apply IH.
    cbn [filter nonempty unlines flat_map] in H.
    fold (unlines ls) in H. fold (unlines (filter nonempty ls)) in H.
    rewrite <- !app_assoc in H. do 2 apply app_inv_head in H. exact H.
Qed.

Lemma filter_nonempty_all ls :
  Forall (fun l : list N => l <> []) ls -> filter nonempty ls = ls.
Proof.
  induction 1 as [|l ls Hl _ IH]; [reflexivity|]. cbn [filter].
  destruct l; [congruence|]. cbn [nonempty]. now rewrite IH.
Qed.

Lemma map_reencoded_valid ls :
  Forall valid_utf8 ls -> map reencoded ls = ls.
Proof.
  induction 1 as [|l ls Hl _ IH]; [reflexivity|]. cbn [map].
  rewrite IH. f_equal. now apply reencoded_same.
Qed.

Lemma header_bytes_valid auth_header head out :
  header_bytes auth_header head = Ok out -> valid_utf8 out.
Proof.
  unfold header_bytes.
  destruct (first_and_rest _) as [[request_line rest_lines]|e];
    cbn [res_bind]; [|discriminate].
  intros H. eexists. apply encode_decode. exact H.
Qed.

(** C10.  Let [auth_header] be the configured header and [head] the bytes
    of a header block, [l0] its request line and [ls] the lines after it
    that are not Proxy-Authorization lines.  The header bytes for the
    upstream are: [l0] decoded with replacement and encoded again, CR LF,
    the configured header, each non-empty line of [ls] decoded with
    replacement and encoded again and followed by CR LF, and a last CR LF.
    A line comes out as it was exactly when it is valid UTF-8, and a line
    that is not valid UTF-8 is decoded to a text that holds U+FFFD.  Hence
    the header bytes are the original lines [l0 :: ls] with the configured
    header exactly when all of these lines are valid UTF-8 and no line of
    [ls] is empty.  The bytes of the Proxy-Authorization lines of [head]
    play no part: they are not sent. *)
Theorem header_bytes_reencoded (auth_header : str) (head : bytes) :
  configured auth_header ->
  exists auth_bytes l0 ls,
    encode auth_header = Ok auth_bytes
    /\ retained head = l0 :: ls
    /\ header_bytes auth_header head
       = Ok (reencoded l0 ++ CRLF ++ auth_bytes
               ++ unlines (map reencoded (filter nonempty ls)) ++ CRLF)
    /\ (forall l,
          encode (decode_replace l) = Ok (reencoded l)
          /\ (reencoded l = l <-> valid_utf8 l)
          /\ (~ valid_utf8 l -> In REPLACEMENT (decode_replace l)))
    /\ (header_bytes auth_header head = Ok (original_bytes auth_bytes head)
        <-> Forall valid_utf8 (l0 :: ls) /\ Forall (fun l => l <> []) ls).
Proof.
  intros Hconf. pose proof (configured_ascii _ Hconf) as Hascii.
  pose proof (encode_ascii _ Hascii) as Hauth.
  destruct (retained head) as [|l0 ls] eqn:Hret.
  { exfalso. unfold retained in Hret. pose proof (split_not_nil CRLF head).
    destruct (split CRLF head); [congruence|discriminate]. }
  exists auth_header, l0, ls.
  pose proof (header_bytes_lines _ _ _ _ _ Hauth Hret) as Hout.
  split; [exact Hauth|]. split; [reflexivity|]. split; [exact Hout|].
  split.
  { intros l. split; [apply encode_reencoded|].
    split; [apply reencoded_same|apply invalid_replaced]. }
  unfold original_bytes. rewrite Hret, Hout. split.
  - intros H0.
    assert (H : reencoded l0 ++ CRLF ++ auth_header
                  ++ unlines (map reencoded (filter nonempty ls)) ++ CRLF
                = l0 ++ CRLF ++ auth_header ++ unlines ls ++ CRLF)
      by (injection H0 as H0; exact H0).
    pose proof (header_bytes_valid _ _ _ Hout) as Hv. rewrite H in Hv.
    apply valid_crlf_app in Hv as (Hv0 & Hv).
    apply valid_ascii_prefix in Hv; [|exact Hascii].
    apply valid_unlines in Hv as (Hvs & _).
    split; [now constructor|].
    rewrite (proj2 (reencoded_same l0) Hv0) in H.
    do 3 apply app_inv_head in H.
    rewrite map_reencoded_valid in H.
    + now apply unlines_filter_nonempty in H.
    + apply Forall_forall. intros l Hl. apply filter_In in Hl as (Hl & _).
      rewrite Forall_forall in Hvs. now apply Hvs.
  - intros (Hv & Hne). inversion Hv as [|? ? Hv0 Hvs]; subst.
    rewrite (filter_nonempty_all _ Hne), (map_reencoded_valid _ Hvs).
    now rewrite (proj2 (reencoded_same l0) Hv0).
Qed.

End Reencoding.

Section FramedBlock.

(** [cut] finds the first occurrence. *)
Lemma cut_first (sep x z a b : list N) :
  cut sep (x ++ sep ++ z) = Some (a, b) -> (length a <= length x)%nat.
Proof.
  revert a. induction x as [|c x IH]; intros a H.
  - cbn [app] in H. rewrite cut_here in H. injection H as <- _. reflexivity.
  - cbn [app cut] in H.
    destruct (startswith (c :: x ++ sep ++ z) sep).
    + injection H as <- _. cbn [length]. lia.
    + destruct (cut sep (x ++ sep ++ z)) as [[a' b']|]; [|discriminate].
      injection H as <- <-. cbn [length]. specialize (IH a' eq_refl). lia.
Qed.

(** An empty part of [s.split(CRLF)] comes from an empty [s], a leading or
    trailing CR LF, or two of them in a row. *)
Lemma split_empty_part : forall s,
  In [] (split CRLF s) ->
  s = [] \/ (exists b, s = CRLF ++ b)
  \/ (exists a b, s = a ++ CRLF2 ++ b) \/ (exists a, s = a ++ CRLF).
Proof.
  intros s. remember (length s) as n eqn:Hn.
  assert (Hle : (length s <= n)%nat) by lia. clear Hn. revert s Hle.
  induction n as [|n IH]; intros s Hle Hin.
  - destruct s; [now left|cbn [length] in Hle; lia].
  - destruct (cut CRLF s) as [[x y]|] eqn:Ec.
    + rewrite (split_cut_Some CRLF s x y) in Hin by (discriminate || exact Ec).
      pose proof (cut_length _ _ _ _ Ec) as Hlen. cbn [CRLF length] in Hlen.
      apply cut_Some in Ec. subst s.
      destruct Hin as [->|Hin]; [right; left; now exists y|].
      apply IH in Hin; [|lia]. right. right.
      destruct Hin as [->|[(b & ->)|[(a & b & ->)|(a & ->)]]].
      * right. exists x. reflexivity.
      * left. exists x, b. reflexivity.
      * left. exists (x ++ CRLF ++ a), b. now rewrite <- !app_assoc.
      * right. exists (x ++ CRLF ++ a). now rewrite <- !app_assoc.
    + rewrite (split_cut_None _ _ Ec) in Hin.
      destruct Hin as [->|[]]. now left.
Qed.

(** The header block that [index_cut] frames has no empty line after its
    first line. *)
Lemma framed_lines data head rest :
  index_cut data = Ok (head, rest) ->
  Forall (fun l => l <> []) (tl (split CRLF head)).
Proof.
  unfold index_cut. destruct (cut CRLF2 data) as [[h r]|] eqn:Ec;
    [|discriminate].
  intros H. injection H as -> ->.
  assert (Hfirst : forall a z, data = a ++ CRLF2 ++ z ->
                   (length head <= length a)%nat).
  { intros a z Hd. rewrite Hd in Ec. exact (cut_first _ _ _ _ _ Ec). }
  apply cut_Some in Ec.
  destruct (cut CRLF head) as [[x y]|] eqn:Eh.
  2:{ rewrite (split_cut_None _ _ Eh). constructor. }
  rewrite (split_cut_Some CRLF head x y) by (discriminate || exact Eh).
  cbn [tl]. apply cut_Some in Eh. apply Forall_forall. intros l Hl ->.
  assert (Hcase : exists a z, data = a ++ CRLF2 ++ z
                              /\ (length a < length head)%nat).
  { apply split_empty_part in Hl.
    destruct Hl as [->|[(b & ->)|[(a & b & ->)|(a & ->)]]].
    - exists x, (CRLF ++ rest). subst data head. rewrite !length_app.
      cbn [length CRLF]. split; [|lia]. now rewrite <- !app_assoc.
    - exists x, (b ++ CRLF2 ++ rest). subst data head. rewrite !length_app.
      cbn [length CRLF]. split; [|lia]. now rewrite <- !app_assoc.
    - exists (x ++ CRLF ++ a), (b ++ CRLF2 ++ rest). subst data head.
      rewrite !length_app. cbn [length CRLF CRLF2]. split; [|lia].
      now rewrite <- !app_assoc.
    - exists (x ++ CRLF ++ a), (CRLF ++ rest). subst data head.
      rewrite !length_app. cbn [length CRLF]. split; [|lia].
      now rewrite <- !app_assoc. }
  destruct Hcase as (a & z & Hd & Hlt). apply Hfirst in Hd. lia.
Qed.


Lemma framed_text_lines data head rest request_line rest_lines :
  index_cut data = Ok (head, rest) ->
  first_and_rest (split CRLF (decode_replace head))
  = Ok (request_line, rest_lines) ->
  filter (fun l => nonempty l && negb (is_proxy_authorization l)) rest_lines
  = filter (fun l => negb (is_proxy_authorization l)) rest_lines.
Proof.
  intros Hcut Hsplit. apply framed_lines in Hcut.
  rewrite split_crlf_decode_replace in Hsplit.
  destruct (split CRLF head) as [|l0 ls]; [discriminate|].
  cbn [map first_and_rest tl] in *. injection Hsplit as _ <-.
  apply filter_ext_in. intros t Ht. apply in_map_iff in Ht as (l & <- & Hl).
  rewrite Forall_forall in Hcut. rewrite nonempty_decode_replace.
  specialize (Hcut l Hl). now destruct l.
Qed.

(** C3.  Let [headers] be a header block and [auth_header] the configured
    header: empty, or made by [make_auth_header].  Split at CR LF, the new
    header block consists of the request line as it was, then the
    configured line if there is one, then the non-empty lines that follow
    the request line and are not Proxy-Authorization lines, in their order,
    then the closing blank line (the last two empty parts).  Hence its
    Proxy-Authorization lines are: the configured one when [auth_header] is
    not empty, and none otherwise, however many the input has.  In the
    header block that the handler frames no line after the request line is
    empty, so there the kept lines are all the lines that are not
    Proxy-Authorization lines. *)
Theorem rewrite_headers_lines (auth_header headers request_line : str)
  (rest_lines : list str) :
  configured auth_header ->
  first_and_rest (split CRLF headers) = Ok (request_line, rest_lines) ->
  let kept :=
    filter (fun l => nonempty l && negb (is_proxy_authorization l))
      rest_lines in
  exists auth_lines,
    (auth_header = [] /\ auth_lines = []
     \/ exists a, auth_header = a ++ CRLF /\ auth_lines = [a])
    /\ split CRLF (rewrite_headers auth_header request_line rest_lines)
       = request_line :: auth_lines ++ kept ++ [[]; []]
    /\ filter is_proxy_authorization (auth_lines ++ kept ++ [[]; []])
       = auth_lines
    /\ (forall data head rest,
          index_cut data = Ok (head, rest) ->
          headers = decode_replace head ->
          kept = filter (fun l => negb (is_proxy_authorization l)) rest_lines).
Proof.
  intros Hconf Hsplit kept.
  destruct (rewrite_headers_split _ _ _ _ Hconf Hsplit)
    as (auth_lines & Hauth & Hlines & Hpa).
  exists auth_lines. split; [exact Hauth|]. split; [exact Hlines|].
  split; [exact Hpa|]. intros data head rest Hcut ->.
  exact (framed_text_lines _ _ _ _ _ Hcut Hsplit).
Qed.

End FramedBlock.

(** Two Proxy-Authorization lines in, the configured one out. *)
Lemma rewrite_headers_lines_witness :
  split CRLF
    (rewrite_headers basic_user_pass
       (lit "GET http://example.com/ HTTP/1.1")
       [lit "Host: example.com";
        lit "proxy-authorization: Basic b2xkOm9sZA==";
        lit "Accept: */*";
        lit "PROXY-AUTHORIZATION: Bearer abc"])
  = [lit "GET http://example.com/ HTTP/1.1";
     lit "Proxy-Authorization: Basic dXNlcjpwYXNz";
     lit "Host: example.com";
     lit "Accept: */*"; []; []].
Proof.
  assert (Hconf : configured basic_user_pass).
  { right. exists (Some (lit "user")), (Some (lit "pass")). reflexivity. }
  assert (Hsplit : first_and_rest (split CRLF two_auth_headers)
                   = Ok (lit "GET http://example.com/ HTTP/1.1",
                         [lit "Host: example.com";
                          lit "proxy-authorization: Basic b2xkOm9sZA==";
                          lit "Accept: */*";
                          lit "PROXY-AUTHORIZATION: Bearer abc"]))
    by reflexivity.
  destruct (rewrite_headers_lines _ _ _ _ Hconf Hsplit)
    as (auth_lines & Hauth & Hlines & _).
  destruct Hauth as [[H _]|(a & Ha & ->)]; [discriminate H|].
  unfold basic_user_pass in Ha. apply app_inv_tail in Ha. subst a.
  rewrite Hlines. reflexivity.
Defined.

Section Sent.

(** The bytes that [forward_request] sends ahead of the rest of the first
    read are [header_bytes] of the framed header block. *)
Lemma forward_request_header_bytes h p a w :
  forward_request h p a w
  = (w0 <- get ;;
     data <- read_request (S (length (client_rx w0))) [] ;;
     '(head, rest) <- lift (index_cut data) ;;
     socket_new ;;
     settimeout Upstream 30 ;;
     connect h p ;;
     payload <- lift (header_bytes a head) ;;
     sendall Upstream (payload ++ rest) ;;
     ret (hd [] (split CRLF (decode_replace head)))) w.
Proof.
  unfold forward_request, header_bytes. unfold bind at 1 2 10 11. unfold get.
  destruct (read_request _ [] w) as [[data| |e|] w1]; try reflexivity.
  unfold bind at 1 8.
  destruct (index_cut data) as [[head rest]|e]; cbn [lift ret raise];
    [|reflexivity].
  unfold bind at 1 7. destruct (socket_new w1) as [[[]| |e|] w2];
    try reflexivity.
  unfold bind at 1 6. destruct (settimeout Upstream 30 w2) as [[[]| |e|] w3];
    try reflexivity.
  unfold bind at 1 5. destruct (connect h p w3) as [[[]| |e|] w4];
    try reflexivity.
  destruct (split CRLF (decode_replace head)) as [|request_line rest_lines];
    [reflexivity|].
  cbn [first_and_rest res_bind lift ret hd]. unfold bind at 1 3.
  cbn [lift ret]. unfold bind at 1 3.
  destruct (encode _) as [payload|e]; cbn [lift ret raise]; reflexivity.
Qed.

End Sent.

(** C10, the case left out: the header block is not valid UTF-8, the
    bytes sent are the original lines without the Proxy-Authorization line,
    and no U+FFFD is sent. *)
Lemma header_bytes_invalid_auth_line :
  decode invalid_auth_line = Raise UnicodeDecodeError
  /\ header_bytes [] invalid_auth_line
     = Ok (original_bytes [] invalid_auth_line)
  /\ header_bytes [] invalid_auth_line = Ok (lit "GET / HTTP/1.1" ++ CRLF2).
Proof. vm_compute. repeat split. Qed.

(** The Latin-1 byte of a kept line is sent as the three bytes of
    U+FFFD. *)
Lemma header_bytes_reencoded_witness :
  header_bytes basic_user_pass latin1_header
  = Ok (lit "GET / HTTP/1.1" ++ CRLF ++ basic_user_pass
          ++ lit "X-Name: caf" ++ [239; 191; 189] ++ CRLF2).
Proof.
  assert (Hconf : configured basic_user_pass).
  { right. exists (Some (lit "user")), (Some (lit "pass")). reflexivity. }
  destruct (header_bytes_reencoded basic_user_pass latin1_header Hconf)
    as (auth_bytes & l0 & ls & Hauth & Hret & Hout & _).
  vm_compute in Hauth. injection Hauth as <-.
  vm_compute in Hret. injection Hret as <- <-.
  rewrite Hout. reflexivity.
Defined.

(** ** Further properties of the program *)

Section ConfigResolverMore.

(** X1.  A URL [http://host:port] without credentials, whose host holds
    neither [@] nor a colon and whose port is numeric (one to 4300 ASCII
    digits, the most that [int] reads), gives the host and the port, and
    [None] for the user and the password. *)
Theorem parse_proxy_url_no_credentials (host port : str) :
  ~ In 64 host -> ~ In 58 host -> numeric port ->
  contains (lit "http://") (host ++ lit ":" ++ port) = false ->
  parse_proxy_url (lit "http://" ++ host ++ lit ":" ++ port)
  = Ok (host, decimal_value port, None, None).
Proof.
  intros Hh64 Hh58 Hport Hrest.
  pose proof Hport as (_ & Hd & _).
  assert (Hp64 : ~ In 64 port) by (apply digits_no; [assumption|lia]).
  assert (Hp58 : ~ In 58 port) by (apply digits_no; [assumption|lia]).
  rewrite parse_proxy_url_parts. unfold url_parts.
  rewrite (replace_cut_Some (lit "http://") [] _ [] _ ltac:(discriminate)
             (cut_here _ _)).
  apply contains_false_cut in Hrest.
  rewrite (replace_cut_None _ _ _ Hrest). cbn [app].
  change (lit "@") with [64]. change (lit ":") with [58]. cbn [app].
  rewrite rcut1_None.
  2:{ intros Hin. apply in_app_or in Hin as [Hin|[Hin|Hin]];
        [auto|lia|auto]. }
  rewrite (split1_app _ _ _ Hh58 Hp58). cbn [unpack2 res_bind].
  rewrite (int_numeric _ Hport). reflexivity.
Qed.

Lemma parse_proxy_url_no_credentials_witness :
  parse_proxy_url (lit "http://proxy.example:3128")
  = Ok (lit "proxy.example", 3128%Z, None, None).
Proof.
  apply (parse_proxy_url_no_credentials (lit "proxy.example") (lit "3128")).
  - vm_compute. intuition discriminate.
  - vm_compute. intuition discriminate.
  - split; [discriminate|]. split; [repeat constructor|].
    vm_compute. discriminate.
  - vm_compute. reflexivity.
Defined.

(** X2.  The scheme is optional: with or without a leading [http://] the
    parser gives the same result, errors included. *)
Theorem parse_proxy_url_scheme_optional (url : str) :
  parse_proxy_url (lit "http://" ++ url) = parse_proxy_url url.
Proof.
  unfold parse_proxy_url.
  rewrite (replace_cut_Some (lit "http://") [] _ [] url ltac:(discriminate)
             (cut_here _ _)).
  reflexivity.
Qed.

(** X3.  When [parse_proxy_url] returns, its result reads the URL back:
    with [http://] removed the URL is [user:password@host:port] or
    [host:port], where [int] of the port text is the port returned; the
    host and the port text hold no colon, the user holds no colon, and with
    credentials the host and the port text hold no [@]; the user and the
    password are both given or both [None]. *)
Theorem parse_proxy_url_sound (url host : str) (port : Z)
  (user password : option str) :
  parse_proxy_url url = Ok (host, port, user, password) ->
  let u := replace (lit "http://") [] url in
  exists port_text,
    int port_text = Ok port
    /\ ~ In 58 host /\ ~ In 58 port_text
    /\ match user, password with
       | Some us, Some pw =>
           u = us ++ lit ":" ++ pw ++ lit "@" ++ host ++ lit ":" ++ port_text
           /\ ~ In 58 us /\ ~ In 64 host /\ ~ In 64 port_text
       | None, None => u = host ++ lit ":" ++ port_text /\ ~ In 64 u
       | _, _ => False
       end.
Proof.
  intros H u. rewrite parse_proxy_url_parts in H. unfold url_parts in H.
  fold u in H. change (lit "@") with [64] in *. change (lit ":") with [58] in *.
  assert (Hhp : forall hostport h q,
            unpack2 (split [58] hostport) = Ok (h, q) ->
            hostport = h ++ 58 :: q /\ ~ In 58 h /\ ~ In 58 q).
  { intros hostport h q Hs. apply unpack2_two in Hs.
    now apply split1_two in Hs. }
  destruct (rcut [64] u) as [[creds hostport]|] eqn:Er.
  - apply rcut1_Some in Er as [Hu Hno].
    destruct (unpack2 (split_n 1 [58] creds)) as [[us pw]|e] eqn:Ec;
      cbn [res_bind] in H; [|discriminate].
    destruct (unpack2 (split [58] hostport)) as [[h q]|e] eqn:Eh;
      cbn [res_bind] in H; [|discriminate].
    destruct (int q) as [v|e] eqn:Ei; cbn [res_bind] in H; [|discriminate].
    injection H as <- <- <- <-.
    apply Hhp in Eh as (-> & Hh & Hq).
    cbn [split_n] in Ec. destruct (cut [58] creds) as [[a b]|] eqn:Ecut;
      [|discriminate].
    cbn [unpack2] in Ec. injection Ec as -> ->.
    apply cut1_Some in Ecut as [-> Hus].
    exists q. split; [exact Ei|]. split; [exact Hh|]. split; [exact Hq|].
    split; [|split; [exact Hus|split]].
    + rewrite Hu. cbn [app]. now rewrite <- !app_assoc.
    + intros Hin. apply Hno. apply in_or_app. now left.
    + intros Hin. apply Hno. apply in_or_app. right. now right.
  - apply rcut1_None_inv in Er.
    destruct (unpack2 (split [58] u)) as [[h q]|e] eqn:Eh;
      cbn [res_bind] in H; [|discriminate].
    destruct (int q) as [v|e] eqn:Ei; cbn [res_bind] in H; [|discriminate].
    injection H as <- <- <- <-.
    apply Hhp in Eh as (Hu & Hh & Hq).
    exists q. split; [exact Ei|]. split; [exact Hh|]. split; [exact Hq|].
    split; [exact Hu|exact Er].
Qed.

Lemma parse_proxy_url_sound_witness :
  exists port_text,
    int port_text = Ok 8080%Z
    /\ ~ In 58 (lit "proxy") /\ ~ In 58 port_text
    /\ replace (lit "http://") [] (lit "http://alice:s3:cret@proxy:8080")
       = lit "alice" ++ lit ":" ++ lit "s3:cret" ++ lit "@" ++ lit "proxy"
           ++ lit ":" ++ port_text
    /\ ~ In 58 (lit "alice") /\ ~ In 64 (lit "proxy") /\ ~ In 64 port_text.
Proof.
  apply (parse_proxy_url_sound (lit "http://alice:s3:cret@proxy:8080")
           (lit "proxy") 8080%Z (Some (lit "alice")) (Some (lit "s3:cret"))).
  vm_compute. reflexivity.
Defined.

End ConfigResolverMore.

Section ProcessMore.

(** X4.  The upstream URL is the value of the first of the four variables
    that is set and not empty: a variable that is unset or empty is passed
    over, and the variables after the first one that counts are not looked
    at. *)
Theorem UPSTREAM_PROXY_first (env : environ) (pre post : list string)
  (name : string) (url : str) :
  proxy_variables = pre ++ name :: post ->
  Forall (fun n => truthy (env n) = false) pre ->
  env name = Some url -> url <> [] ->
  UPSTREAM_PROXY env = Some url.
Proof.
  intros Hvars Hpre Hname Hurl.
  assert (Ht : truthy (env name) = true).
  { rewrite Hname. destruct url; [congruence|reflexivity]. }
  unfold UPSTREAM_PROXY, py_or, proxy_variables in *.
  destruct pre as [|n1 [|n2 [|n3 [|n4 pre]]]]; cbn [app] in Hvars.
  - injection Hvars as <- _. rewrite !Ht. exact Hname.
  - injection Hvars as <- <- _. inversion Hpre as [|? ? H1 _]; subst.
    rewrite H1, !Ht. exact Hname.
  - injection Hvars as <- <- <- _. inversion Hpre as [|? ? H1 Hp]; subst.
    inversion Hp as [|? ? H2 _]; subst. rewrite H1, H2, !Ht. exact Hname.
  - injection Hvars as <- <- <- <- _. inversion Hpre as [|? ? H1 Hp]; subst.
    inversion Hp as [|? ? H2 Hp']; subst. inversion Hp' as [|? ? H3 _]; subst.
    rewrite H1, H2, H3. exact Hname.
  - exfalso. apply (f_equal (@length string)) in Hvars.
    cbn [length] in Hvars. rewrite length_app in Hvars. cbn [length] in Hvars.
    lia.
Qed.

Lemma UPSTREAM_PROXY_first_witness :
  UPSTREAM_PROXY
    (fun k => if String.eqb k "HTTPS_PROXY" then Some []
              else if String.eqb k "https_proxy" then Some (lit "http://a:1")
              else if String.eqb k "http_proxy" then Some (lit "http://b:2")
              else None)
  = Some (lit "http://a:1").
Proof.
  apply (UPSTREAM_PROXY_first _ ["HTTPS_PROXY"; "HTTP_PROXY"]%string
           ["http_proxy"%string] "https_proxy"%string).
  - reflexivity.
  - repeat constructor.
  - reflexivity.
  - discriminate.
Defined.

Lemma b64encode_length bs :
  length (b64encode bs) = (4 * ((length bs + 2) / 3))%nat.
Proof.
  remember (length bs) as n eqn:Hn.
  assert (Hle : (length bs <= n)%nat) by lia.
  rewrite Hn. clear Hn. revert bs Hle.
  induction n as [|n IH]; intros bs Hle.
  - destruct bs; [reflexivity|simpl in Hle; lia].
  - destruct bs as [|a [|b [|c rest]]]; try reflexivity.
    cbn [b64encode length]. rewrite IH by (cbn [length] in Hle; lia).
    replace (S (S (S (length rest))) + 2)%nat
      with (1 * 3 + (length rest + 2))%nat by lia.
    rewrite Nat.div_add_l by lia. lia.
Qed.

(** X5.  The header that [make_auth_header] makes is one line that ends
    in CR LF: the name and the scheme, then the base 64 text of the UTF-8
    bytes of [user:password], which consists of characters of the base 64
    alphabet and [=] and has four characters for every three bytes, rounded
    up.  The rewriter takes it for a Proxy-Authorization line. *)
Theorem make_auth_header_shape (user password : option str)
  (auth_header : str) :
  make_auth_header user password = Ok auth_header ->
  exists raw,
    encode (fmt user ++ lit ":" ++ fmt password) = Ok raw
    /\ auth_header
       = lit "Proxy-Authorization: Basic " ++ b64encode raw ++ CRLF
    /\ Forall (fun c => In c (61 :: b64_alphabet)) (b64encode raw)
    /\ length (b64encode raw) = (4 * ((length raw + 2) / 3))%nat
    /\ split CRLF auth_header
       = [lit "Proxy-Authorization: Basic " ++ b64encode raw; []]
    /\ is_proxy_authorization auth_header = true.
Proof.
  unfold make_auth_header.
  destruct (encode _) as [raw|e]; cbn [res_bind]; [|discriminate].
  pose proof (b64encode_chars raw) as Hchars.
  assert (Hp : Forall (fun c => c < 128) (b64encode raw)).
  { eapply Forall_impl; [|exact Hchars]. intros c Hc. now apply b64_plain. }
  rewrite (decode_ascii _ Hp). cbn [res_bind].
  set (pre := lit "Proxy-Authorization: Basic ").
  intros H. assert (Hh : auth_header = pre ++ b64encode raw ++ CRLF)
    by (injection H as <-; reflexivity).
  clear H. subst auth_header.
  exists raw. split; [reflexivity|]. split; [reflexivity|].
  split; [exact Hchars|]. split; [apply b64encode_length|]. split.
  - assert (Hfree : contains CRLF (pre ++ b64encode raw) = false).
    { apply no_cr_free. intros Hin. apply in_app_or in Hin as [Hin|Hin].
      - revert Hin. subst pre. vm_compute. intuition discriminate.
      - rewrite Forall_forall in Hchars. apply Hchars, b64_plain in Hin. lia. }
    rewrite app_assoc.
    replace ((pre ++ b64encode raw) ++ CRLF)
      with ((pre ++ b64encode raw) ++ CRLF ++ []) by now rewrite app_nil_r.
    now rewrite split_crlf_app.
  - subst pre. rewrite app_assoc.
    unfold is_proxy_authorization, lower. rewrite !flat_map_app.
    rewrite <- app_assoc. apply startswith_app_l. reflexivity.
Qed.

Lemma make_auth_header_shape_witness :
  exists raw,
    encode (fmt (Some (lit "user")) ++ lit ":" ++ fmt (Some (lit "pass")))
    = Ok raw
    /\ lit "Proxy-Authorization: Basic dXNlcjpwYXNz" ++ CRLF
       = lit "Proxy-Authorization: Basic " ++ b64encode raw ++ CRLF
    /\ Forall (fun c => In c (61 :: b64_alphabet)) (b64encode raw)
    /\ length (b64encode raw) = (4 * ((length raw + 2) / 3))%nat
    /\ split CRLF (lit "Proxy-Authorization: Basic dXNlcjpwYXNz" ++ CRLF)
       = [lit "Proxy-Authorization: Basic " ++ b64encode raw; []]
    /\ is_proxy_authorization
         (lit "Proxy-Authorization: Basic dXNlcjpwYXNz" ++ CRLF) = true.
Proof.
  apply (make_auth_header_shape (Some (lit "user")) (Some (lit "pass"))).
  reflexivity.
Defined.



End ProcessMore.

Section FramingMore.

Lemma startswith_long (p s t : list N) :
  (length p <= length s)%nat -> startswith (s ++ t) p = startswith s p.
Proof.
  revert s. induction p as [|x p IH]; intros s Hlen; [reflexivity|].
  destruct s as [|y s]; [cbn [length] in Hlen; lia|].
  cbn [app startswith]. rewrite IH by (cbn [length] in Hlen; lia).
  reflexivity.
Qed.

(** What follows the first occurrence does not change the cut. *)
Lemma cut_app_more (sep s t a b : list N) :
  cut sep s = Some (a, b) -> cut sep (s ++ t) = Some (a, b ++ t).
Proof.
  revert a. induction s as [|c s IH]; intros a H.
  - cbn [cut] in H. destruct (startswith [] sep) eqn:Es; [|discriminate].
    injection H as <- <-. destruct sep; [|discriminate]. 
    cbn [app]. destruct t; reflexivity.
  - pose proof (cut_length _ _ _ _ H) as Hlen.
    cbn [cut] in H. cbn [app cut].
    change (c :: s ++ t) with ((c :: s) ++ t).
    rewrite startswith_long by lia.
    destruct (startswith (c :: s) sep) eqn:Es.
    + injection H as <- <-. f_equal. f_equal.
      destruct (startswith_inv _ _ Es) as [r Hr]. rewrite Hr.
      rewrite <- app_assoc, !skipn_length_app. reflexivity.
    + destruct (cut sep s) as [[a' b']|] eqn:Ec; [|discriminate].
      injection H as <- <-. now rewrite (IH a' eq_refl).
Qed.

(** X7.  The header block that the handler takes from the bytes read is
    the part before the first CR LF CR LF: the bytes read are the block,
    the terminator and the rest, the block holds no terminator, and bytes
    that arrive later change neither the block nor the place where the
    rest begins. *)
Theorem index_cut_first (data head rest : bytes) :
  index_cut data = Ok (head, rest) ->
  data = head ++ CRLF2 ++ rest
  /\ contains CRLF2 head = false
  /\ forall more, index_cut (data ++ more) = Ok (head, rest ++ more).
Proof.
  unfold index_cut. destruct (cut CRLF2 data) as [[h r]|] eqn:Ec;
    [|discriminate].
  intros H. injection H as -> ->. split; [now apply cut_Some|]. split.
  - apply contains_false_cut. eapply cut_before; [|exact Ec]. discriminate.
  - intros more. now rewrite (cut_app_more _ _ more _ _ Ec).
Qed.

Lemma index_cut_first_witness :
  lit "GET / HTTP/1.1" ++ CRLF2 ++ lit "body" ++ CRLF2
  = lit "GET / HTTP/1.1" ++ CRLF2 ++ lit "body" ++ CRLF2
  /\ contains CRLF2 (lit "GET / HTTP/1.1") = false
  /\ forall more,
       index_cut ((lit "GET / HTTP/1.1" ++ CRLF2 ++ lit "body" ++ CRLF2) ++ more)
       = Ok (lit "GET / HTTP/1.1", (lit "body" ++ CRLF2) ++ more).
Proof.
  apply (index_cut_first (lit "GET / HTTP/1.1" ++ CRLF2 ++ lit "body" ++ CRLF2)
           (lit "GET / HTTP/1.1") (lit "body" ++ CRLF2)).
  reflexivity.
Defined.

End FramingMore.

Section ForwardMore.

Ltac same_world :=
  unfold emit_all, emit, set_upstream_var, set_rx, set_tx, set_client_closed;
  cbn [client_rx upstream_rx client_tx upstream_tx socket_result
         connect_result shutdown_result join_result client_closed
         upstream_var trace];
  rewrite <- ?app_assoc; reflexivity.

(** The loop of [read_request] when the client sends [chunks] and the last
    of them completes the header block. *)
Lemma read_request_done chunks rest w :
  client_closed w = false ->
  client_rx w = map RxData chunks ++ rest ->
  Forall (fun c => c <> []) chunks ->
  contains CRLF2 (concat (removelast chunks)) = false ->
  contains CRLF2 (concat chunks) = true ->
  read_request (S (length (client_rx w))) [] w
  = (Normal (concat chunks),
     emit_all (map (fun c => EvRecv Client 4096 (RxData c)) chunks)
       (set_rx Client rest w)).
Proof.
  intros Hopen Hrx Hne Hno Hyes.
  replace (S (length (client_rx w)))
    with (length chunks + S (length rest))%nat
    by (rewrite Hrx, length_app, length_map; lia).
  rewrite (read_request_chunks chunks _ [] w rest Hopen Hrx Hne)
    by (intros _; exact Hno).
  cbn [app read_request]. now rewrite Hyes.
Qed.

Lemma index_cut_contains data head rest :
  index_cut data = Ok (head, rest) -> contains CRLF2 data = true.
Proof.
  unfold index_cut, contains. now destruct (cut CRLF2 data).
Qed.

(** [forward_request] from the header block on, when [socket()] succeeds. *)
Lemma forward_request_run h p a w chunks more head rest out :
  client_closed w = false ->
  client_rx w = map RxData chunks ++ more ->
  Forall (fun c => c <> []) chunks ->
  contains CRLF2 (concat (removelast chunks)) = false ->
  index_cut (concat chunks) = Ok (head, rest) ->
  header_bytes a head = Ok out ->
  socket_result w = None ->
  let w1 :=
    emit_all (map (fun c => EvRecv Client 4096 (RxData c)) chunks
                ++ [EvSocket None; EvSettimeout Upstream 30;
                    EvConnect h p (connect_result w)])
      (set_upstream_var Opened (set_rx Client more w)) in
  forward_request h p a w
  = match connect_result w with
    | Some e => (Raised e, w1)
    | None =>
        let t := hd TxOk (upstream_tx w) in
        (match t with
         | TxOk => Normal (hd [] (split CRLF (decode_replace head)))
         | TxErr e => Raised e
         | TxStall => Raised TimeoutError
         end,
         emit (EvSendall Upstream (out ++ rest) t)
           (set_tx Upstream (tl (upstream_tx w)) w1))
    end.
Proof.
  intros Hopen Hrx Hne Hno Hcut Hout Hsock w1.
  rewrite forward_request_header_bytes.
  unfold bind at 1 2. unfold get.
  rewrite (read_request_done chunks more w Hopen Hrx Hne Hno
             (index_cut_contains _ _ _ Hcut)).
  unfold bind at 1. rewrite Hcut. cbn [lift ret].
  subst w1. destruct w as [crx urx ctx utx sr cr shr jr cc uv tr].
  cbn [socket_result connect_result upstream_tx client_closed client_rx]
    in *. subst sr.
  unfold bind at 1. unfold socket_new.
  cbn [socket_result emit_all set_rx set_upstream_var emit client_rx
         upstream_rx client_tx upstream_tx connect_result shutdown_result
         join_result client_closed upstream_var trace].
  unfold bind at 1. unfold settimeout, usable.
  cbn [socket_result emit_all set_rx set_upstream_var emit client_rx
         upstream_rx client_tx upstream_tx connect_result shutdown_result
         join_result client_closed upstream_var trace].
  unfold bind at 1. unfold connect, usable.
  cbn [socket_result emit_all set_rx set_upstream_var emit client_rx
         upstream_rx client_tx upstream_tx connect_result shutdown_result
         join_result client_closed upstream_var trace].
  destruct cr as [e|].
  - same_world.
  - unfold bind at 1. rewrite Hout. cbn [lift ret].
    unfold bind at 1. unfold sendall, usable.
    cbn [socket_result emit_all set_rx set_tx set_upstream_var emit client_rx
           upstream_rx client_tx upstream_tx connect_result shutdown_result
           join_result client_closed upstream_var trace tx_script].
    destruct (hd TxOk utx); cbn [ret]; same_world.
Qed.


Lemma header_bytes_total a head :
  configured a -> exists out, header_bytes a head = Ok out.
Proof.
  intros Hconf.
  pose proof (encode_ascii _ (configured_ascii _ Hconf)) as Hauth.
  destruct (retained head) as [|l0 ls] eqn:Hret.
  { exfalso. unfold retained in Hret. pose proof (split_not_nil CRLF head).
    destruct (split CRLF head); [congruence|discriminate]. }
  eexists. exact (header_bytes_lines _ _ _ _ _ Hauth Hret).
Qed.

(** Runs the computation on the right of [H] to its end. *)
Ltac run_to_end H :=
  match type of H with
  | ?r = ?big =>
      let v := eval cbv beta iota zeta delta
                 [call try_finally try_except relay_response negotiate_tunnel
                  bind get start join stderr_write cleanup close ret raise
                  lift return_ hang sendall recv usable shutdown_wr
                  emit emit_all set_upstream_var set_client_closed set_rx
                  set_tx rx_script tx_script client_rx upstream_rx client_tx
                  upstream_tx socket_result connect_result shutdown_result
                  join_result client_closed upstream_var trace] in big in
      let H' := fresh in
      assert (H' : big = v) by (vm_compute; reflexivity);
      rewrite H' in H; clear H'
  end.

(** X8.  Whatever the method of the request: once the header block is
    complete the handler opens the upstream socket, sets its timeout to
    30 seconds, connects, and sends the rewritten header block and, after
    it and unchanged, the bytes that were read after the terminator, in
    one [sendall]; it has read nothing from the client beyond the chunk
    that completed the block.  The request line that decides what happens
    next is the first line of the decoded block. *)
Theorem forward_request_sends (upstream_host : str) (upstream_port : Z)
  (auth_header : str) (w : world) (chunks : list bytes) (more : list rx)
  (head rest : bytes) :
  fresh w -> configured auth_header ->
  client_rx w = map RxData chunks ++ more ->
  Forall (fun c => c <> []) chunks ->
  contains CRLF2 (concat (removelast chunks)) = false ->
  index_cut (concat chunks) = Ok (head, rest) ->
  socket_result w = None -> connect_result w = None ->
  let r := forward_request upstream_host upstream_port auth_header w in
  let t := hd TxOk (upstream_tx w) in
  exists out,
    header_bytes auth_header head = Ok out
    /\ trace (snd r)
       = map (fun c => EvRecv Client 4096 (RxData c)) chunks
           ++ [EvSocket None; EvSettimeout Upstream 30;
               EvConnect upstream_host upstream_port None;
               EvSendall Upstream (out ++ rest) t]
    /\ client_rx (snd r) = more
    /\ fst r = match t with
               | TxOk => Normal (hd [] (split CRLF (decode_replace head)))
               | TxErr e => Raised e
               | TxStall => Raised TimeoutError
               end.
Proof.
  intros (Hopen & Hunb & Htr) Hconf Hrx Hne Hno Hcut Hsock Hconn r t.
  destruct (header_bytes_total _ head Hconf) as (out & Hout).
  exists out. split; [exact Hout|].
  subst r.
  rewrite (forward_request_run _ _ _ _ _ _ _ _ _ Hopen Hrx Hne Hno Hcut Hout
             Hsock), Hconn.
  cbv zeta. fold t. cbn [fst snd].
  destruct w as [crx urx ctx utx sr cr shr jr cc uv tr].
  cbn [trace] in Htr. subst tr.
  unfold emit, emit_all, set_tx, set_upstream_var, set_rx.
  cbn [trace client_rx upstream_rx client_tx upstream_tx socket_result
         connect_result shutdown_result join_result client_closed
         upstream_var app].
  split; [now rewrite <- app_assoc|]. split; reflexivity.
Qed.

Lemma forward_request_sends_witness :
  let w := session [RxData (lit "POST /x HTTP/1.1" ++ CRLF);
                    RxData (CRLF ++ lit "payload")] [] in
  let r := forward_request (lit "proxy") 3128 [] w in
  let t := hd TxOk (upstream_tx w) in
  exists out,
    header_bytes [] (lit "POST /x HTTP/1.1") = Ok out
    /\ trace (snd r)
       = map (fun c => EvRecv Client 4096 (RxData c))
           [lit "POST /x HTTP/1.1" ++ CRLF; CRLF ++ lit "payload"]
           ++ [EvSocket None; EvSettimeout Upstream 30;
               EvConnect (lit "proxy") 3128 None;
               EvSendall Upstream (out ++ lit "payload") t]
    /\ client_rx (snd r) = []
    /\ fst r = match t with
               | TxOk =>
                   Normal (hd [] (split CRLF
                                    (decode_replace (lit "POST /x HTTP/1.1"))))
               | TxErr e => Raised e
               | TxStall => Raised TimeoutError
               end.
Proof.
  intros w.
  apply (forward_request_sends (lit "proxy") 3128 [] w
           [lit "POST /x HTTP/1.1" ++ CRLF; CRLF ++ lit "payload"] []).
  - repeat split.
  - now left.
  - reflexivity.
  - repeat constructor; discriminate.
  - reflexivity.
  - reflexivity.
  - reflexivity.
  - reflexivity.
Defined.

(** X9.  A request that is not a CONNECT request, when the upstream proxy
    accepts the connection and the request: the handler reads the client
    until the header block is complete, opens the upstream socket, sets
    its timeout to 30 seconds, connects, sends the rewritten header block
    followed by the bytes read after the terminator in one [sendall],
    starts one thread that pumps from the upstream to the client, waits
    for it for at most 60 seconds and closes both sockets.  It reads
    nothing more from the client and writes nothing to it. *)
Theorem plain_request_session (upstream_host : str) (upstream_port : Z)
  (auth_header : str) (w : world) (chunks : list bytes) (more : list rx)
  (head rest : bytes) :
  fresh w -> configured auth_header ->
  client_rx w = map RxData chunks ++ more ->
  Forall (fun c => c <> []) chunks ->
  contains CRLF2 (concat (removelast chunks)) = false ->
  index_cut (concat chunks) = Ok (head, rest) ->
  is_connect (hd [] (split CRLF (decode_replace head))) = false ->
  socket_result w = None -> connect_result w = None ->
  hd TxOk (upstream_tx w) = TxOk ->
  let r := handle_client upstream_host upstream_port auth_header w in
  exists out,
    header_bytes auth_header head = Ok out
    /\ fst r = Normal tt
    /\ trace (snd r)
       = map (fun c => EvRecv Client 4096 (RxData c)) chunks
           ++ [EvSocket None; EvSettimeout Upstream 30;
               EvConnect upstream_host upstream_port None;
               EvSendall Upstream (out ++ rest) TxOk;
               EvStart (Pump Upstream Client);
               EvJoin (Pump Upstream Client) 60
                 (join_result w (Pump Upstream Client));
               EvClose Client; EvClose Upstream]
    /\ client_rx (snd r) = more
    /\ client_closed (snd r) = true
    /\ upstream_var (snd r) = Closed.
Proof.
  intros (Hopen & Hunb & Htr) Hconf Hrx Hne Hno Hcut Hplain Hsock Hconn Htx r.
  destruct (header_bytes_total _ head Hconf) as (out & Hout).
  exists out. split; [exact Hout|].
  remember r as res eqn:Eres. subst r.
  unfold handle_client, call, try_finally in Eres.
  rewrite try_except_bind in Eres.
  rewrite (forward_request_run _ _ _ _ _ _ _ _ _ Hopen Hrx Hne Hno Hcut Hout
             Hsock), Hconn, Htx in Eres.
  cbv beta iota zeta in Eres. rewrite Hplain in Eres.
  destruct w as [crx urx ctx utx sr cr shr jr cc uv tr].
  cbn [client_closed upstream_var trace client_rx upstream_tx socket_result
         connect_result join_result] in *.
  subst cc uv tr sr cr.
  run_to_end Eres. subst res.
  cbn [fst snd trace client_rx client_closed upstream_var].
  repeat split. now rewrite <- !app_assoc.
Qed.


Lemma plain_request_session_witness :
  let w := session [RxData (lit "GET http://example.com/ HTTP/1.1" ++ CRLF
                              ++ lit "Host: example.com" ++ CRLF2)] [] in
  let r := handle_client (lit "proxy") 3128 basic_user_pass w in
  exists out,
    header_bytes basic_user_pass
      (lit "GET http://example.com/ HTTP/1.1" ++ CRLF
         ++ lit "Host: example.com") = Ok out
    /\ fst r = Normal tt
    /\ trace (snd r)
       = map (fun c => EvRecv Client 4096 (RxData c))
           [lit "GET http://example.com/ HTTP/1.1" ++ CRLF
              ++ lit "Host: example.com" ++ CRLF2]
           ++ [EvSocket None; EvSettimeout Upstream 30;
               EvConnect (lit "proxy") 3128 None;
               EvSendall Upstream (out ++ []) TxOk;
               EvStart (Pump Upstream Client);
               EvJoin (Pump Upstream Client) 60
                 (join_result w (Pump Upstream Client));
               EvClose Client; EvClose Upstream]
    /\ client_rx (snd r) = []
    /\ client_closed (snd r) = true
    /\ upstream_var (snd r) = Closed.
Proof.
  intros w.
  apply (plain_request_session (lit "proxy") 3128 basic_user_pass w
           [lit "GET http://example.com/ HTTP/1.1" ++ CRLF
              ++ lit "Host: example.com" ++ CRLF2] []).
  - repeat split.
  - right. exists (Some (lit "user")), (Some (lit "pass")). reflexivity.
  - reflexivity.
  - repeat constructor. discriminate.
  - reflexivity.
  - reflexivity.
  - reflexivity.
  - reflexivity.
  - reflexivity.
  - reflexivity.
Defined.

(** X10.  When the upstream proxy refuses the connection (or the connection
    attempt times out), the handler writes the error to the error stream
    and closes both sockets.  It sends nothing to the client, so the client
    sees its connection closed without a response, and nothing to the
    upstream. *)
Theorem handle_client_connect_refused (upstream_host : str)
  (upstream_port : Z) (auth_header : str) (w : world) (chunks : list bytes)
  (more : list rx) (e : exn) :
  fresh w -> configured auth_header ->
  client_rx w = map RxData chunks ++ more ->
  Forall (fun c => c <> []) chunks ->
  contains CRLF2 (concat (removelast chunks)) = false ->
  contains CRLF2 (concat chunks) = true ->
  socket_result w = None -> connect_result w = Some e ->
  let r := handle_client upstream_host upstream_port auth_header w in
  fst r = Normal tt
  /\ trace (snd r)
     = map (fun c => EvRecv Client 4096 (RxData c)) chunks
         ++ [EvSocket None; EvSettimeout Upstream 30;
             EvConnect upstream_host upstream_port (Some e);
             EvStderr (MsgError e); EvClose Client; EvClose Upstream]
  /\ client_closed (snd r) = true
  /\ upstream_var (snd r) = Closed.
Proof.
  intros (Hopen & Hunb & Htr) Hconf Hrx Hne Hno Hyes Hsock Hconn r.
  destruct (index_cut_found _ Hyes) as (head & rest & Hcut).
  destruct (header_bytes_total _ head Hconf) as (out & Hout).
  remember r as res eqn:Eres. subst r.
  unfold handle_client, call, try_finally in Eres.
  rewrite try_except_bind in Eres.
  rewrite (forward_request_run _ _ _ _ _ _ _ _ _ Hopen Hrx Hne Hno Hcut Hout
             Hsock), Hconn in Eres.
  cbv beta iota zeta in Eres.
  destruct w as [crx urx ctx utx sr cr shr jr cc uv tr].
  cbn [client_closed upstream_var trace client_rx upstream_tx socket_result
         connect_result join_result] in *.
  subst cc uv tr sr cr.
  run_to_end Eres. subst res.
  cbn [fst snd trace client_rx client_closed upstream_var].
  repeat split. now rewrite <- !app_assoc.
Qed.

Lemma handle_client_connect_refused_witness :
  let w := mkWorld [RxData connect_request] [] [] [] None (Some (OSError 111))
             (fun _ => None) (fun _ => true) false Unbound [] in
  let r := handle_client (lit "proxy") 3128 [] w in
  fst r = Normal tt
  /\ trace (snd r)
     = map (fun c => EvRecv Client 4096 (RxData c)) [connect_request]
         ++ [EvSocket None; EvSettimeout Upstream 30;
             EvConnect (lit "proxy") 3128 (Some (OSError 111));
             EvStderr (MsgError (OSError 111)); EvClose Client;
             EvClose Upstream]
  /\ client_closed (snd r) = true
  /\ upstream_var (snd r) = Closed.
Proof.
  intros w.
  apply (handle_client_connect_refused (lit "proxy") 3128 [] w
           [connect_request] [] (OSError 111)).
  - repeat split.
  - now left.
  - reflexivity.
  - repeat constructor. discriminate.
  - reflexivity.
  - reflexivity.
  - reflexivity.
  - reflexivity.
Defined.

(** X11.  When no upstream socket can be made, the variable [upstream] is
    never bound: the handler writes the error to the error stream and
    closes the client socket; the [upstream.close()] of the [finally]
    block raises and the exception is dropped there.  Nothing is sent to
    the client. *)
Theorem handle_client_socket_refused (upstream_host : str)
  (upstream_port : Z) (auth_header : str) (w : world) (chunks : list bytes)
  (more : list rx) (e : exn) :
  fresh w ->
  client_rx w = map RxData chunks ++ more ->
  Forall (fun c => c <> []) chunks ->
  contains CRLF2 (concat (removelast chunks)) = false ->
  contains CRLF2 (concat chunks) = true ->
  socket_result w = Some e ->
  let r := handle_client upstream_host upstream_port auth_header w in
  fst r = Normal tt
  /\ trace (snd r)
     = map (fun c => EvRecv Client 4096 (RxData c)) chunks
         ++ [EvSocket (Some e); EvStderr (MsgError e); EvClose Client]
  /\ client_closed (snd r) = true
  /\ upstream_var (snd r) = Unbound.
Proof.
  intros (Hopen & Hunb & Htr) Hrx Hne Hno Hyes Hsock r.
  destruct (index_cut_found _ Hyes) as (head & rest & Hcut).
  remember r as res eqn:Eres. subst r.
  unfold handle_client, call, try_finally in Eres.
  rewrite try_except_bind in Eres.
  unfold forward_request in Eres. unfold bind at 1 2 in Eres.
  unfold get in Eres.
  rewrite (read_request_done chunks more w Hopen Hrx Hne Hno Hyes) in Eres.
  unfold bind at 1 in Eres. rewrite Hcut in Eres. cbn [lift ret] in Eres.
  unfold bind at 1 in Eres.
  destruct w as [crx urx ctx utx sr cr shr jr cc uv tr].
  cbn [client_closed upstream_var trace client_rx upstream_tx socket_result
         connect_result join_result] in *.
  subst cc uv tr sr.
  unfold socket_new in Eres.
  cbn [emit_all set_rx socket_result] in Eres.
  run_to_end Eres. subst res.
  cbn [fst snd trace client_rx client_closed upstream_var].
  repeat split. now rewrite <- !app_assoc.
Qed.

Lemma handle_client_socket_refused_witness :
  let w := mkWorld [RxData connect_request] [] [] [] (Some (OSError 24)) None
             (fun _ => None) (fun _ => true) false Unbound [] in
  let r := handle_client (lit "proxy") 3128 [] w in
  fst r = Normal tt
  /\ trace (snd r)
     = map (fun c => EvRecv Client 4096 (RxData c)) [connect_request]
         ++ [EvSocket (Some (OSError 24)); EvStderr (MsgError (OSError 24));
             EvClose Client]
  /\ client_closed (snd r) = true
  /\ upstream_var (snd r) = Unbound.
Proof.
  intros w.
  apply (handle_client_socket_refused (lit "proxy") 3128 [] w
           [connect_request] [] (OSError 24)).
  - repeat split.
  - reflexivity.
  - repeat constructor. discriminate.
  - reflexivity.
  - reflexivity.
  - reflexivity.
Defined.


(** X12.  In a CONNECT session, when a read of the upstream response raises
    (the 30 second timeout, a reset) before the response is complete, the
    bytes of the response read so far are not passed on: the handler writes
    the error to the error stream and closes both sockets, and the client
    has been sent nothing. *)
Theorem tunnel_response_read_fails (upstream_host : str) (upstream_port : Z)
  (auth_header : str) (w w1 : world) (rl : str) (chunks : list bytes)
  (rest : list rx) (e : exn) :
  fresh w ->
  forward_request upstream_host upstream_port auth_header w = (Normal rl, w1) ->
  is_connect rl = true ->
  upstream_rx w1 = map RxData chunks ++ RxErr e :: rest ->
  Forall (fun c => c <> []) chunks ->
  contains CRLF2 (concat chunks) = false ->
  let r := handle_client upstream_host upstream_port auth_header w in
  fst r = Normal tt
  /\ trace (snd r)
     = trace w1
         ++ map (fun c => EvRecv Upstream 4096 (RxData c)) chunks
         ++ [EvRecv Upstream 4096 (RxErr e); EvStderr (MsgError e);
             EvClose Client; EvClose Upstream]
  /\ forallb no_client_send (trace (snd r)) = true
  /\ client_closed (snd r) = true
  /\ upstream_var (snd r) = Closed.
Proof.
  intros (Hopen & Hunb & Htr) Efr Hconn Hrx Hne Hno r.
  destruct (forward_request_normal _ _ _ _ _ _ Efr) as [Hcl Hup].
  rewrite Hopen in Hcl.
  assert (H0 : emits before_decision w w1).
  { assert (Ha : along (emits before_decision)
                   (forward_request upstream_host upstream_port auth_header))
      by (emits_along along_forward_request).
    specialize (Ha w). now rewrite Efr in Ha. }
  destruct H0 as (evs0 & Ht0 & Hall0). rewrite Htr in Ht0. cbn [app] in Ht0.
  assert (Hquiet : forallb no_client_send (trace w1) = true).
  { rewrite Ht0. revert Hall0. apply forallb_impl.
    intros ev. unfold before_decision, no_client_send.
    destruct (is_client_send ev); [discriminate|reflexivity]. }
  remember r as res eqn:Eres. subst r.
  rewrite (handle_client_after_forward _ _ _ _ _ _ Efr), Hconn in Eres.
  unfold call, try_finally, try_except, negotiate_tunnel in Eres.
  unfold bind at 1 2 in Eres. unfold get in Eres.
  replace (S (length (upstream_rx w1)))
    with (length chunks + S (S (length rest)))%nat in Eres
    by (rewrite Hrx, length_app, length_map; cbn [length]; lia).
  rewrite (read_response_chunks chunks _ [] w1 (RxErr e :: rest) Hup Hrx Hne)
    in Eres by (intros _; now apply contains_removelast).
  cbn [app read_response] in Eres. rewrite Hno in Eres.
  clear Efr.
  destruct w1 as [crx urx ctx utx sr cr shr jr cc uv tr].
  cbn [client_closed upstream_var trace upstream_rx] in *.
  subst cc uv.
  run_to_end Eres. subst res.
  cbn [fst snd trace client_rx client_closed upstream_var].
  split; [reflexivity|]. split; [now rewrite <- !app_assoc|].
  split; [|split; reflexivity].
  rewrite !forallb_app, Hquiet. cbn [forallb no_client_send is_client_send
                                      negb andb].
  rewrite !andb_true_r. clear.
  induction chunks as [|c cs IH]; [reflexivity|exact IH].
Qed.

Lemma tunnel_response_read_fails_witness :
  let w := session [RxData connect_request]
             [RxData (lit "HTTP/1.1 200 "); RxErr TimeoutError] in
  let w1 := snd (forward_request (lit "proxy") 3128 [] w) in
  let r := handle_client (lit "proxy") 3128 [] w in
  fst r = Normal tt
  /\ trace (snd r)
     = trace w1
         ++ map (fun c => EvRecv Upstream 4096 (RxData c))
              [lit "HTTP/1.1 200 "]
         ++ [EvRecv Upstream 4096 (RxErr TimeoutError);
             EvStderr (MsgError TimeoutError);
             EvClose Client; EvClose Upstream]
  /\ forallb no_client_send (trace (snd r)) = true
  /\ client_closed (snd r) = true
  /\ upstream_var (snd r) = Closed.
Proof.
  intros w w1.
  apply (tunnel_response_read_fails (lit "proxy") 3128 [] w w1
           (lit "CONNECT example.com:443 HTTP/1.1") [lit "HTTP/1.1 200 "] []).
  - repeat split.
  - vm_compute. reflexivity.
  - reflexivity.
  - reflexivity.
  - repeat constructor. discriminate.
  - reflexivity.
Defined.

End ForwardMore.

Section RelayMore.

Lemma pump_outcome fuel : forall src dst w,
  fst (pump fuel src dst w) <> Returned.
Proof.
  induction fuel as [|fuel IH]; intros src dst w; cbn [pump].
  - discriminate.
  - unfold bind at 1. unfold recv.
    destruct (usable src w); [|discriminate].
    destruct (rx_script src w) as [|[d|e] rest].
    + destruct src; discriminate.
    + destruct (is_empty d); [discriminate|].
      unfold bind at 1. unfold sendall.
      destruct (usable dst _); [|discriminate].
      destruct (hd TxOk _); [apply IH|discriminate|destruct dst; discriminate].
    + discriminate.
Qed.

Lemma shutdown_quiet dst w :
  exists w', try_except (shutdown_wr dst) (fun _ => ret tt) w = (Normal tt, w')
    /\ ((usable dst w = Ok tt
         /\ w' = emit (EvShutdownWr dst (shutdown_result w dst)) w)
        \/ (usable dst w <> Ok tt /\ w' = w)).
Proof.
  unfold try_except, shutdown_wr.
  destruct (usable dst w) as [[]|e] eqn:Eu.
  - destruct (shutdown_result w dst); eexists; (split; [reflexivity|]);
      left; split; reflexivity.
  - eexists. split; [reflexivity|]. right. split; [discriminate|reflexivity].
Qed.

(** X13.  [relay] lets no exception out, whatever the state of the two
    sockets and whatever the reads and writes do: it ends normally, or it
    is blocked for ever in a read or a write of the client socket. *)
Theorem relay_never_raises (src dst : sock) (w : world) :
  fst (relay src dst w) = Normal tt \/ fst (relay src dst w) = Hang.
Proof.
  unfold relay, try_finally.
  destruct (try_except _ (fun _ => ret tt) w) as [o w1] eqn:Eb.
  assert (Ho : o = Normal tt \/ o = Hang).
  { unfold try_except in Eb. unfold bind at 1 in Eb. unfold get in Eb.
    pose proof (pump_outcome (S (length (rx_script src w))) src dst w) as Hp.
    destruct (pump _ src dst w) as [[[]| |e|] w']; cbn [fst ret] in *;
      injection Eb as <- _; [now left|congruence|now left|now right]. }
  destruct (shutdown_quiet dst w1) as (w2 & -> & _).
  destruct Ho as [->| ->]; [now left|now right].
Qed.

(** X14.  A relay thread whose source socket is closed reads and forwards
    nothing: it only tries to shut the destination down for writing, which
    is skipped when the destination is closed as well, and ends normally.
    This is how the threads that outlive the wait of the handler end once
    the handler has closed the sockets. *)
Theorem relay_source_closed (src dst : sock) (w : world) (e : exn) :
  usable src w = Raise e ->
  fst (relay src dst w) = Normal tt
  /\ ((usable dst w = Ok tt
       /\ snd (relay src dst w)
          = emit (EvShutdownWr dst (shutdown_result w dst)) w)
      \/ (usable dst w <> Ok tt /\ snd (relay src dst w) = w)).
Proof.
  intros Hsrc. unfold relay, try_finally.
  assert (Hb : try_except
                 (w0 <- get ;; pump (S (length (rx_script src w0))) src dst)
                 (fun _ => ret tt) w = (Normal tt, w)).
  { unfold try_except. unfold bind at 1. unfold get. cbn [pump].
    unfold bind at 1. unfold recv. rewrite Hsrc. reflexivity. }
  rewrite Hb.
  destruct (shutdown_quiet dst w) as (w2 & -> & Hw2). cbn [fst snd].
  split; [reflexivity|exact Hw2].
Qed.

Lemma relay_source_closed_witness :
  let w := mkWorld [] [RxData [1]] [] [] None None (fun _ => None)
             (fun _ => true) true Closed [] in
  fst (relay Upstream Client w) = Normal tt
  /\ ((usable Client w = Ok tt
       /\ snd (relay Upstream Client w)
          = emit (EvShutdownWr Client (shutdown_result w Client)) w)
      \/ (usable Client w <> Ok tt /\ snd (relay Upstream Client w) = w)).
Proof.
  intros w.
  apply (relay_source_closed Upstream Client w (OSError EBADF)).
  reflexivity.
Defined.

End RelayMore.

Section Chain.

Lemma unlines_cons (l : bytes) ls : unlines (l :: ls) = l ++ CRLF ++ unlines ls.
Proof. unfold unlines. cbn [flat_map]. now rewrite <- app_assoc. Qed.

Lemma unlines_join l0 ls : unlines (l0 :: ls) = join_lines l0 ls ++ CRLF.
Proof.
  revert l0. induction ls as [|l ls IH]; intros l0.
  - unfold join_lines. cbn [unlines flat_map]. now rewrite !app_nil_r.
  - rewrite unlines_cons, IH. unfold join_lines. cbn [flat_map].
    now rewrite <- !app_assoc.
Qed.

Lemma join_lines_cons l0 l ls :
  join_lines l0 (l :: ls) = l0 ++ CRLF ++ join_lines l ls.
Proof. unfold join_lines. cbn [flat_map]. now rewrite <- !app_assoc. Qed.

(** A line without CR LF, followed by CR LF: no terminator starts inside
    the line. *)
Lemma startswith_crlf2_line x l z :
  contains CRLF (x :: l) = false ->
  startswith ((x :: l) ++ CRLF ++ z) CRLF2 = false.
Proof.
  intros H. apply contains_cons_false in H as [Hs _].
  unfold CRLF, CRLF2 in *. cbn [app startswith] in *.
  destruct (N.eqb_spec x 13) as [->|]; [|reflexivity]. cbn [andb] in *.
  destruct l as [|y l]; cbn [app].
  - reflexivity.
  - destruct (N.eqb_spec y 10) as [->|]; [|reflexivity].
    cbn [andb] in Hs. discriminate.
Qed.

Lemma cut_crlf2_skip l z :
  contains CRLF l = false -> startswith z CRLF = false ->
  cut CRLF2 (l ++ CRLF ++ z)
  = match cut CRLF2 z with
    | Some (a, b) => Some (l ++ CRLF ++ a, b)
    | None => None
    end.
Proof.
  intros Hl Hz. induction l as [|x l IH].
  - cbn [app]. unfold CRLF at 1. cbn [app].
    rewrite cut_step.
    2:{ unfold CRLF2, CRLF in *. cbn [startswith] in *.
        destruct z as [|c z]; [reflexivity|].
        destruct (N.eqb_spec c 13) as [->|]; [|reflexivity].
        cbn [andb] in *. destruct z as [|d z]; [reflexivity|].
        now rewrite Hz. }
    rewrite cut_step by reflexivity.
    destruct (cut CRLF2 z) as [[a b]|]; reflexivity.
  - change ((x :: l) ++ CRLF ++ z) with (x :: (l ++ CRLF ++ z)).
    rewrite cut_step by (apply (startswith_crlf2_line x l z Hl)).
    apply contains_cons_false in Hl as [_ Hl]. rewrite (IH Hl).
    destruct (cut CRLF2 z) as [[a b]|]; reflexivity.
Qed.

Lemma cut_crlf2_end l r :
  contains CRLF l = false -> cut CRLF2 (l ++ CRLF2 ++ r) = Some (l, r).
Proof.
  intros Hl. induction l as [|x l IH].
  - apply (cut_here CRLF2 r).
  - change ((x :: l) ++ CRLF2 ++ r) with ((x :: l) ++ CRLF ++ (CRLF ++ r)).
    change ((x :: l) ++ CRLF ++ CRLF ++ r) with (x :: (l ++ CRLF ++ CRLF ++ r)).
    rewrite cut_step by (apply (startswith_crlf2_line x l _ Hl)).
    apply contains_cons_false in Hl as [_ Hl].
    change (l ++ CRLF ++ CRLF ++ r) with (l ++ CRLF2 ++ r).
    now rewrite (IH Hl).
Qed.

Lemma startswith_line_crlf l z :
  l <> [] -> contains CRLF l = false ->
  startswith (l ++ CRLF ++ z) CRLF = false.
Proof.
  intros Hne Hl. destruct l as [|x l]; [congruence|].
  apply contains_cons_false in Hl as [Hs _].
  unfold CRLF in *. cbn [app startswith] in *.
  destruct (N.eqb_spec x 13) as [->|]; [|reflexivity]. cbn [andb] in *.
  destruct l as [|y l]; cbn [app]; [reflexivity|].
  destruct (N.eqb_spec y 10) as [->|]; [|reflexivity].
  cbn [andb] in Hs. discriminate.
Qed.

(** The block of the lines [l0 :: ls], none of which holds CR LF and none
    of which but the first is empty, ends at the first terminator. *)
Lemma cut_crlf2_lines ls : forall l0 r,
  Forall (fun l => contains CRLF l = false) (l0 :: ls) ->
  Forall (fun l => l <> []) ls ->
  cut CRLF2 (unlines (l0 :: ls) ++ CRLF ++ r) = Some (join_lines l0 ls, r).
Proof.
  induction ls as [|l ls IH]; intros l0 r Hfree Hne.
  - unfold join_lines. cbn [unlines flat_map]. rewrite !app_nil_r.
    rewrite <- app_assoc. apply cut_crlf2_end. now inversion Hfree.
  - inversion Hfree as [|? ? H0 Hfree']; subst.
    inversion Hne as [|? ? Hl Hne']; subst.
    rewrite unlines_cons, <- !app_assoc, join_lines_cons.
    rewrite cut_crlf2_skip; [|exact H0|].
    + rewrite (IH l r Hfree' Hne'). reflexivity.
    + rewrite unlines_cons, <- !app_assoc.
      apply startswith_line_crlf; [exact Hl|now inversion Hfree'].
Qed.

Lemma split_join_lines ls : forall l0,
  Forall (fun l => contains CRLF l = false) (l0 :: ls) ->
  split CRLF (join_lines l0 ls) = l0 :: ls.
Proof.
  induction ls as [|l ls IH]; intros l0 Hfree;
    inversion Hfree as [|? ? H0 Hfree']; subst.
  - unfold join_lines. cbn [flat_map]. rewrite app_nil_r.
    apply split_cut_None. now apply contains_false_cut.
  - rewrite join_lines_cons, split_crlf_app by exact H0.
    now rewrite (IH l Hfree').
Qed.

Lemma decode_replace_reencoded l :
  decode_replace (reencoded l) = decode_replace l.
Proof.
  apply decode_decode_replace, encode_decode, encode_reencoded.
Qed.

Lemma reencoded_twice l : reencoded (reencoded l) = reencoded l.
Proof. apply reencoded_same, reencoded_valid. Qed.

Lemma reencoded_nonempty l : l <> [] -> reencoded l <> [].
Proof.
  intros Hne Hre. apply (decode_replace_nonempty l Hne).
  rewrite <- decode_replace_reencoded, Hre. reflexivity.
Qed.

Lemma reencoded_crlf_free l :
  contains CRLF l = false -> contains CRLF (reencoded l) = false.
Proof.
  intros Hl. apply contains_false_cut in Hl. apply contains_false_cut.
  pose proof (cut_crlf_decode_replace (reencoded l)) as H.
  rewrite decode_replace_reencoded, cut_crlf_decode_replace, Hl in H.
  destruct (cut CRLF (reencoded l)) as [[a b]|]; [discriminate|reflexivity].
Qed.

Lemma retained_parts head l0 ls :
  retained head = l0 :: ls ->
  Forall (fun l => contains CRLF l = false) (l0 :: ls)
  /\ Forall (fun l => is_auth_line l = false) ls.
Proof.
  unfold retained. intros H.
  pose proof (split_parts_free CRLF ltac:(discriminate) head) as Hfree.
  destruct (split CRLF head) as [|x xs]; [discriminate|].
  injection H as <- <-. inversion Hfree as [|? ? Hx Hxs]; subst. split.
  - constructor; [exact Hx|]. apply Forall_forall. intros l Hl.
    apply filter_In in Hl as [Hl _]. rewrite Forall_forall in Hxs. auto.
  - apply Forall_forall. intros l Hl. apply filter_In in Hl as [_ Hl].
    now destruct (is_auth_line l).
Qed.

(** The configured header as lines of bytes: none, or one that holds no
    CR LF and that the rewriter takes for a Proxy-Authorization line. *)
Lemma configured_lines a :
  configured a ->
  exists auth_lines,
    a = unlines auth_lines
    /\ Forall (fun l => contains CRLF l = false) auth_lines
    /\ Forall (fun l => l <> []) auth_lines
    /\ Forall (fun l => is_auth_line l = true) auth_lines.
Proof.
  intros Hconf. pose proof (configured_ascii _ Hconf) as Hascii.
  destruct Hconf as [->|(user & password & Hmk)].
  - exists []. repeat split; constructor.
  - destruct (make_auth_header_line _ _ _ Hmk) as (b64 & -> & Hb64).
    set (line := lit "Proxy-Authorization: Basic " ++ b64) in *.
    exists [line]. split; [|split; [|split]].
    + cbn [unlines flat_map]. now rewrite app_nil_r.
    + constructor; [|constructor]. apply no_cr_free. subst line.
      intros Hin. apply in_app_or in Hin as [Hin|Hin]; [|auto].
      revert Hin. vm_compute. intuition discriminate.
    + constructor; [|constructor]. subst line. discriminate.
    + constructor; [|constructor]. unfold is_auth_line.
      apply Forall_app in Hascii as [Hline _].
      rewrite (decode_decode_replace _ _ (decode_ascii _ Hline)).
      apply auth_line_is_proxy_authorization.
Qed.

Lemma filter_auth_lines (ls : list bytes) :
  Forall (fun l => is_auth_line l = true) ls ->
  filter (fun l => negb (is_auth_line l)) ls = [].
Proof.
  induction 1 as [|l ls Hl _ IH]; [reflexivity|]. cbn [filter].
  now rewrite Hl.
Qed.

Lemma filter_reencoded_kept (ks : list bytes) :
  Forall (fun l => is_auth_line l = false) ks ->
  filter (fun l => negb (is_auth_line l)) (map reencoded ks)
  = map reencoded ks.
Proof.
  induction 1 as [|k ks Hk _ IH]; [reflexivity|]. cbn [map filter].
  unfold is_auth_line at 1. rewrite decode_replace_reencoded.
  fold (is_auth_line k). rewrite Hk. cbn [negb]. now rewrite IH.
Qed.

Lemma reencoded_kept_again (ks : list bytes) :
  Forall (fun l => l <> []) ks ->
  map reencoded (filter nonempty (map reencoded ks)) = map reencoded ks.
Proof.
  induction 1 as [|k ks Hk _ IH]; [reflexivity|]. cbn [map filter].
  pose proof (reencoded_nonempty k Hk) as Hn.
  destruct (reencoded k) eqn:Ek; [congruence|]. cbn [nonempty map].
  rewrite <- Ek, reencoded_twice, IH. reflexivity.
Qed.

(** X15.  Two relays in a row.  The header bytes that a relay sends,
    followed by any bytes, are framed by the next relay at their closing
    blank line, and from them the next relay sends the header bytes that
    it would have sent for the original header block: the header of the
    first relay is replaced by that of the second, and nothing else
    changes.  With the same header, a relay passes the header bytes of
    another relay on as they are. *)
Theorem header_bytes_chain (first second : str) (head out rest : bytes) :
  configured first -> configured second ->
  header_bytes first head = Ok out ->
  exists head',
    index_cut (out ++ rest) = Ok (head', rest)
    /\ header_bytes second head' = header_bytes second head.
Proof.
  intros Hfirst Hsecond Hout.
  pose proof (encode_ascii _ (configured_ascii _ Hfirst)) as Ha1.
  pose proof (encode_ascii _ (configured_ascii _ Hsecond)) as Ha2.
  destruct (retained head) as [|l0 ls] eqn:Hret.
  { exfalso. unfold retained in Hret. pose proof (split_not_nil CRLF head).
    destruct (split CRLF head); [congruence|discriminate]. }
  destruct (retained_parts _ _ _ Hret) as [Hfree Hnoauth].
  inversion Hfree as [|? ? Hfree0 Hfree']; subst.
  rewrite (header_bytes_lines _ _ _ _ _ Ha1 Hret) in Hout.
  assert (Hout' : out = reencoded l0 ++ CRLF ++ first
                          ++ unlines (map reencoded (filter nonempty ls))
                          ++ CRLF)
    by (injection Hout as <-; reflexivity).
  clear Hout. subst out.
  destruct (configured_lines _ Hfirst)
    as (auth_lines & -> & Hafree & Hane & Hauth).
  set (K := filter nonempty ls).
  assert (HK : Forall (fun l => contains CRLF l = false /\ l <> []
                               /\ is_auth_line l = false) K).
  { subst K. apply Forall_forall. intros l Hl.
    apply filter_In in Hl as [Hl Hn]. rewrite Forall_forall in *.
    repeat split; auto. now destruct l. }
  set (B := auth_lines ++ map reencoded K).
  assert (Hblock : reencoded l0 ++ CRLF ++ unlines auth_lines
                     ++ unlines (map reencoded K) ++ CRLF
                   = unlines (reencoded l0 :: B) ++ CRLF).
  { rewrite unlines_cons. subst B. unfold unlines at 3.
    rewrite flat_map_app. fold (unlines auth_lines).
    fold (unlines (map reencoded K)). now rewrite <- !app_assoc. }
  assert (HBfree : Forall (fun l => contains CRLF l = false)
                     (reencoded l0 :: B)).
  { constructor; [now apply reencoded_crlf_free|]. subst B.
    apply Forall_app. split; [exact Hafree|].
    apply Forall_forall. intros l Hl. apply in_map_iff in Hl as (k & <- & Hk).
    rewrite Forall_forall in HK. apply reencoded_crlf_free. now apply HK. }
  assert (HBne : Forall (fun l => l <> []) B).
  { subst B. apply Forall_app. split; [exact Hane|].
    apply Forall_forall. intros l Hl. apply in_map_iff in Hl as (k & <- & Hk).
    rewrite Forall_forall in HK. apply reencoded_nonempty. now apply HK. }
  exists (join_lines (reencoded l0) B). split.
  - unfold index_cut. rewrite Hblock.
    rewrite <- (app_assoc (unlines (reencoded l0 :: B)) CRLF rest).
    pose proof (cut_crlf2_lines B _ rest HBfree HBne) as Hc.
    unfold bytes, str in *. now rewrite Hc.
  - assert (HKa : Forall (fun l => is_auth_line l = false) K)
      by (eapply Forall_impl; [|exact HK]; intros l Hl; apply Hl).
    assert (HKn : Forall (fun l : bytes => l <> []) K)
      by (eapply Forall_impl; [|exact HK]; intros l Hl; apply Hl).
    assert (Hret' : retained (join_lines (reencoded l0) B)
                    = reencoded l0 :: map reencoded K).
    { unfold retained. rewrite (split_join_lines B _ HBfree). f_equal.
      subst B. rewrite filter_app.
      pose proof (filter_auth_lines _ Hauth) as E1.
      pose proof (filter_reencoded_kept K HKa) as E2.
      unfold bytes, str in *. now rewrite E1, E2. }
    rewrite (header_bytes_lines _ _ _ _ _ Ha2 Hret').
    rewrite (header_bytes_lines _ _ _ _ _ Ha2 Hret).
    pose proof (reencoded_kept_again K HKn) as E3.
    rewrite reencoded_twice. fold K. unfold bytes, str in *.
    now rewrite E3.
Qed.

Lemma header_bytes_chain_witness :
  exists head',
    index_cut
      ((lit "GET / HTTP/1.1" ++ CRLF ++ basic_user_pass
          ++ lit "X-Name: caf" ++ [239; 191; 189] ++ CRLF2) ++ lit "body")
    = Ok (head', lit "body")
    /\ header_bytes [] head' = header_bytes [] latin1_header.
Proof.
  apply (header_bytes_chain basic_user_pass [] latin1_header).
  - right. exists (Some (lit "user")), (Some (lit "pass")). reflexivity.
  - now left.
  - vm_compute. reflexivity.
Defined.

End Chain.

Section Base64.

Ltac euclid := zify; Z.to_euclidean_division_equations; lia.

Lemma b64_char_index n :
  n < 64 -> b64_index (b64_char n) = n /\ b64_char n <> 61.
Proof.
  intros Hn.
  assert (Hall : forallb (fun k => (b64_index (b64_char k) =? k)
                                   && negb (b64_char k =? 61))
                   (map N.of_nat (seq 0 64)) = true) by (vm_compute; reflexivity).
  rewrite forallb_forall in Hall.
  specialize (Hall n). rewrite andb_true_iff, negb_true_iff in Hall.
  rewrite N.eqb_eq, N.eqb_neq in Hall. apply Hall.
  apply in_map_iff. exists (N.to_nat n). split; [apply Nnat.N2Nat.id|].
  apply in_seq. lia.
Qed.

Lemma encode_cp_range c run :
  encode_cp c = Some run -> Forall (fun b => b < 256) run.
Proof.
  unfold encode_cp.
  destruct (N.ltb_spec c 128) as [H1|H1].
  { intros E. assert (Hrun : [c] = run) by congruence. rewrite <- Hrun.
    repeat (apply Forall_cons; [lia|]). apply Forall_nil. }
  destruct (N.ltb_spec c 2048) as [H2|H2].
  { intros E.
    assert (Hrun : [192 + c / 64; 128 + c mod 64] = run) by congruence.
    rewrite <- Hrun. repeat (apply Forall_cons; [euclid|]). apply Forall_nil. }
  destruct (N.ltb_spec c 65536) as [H3|H3].
  - destruct (_ && _); [discriminate|]. intros E.
    assert (Hrun : [224 + c / 4096; 128 + (c / 64) mod 64; 128 + c mod 64]
                   = run) by congruence.
    rewrite <- Hrun. repeat (apply Forall_cons; [euclid|]). apply Forall_nil.
  - destruct (N.ltb_spec c 1114112) as [H4|H4]; [|discriminate].
    intros E.
    assert (Hrun : [240 + c / 262144; 128 + (c / 4096) mod 64;
                    128 + (c / 64) mod 64; 128 + c mod 64] = run)
      by congruence.
    rewrite <- Hrun. repeat (apply Forall_cons; [euclid|]). apply Forall_nil.
Qed.

Lemma encode_range s : forall raw,
  encode s = Ok raw -> Forall (fun b => b < 256) raw.
Proof.
  induction s as [|c s IH]; intros raw H; cbn [encode] in H.
  - injection H as <-. constructor.
  - destruct (encode_cp c) as [run|] eqn:Ec; [|discriminate].
    destruct (encode s) as [r|e]; cbn [res_bind] in H; [|discriminate].
    injection H as <-. apply Forall_app. split.
    + exact (encode_cp_range _ _ Ec).
    + now apply IH.
Qed.

(** Base 64 text is read back as the bytes it was made from. *)
Lemma b64decode_b64encode bs :
  Forall (fun b => b < 256) bs -> b64decode (b64encode bs) = bs.
Proof.
  remember (length bs) as n eqn:Hn.
  assert (Hle : (length bs <= n)%nat) by lia. clear Hn. revert bs Hle.
  induction n as [|n IH]; intros bs Hle Hall.
  - destruct bs; [reflexivity|simpl in Hle; lia].
  - destruct bs as [|a [|b [|c rest]]]; [reflexivity| | |].
    + inversion Hall as [|? ? Ha _]; subst. cbn [b64encode b64decode].
      destruct (b64_char_index (a / 4)) as [E1 _]; [euclid|].
      destruct (b64_char_index ((a mod 4) * 16)) as [E2 _]; [euclid|].
      rewrite E1, E2. cbn [N.eqb Pos.eqb]. f_equal. euclid.
    + inversion Hall as [|? ? Ha Hall']; subst.
      inversion Hall' as [|? ? Hb _]; subst. cbn [b64encode b64decode].
      destruct (b64_char_index (a / 4)) as [E1 _]; [euclid|].
      destruct (b64_char_index ((a mod 4) * 16 + b / 16)) as [E2 _]; [euclid|].
      destruct (b64_char_index ((b mod 16) * 4)) as [E3 N3]; [euclid|].
      rewrite E1, E2, E3. apply N.eqb_neq in N3. rewrite N3.
      cbn [N.eqb Pos.eqb]. f_equal; [euclid|]. f_equal. euclid.
    + inversion Hall as [|? ? Ha Hall']; subst.
      inversion Hall' as [|? ? Hb Hall'']; subst.
      inversion Hall'' as [|? ? Hc Hrest]; subst.
      cbn [b64encode b64decode].
      destruct (b64_char_index (a / 4)) as [E1 _]; [euclid|].
      destruct (b64_char_index ((a mod 4) * 16 + b / 16)) as [E2 _]; [euclid|].
      destruct (b64_char_index ((b mod 16) * 4 + c / 64)) as [E3 N3]; [euclid|].
      destruct (b64_char_index (c mod 64)) as [E4 N4]; [euclid|].
      rewrite E1, E2, E3, E4. apply N.eqb_neq in N3, N4. rewrite N3, N4.
      rewrite IH by (cbn [length] in Hle; lia || assumption).
      f_equal; [euclid|]. f_equal; [euclid|]. f_equal. euclid.
Qed.

(** X16.  The credentials can be read back from the header of
    [make_auth_header]: the header is [Proxy-Authorization: Basic], a
    space, base 64 text and CR LF, and the base 64 text is read (RFC 4648)
    as the UTF-8 bytes of [user:password]. *)
Theorem make_auth_header_credentials (user password : option str)
  (auth_header : str) :
  make_auth_header user password = Ok auth_header ->
  exists b64 raw,
    auth_header = lit "Proxy-Authorization: Basic " ++ b64 ++ CRLF
    /\ b64decode b64 = raw
    /\ decode raw = Ok (fmt user ++ lit ":" ++ fmt password).
Proof.
  unfold make_auth_header.
  destruct (encode _) as [raw|e] eqn:Eraw; cbn [res_bind]; [|discriminate].
  assert (Hp : Forall (fun c => c < 128) (b64encode raw)).
  { eapply Forall_impl; [|apply b64encode_chars].
    intros c Hc. now apply b64_plain. }
  rewrite (decode_ascii _ Hp). cbn [res_bind]. intros H.
  exists (b64encode raw), raw. split; [|split].
  - injection H as <-. reflexivity.
  - apply b64decode_b64encode. exact (encode_range _ _ Eraw).
  - exact (encode_decode _ _ Eraw).
Qed.

Lemma make_auth_header_credentials_witness :
  exists b64 raw,
    lit "Proxy-Authorization: Basic dXNlcjpwYXNz" ++ CRLF
    = lit "Proxy-Authorization: Basic " ++ b64 ++ CRLF
    /\ b64decode b64 = raw
    /\ decode raw = Ok (fmt (Some (lit "user")) ++ lit ":"
                          ++ fmt (Some (lit "pass"))).
Proof.
  apply (make_auth_header_credentials (Some (lit "user")) (Some (lit "pass"))).
  reflexivity.
Defined.

End Base64.
